(** * GOST R 34.10 signatures and GOST R 34.11-2012 hashing (src/Gost.cpp)

    A shallow embedding of [src/Gost.cpp].  Part I models the hash:
    the 512-bit block union [GOST3411Block] with its operators, the
    compression function [gN], the one-shot function [H] and the
    streaming context [GOSTR3411_2012_CTX].  Part II models the
    signature engine [GOSTR3410Curve] over an interface for the
    big-number and elliptic-curve primitives the file takes from OpenSSL.

    Bytes are integers in [0, 256); a buffer is a list of bytes; array
    stores are stdpp list inserts.  C integers wider than a byte are
    integers with their wrap-around written out at the operation. *)

From Stdlib Require Import ZArith Zcong Lia List Bool.
From stdpp Require Import base tactics numbers list fin finite.
Import ListNotations.
Local Open Scope Z_scope.

(** ** Part I.  GOST R 34.11-2012 *)

Module Gost3411.

(** *** Constant tables, copied from the source *)

Definition sbox_ : list Z :=
  [
    0xfc; 0xee; 0xdd; 0x11; 0xcf; 0x6e; 0x31; 0x16; 0xfb; 0xc4; 0xfa; 0xda; 0x23; 0xc5; 0x04; 0x4d;
    0xe9; 0x77; 0xf0; 0xdb; 0x93; 0x2e; 0x99; 0xba; 0x17; 0x36; 0xf1; 0xbb; 0x14; 0xcd; 0x5f; 0xc1;
    0xf9; 0x18; 0x65; 0x5a; 0xe2; 0x5c; 0xef; 0x21; 0x81; 0x1c; 0x3c; 0x42; 0x8b; 0x01; 0x8e; 0x4f;
    0x05; 0x84; 0x02; 0xae; 0xe3; 0x6a; 0x8f; 0xa0; 0x06; 0x0b; 0xed; 0x98; 0x7f; 0xd4; 0xd3; 0x1f;
    0xeb; 0x34; 0x2c; 0x51; 0xea; 0xc8; 0x48; 0xab; 0xf2; 0x2a; 0x68; 0xa2; 0xfd; 0x3a; 0xce; 0xcc;
    0xb5; 0x70; 0x0e; 0x56; 0x08; 0x0c; 0x76; 0x12; 0xbf; 0x72; 0x13; 0x47; 0x9c; 0xb7; 0x5d; 0x87;
    0x15; 0xa1; 0x96; 0x29; 0x10; 0x7b; 0x9a; 0xc7; 0xf3; 0x91; 0x78; 0x6f; 0x9d; 0x9e; 0xb2; 0xb1;
    0x32; 0x75; 0x19; 0x3d; 0xff; 0x35; 0x8a; 0x7e; 0x6d; 0x54; 0xc6; 0x80; 0xc3; 0xbd; 0x0d; 0x57;
    0xdf; 0xf5; 0x24; 0xa9; 0x3e; 0xa8; 0x43; 0xc9; 0xd7; 0x79; 0xd6; 0xf6; 0x7c; 0x22; 0xb9; 0x03;
    0xe0; 0x0f; 0xec; 0xde; 0x7a; 0x94; 0xb0; 0xbc; 0xdc; 0xe8; 0x28; 0x50; 0x4e; 0x33; 0x0a; 0x4a;
    0xa7; 0x97; 0x60; 0x73; 0x1e; 0x00; 0x62; 0x44; 0x1a; 0xb8; 0x38; 0x82; 0x64; 0x9f; 0x26; 0x41;
    0xad; 0x45; 0x46; 0x92; 0x27; 0x5e; 0x55; 0x2f; 0x8c; 0xa3; 0xa5; 0x7d; 0x69; 0xd5; 0x95; 0x3b;
    0x07; 0x58; 0xb3; 0x40; 0x86; 0xac; 0x1d; 0xf7; 0x30; 0x37; 0x6b; 0xe4; 0x88; 0xd9; 0xe7; 0x89;
    0xe1; 0x1b; 0x83; 0x49; 0x4c; 0x3f; 0xf8; 0xfe; 0x8d; 0x53; 0xaa; 0x90; 0xca; 0xd8; 0x85; 0x61;
    0x20; 0x71; 0x67; 0xa4; 0x2d; 0x2b; 0x09; 0x5b; 0xcb; 0x9b; 0x25; 0xd0; 0xbe; 0xe5; 0x6c; 0x52;
    0x59; 0xa6; 0x74; 0xd2; 0xe6; 0xf4; 0xb4; 0xc0; 0xd1; 0x66; 0xaf; 0xc2; 0x39; 0x4b; 0x63; 0xb6
  ].

Definition A_ : list Z :=
  [
    0x8e20faa72ba0b470; 0x47107ddd9b505a38; 0xad08b0e0c3282d1c; 0xd8045870ef14980e;
    0x6c022c38f90a4c07; 0x3601161cf205268d; 0x1b8e0b0e798c13c8; 0x83478b07b2468764;
    0xa011d380818e8f40; 0x5086e740ce47c920; 0x2843fd2067adea10; 0x14aff010bdd87508;
    0x0ad97808d06cb404; 0x05e23c0468365a02; 0x8c711e02341b2d01; 0x46b60f011a83988e;
    0x90dab52a387ae76f; 0x486dd4151c3dfdb9; 0x24b86a840e90f0d2; 0x125c354207487869;
    0x092e94218d243cba; 0x8a174a9ec8121e5d; 0x4585254f64090fa0; 0xaccc9ca9328a8950;
    0x9d4df05d5f661451; 0xc0a878a0a1330aa6; 0x60543c50de970553; 0x302a1e286fc58ca7;
    0x18150f14b9ec46dd; 0x0c84890ad27623e0; 0x0642ca05693b9f70; 0x0321658cba93c138;
    0x86275df09ce8aaa8; 0x439da0784e745554; 0xafc0503c273aa42a; 0xd960281e9d1d5215;
    0xe230140fc0802984; 0x71180a8960409a42; 0xb60c05ca30204d21; 0x5b068c651810a89e;
    0x456c34887a3805b9; 0xac361a443d1c8cd2; 0x561b0d22900e4669; 0x2b838811480723ba;
    0x9bcf4486248d9f5d; 0xc3e9224312c8c1a0; 0xeffa11af0964ee50; 0xf97d86d98a327728;
    0xe4fa2054a80b329c; 0x727d102a548b194e; 0x39b008152acb8227; 0x9258048415eb419d;
    0x492c024284fbaec0; 0xaa16012142f35760; 0x550b8e9e21f7a530; 0xa48b474f9ef5dc18;
    0x70a6a56e2440598e; 0x3853dc371220a247; 0x1ca76e95091051ad; 0x0edd37c48a08a6d8;
    0x07e095624504536c; 0x8d70c431ac02a736; 0xc83862965601dd1b; 0x641c314b2b8ee083
  ].

Definition C_ : list (list Z) :=
  [
  [
    0xb1; 0x08; 0x5b; 0xda; 0x1e; 0xca; 0xda; 0xe9; 0xeb; 0xcb; 0x2f; 0x81; 0xc0; 0x65; 0x7c; 0x1f;
    0x2f; 0x6a; 0x76; 0x43; 0x2e; 0x45; 0xd0; 0x16; 0x71; 0x4e; 0xb8; 0x8d; 0x75; 0x85; 0xc4; 0xfc;
    0x4b; 0x7c; 0xe0; 0x91; 0x92; 0x67; 0x69; 0x01; 0xa2; 0x42; 0x2a; 0x08; 0xa4; 0x60; 0xd3; 0x15;
    0x05; 0x76; 0x74; 0x36; 0xcc; 0x74; 0x4d; 0x23; 0xdd; 0x80; 0x65; 0x59; 0xf2; 0xa6; 0x45; 0x07
  ];
  [
    0x6f; 0xa3; 0xb5; 0x8a; 0xa9; 0x9d; 0x2f; 0x1a; 0x4f; 0xe3; 0x9d; 0x46; 0x0f; 0x70; 0xb5; 0xd7;
    0xf3; 0xfe; 0xea; 0x72; 0x0a; 0x23; 0x2b; 0x98; 0x61; 0xd5; 0x5e; 0x0f; 0x16; 0xb5; 0x01; 0x31;
    0x9a; 0xb5; 0x17; 0x6b; 0x12; 0xd6; 0x99; 0x58; 0x5c; 0xb5; 0x61; 0xc2; 0xdb; 0x0a; 0xa7; 0xca;
    0x55; 0xdd; 0xa2; 0x1b; 0xd7; 0xcb; 0xcd; 0x56; 0xe6; 0x79; 0x04; 0x70; 0x21; 0xb1; 0x9b; 0xb7
  ];
  [
    0xf5; 0x74; 0xdc; 0xac; 0x2b; 0xce; 0x2f; 0xc7; 0x0a; 0x39; 0xfc; 0x28; 0x6a; 0x3d; 0x84; 0x35;
    0x06; 0xf1; 0x5e; 0x5f; 0x52; 0x9c; 0x1f; 0x8b; 0xf2; 0xea; 0x75; 0x14; 0xb1; 0x29; 0x7b; 0x7b;
    0xd3; 0xe2; 0x0f; 0xe4; 0x90; 0x35; 0x9e; 0xb1; 0xc1; 0xc9; 0x3a; 0x37; 0x60; 0x62; 0xdb; 0x09;
    0xc2; 0xb6; 0xf4; 0x43; 0x86; 0x7a; 0xdb; 0x31; 0x99; 0x1e; 0x96; 0xf5; 0x0a; 0xba; 0x0a; 0xb2
  ];
  [
    0xef; 0x1f; 0xdf; 0xb3; 0xe8; 0x15; 0x66; 0xd2; 0xf9; 0x48; 0xe1; 0xa0; 0x5d; 0x71; 0xe4; 0xdd;
    0x48; 0x8e; 0x85; 0x7e; 0x33; 0x5c; 0x3c; 0x7d; 0x9d; 0x72; 0x1c; 0xad; 0x68; 0x5e; 0x35; 0x3f;
    0xa9; 0xd7; 0x2c; 0x82; 0xed; 0x03; 0xd6; 0x75; 0xd8; 0xb7; 0x13; 0x33; 0x93; 0x52; 0x03; 0xbe;
    0x34; 0x53; 0xea; 0xa1; 0x93; 0xe8; 0x37; 0xf1; 0x22; 0x0c; 0xbe; 0xbc; 0x84; 0xe3; 0xd1; 0x2e
  ];
  [
    0x4b; 0xea; 0x6b; 0xac; 0xad; 0x47; 0x47; 0x99; 0x9a; 0x3f; 0x41; 0x0c; 0x6c; 0xa9; 0x23; 0x63;
    0x7f; 0x15; 0x1c; 0x1f; 0x16; 0x86; 0x10; 0x4a; 0x35; 0x9e; 0x35; 0xd7; 0x80; 0x0f; 0xff; 0xbd;
    0xbf; 0xcd; 0x17; 0x47; 0x25; 0x3a; 0xf5; 0xa3; 0xdf; 0xff; 0x00; 0xb7; 0x23; 0x27; 0x1a; 0x16;
    0x7a; 0x56; 0xa2; 0x7e; 0xa9; 0xea; 0x63; 0xf5; 0x60; 0x17; 0x58; 0xfd; 0x7c; 0x6c; 0xfe; 0x57
  ];
  [
    0xae; 0x4f; 0xae; 0xae; 0x1d; 0x3a; 0xd3; 0xd9; 0x6f; 0xa4; 0xc3; 0x3b; 0x7a; 0x30; 0x39; 0xc0;
    0x2d; 0x66; 0xc4; 0xf9; 0x51; 0x42; 0xa4; 0x6c; 0x18; 0x7f; 0x9a; 0xb4; 0x9a; 0xf0; 0x8e; 0xc6;
    0xcf; 0xfa; 0xa6; 0xb7; 0x1c; 0x9a; 0xb7; 0xb4; 0x0a; 0xf2; 0x1f; 0x66; 0xc2; 0xbe; 0xc6; 0xb6;
    0xbf; 0x71; 0xc5; 0x72; 0x36; 0x90; 0x4f; 0x35; 0xfa; 0x68; 0x40; 0x7a; 0x46; 0x64; 0x7d; 0x6e
  ];
  [
    0xf4; 0xc7; 0x0e; 0x16; 0xee; 0xaa; 0xc5; 0xec; 0x51; 0xac; 0x86; 0xfe; 0xbf; 0x24; 0x09; 0x54;
    0x39; 0x9e; 0xc6; 0xc7; 0xe6; 0xbf; 0x87; 0xc9; 0xd3; 0x47; 0x3e; 0x33; 0x19; 0x7a; 0x93; 0xc9;
    0x09; 0x92; 0xab; 0xc5; 0x2d; 0x82; 0x2c; 0x37; 0x06; 0x47; 0x69; 0x83; 0x28; 0x4a; 0x05; 0x04;
    0x35; 0x17; 0x45; 0x4c; 0xa2; 0x3c; 0x4a; 0xf3; 0x88; 0x86; 0x56; 0x4d; 0x3a; 0x14; 0xd4; 0x93
  ];
  [
    0x9b; 0x1f; 0x5b; 0x42; 0x4d; 0x93; 0xc9; 0xa7; 0x03; 0xe7; 0xaa; 0x02; 0x0c; 0x6e; 0x41; 0x41;
    0x4e; 0xb7; 0xf8; 0x71; 0x9c; 0x36; 0xde; 0x1e; 0x89; 0xb4; 0x44; 0x3b; 0x4d; 0xdb; 0xc4; 0x9a;
    0xf4; 0x89; 0x2b; 0xcb; 0x92; 0x9b; 0x06; 0x90; 0x69; 0xd1; 0x8d; 0x2b; 0xd1; 0xa5; 0xc4; 0x2f;
    0x36; 0xac; 0xc2; 0x35; 0x59; 0x51; 0xa8; 0xd9; 0xa4; 0x7f; 0x0d; 0xd4; 0xbf; 0x02; 0xe7; 0x1e
  ];
  [
    0x37; 0x8f; 0x5a; 0x54; 0x16; 0x31; 0x22; 0x9b; 0x94; 0x4c; 0x9a; 0xd8; 0xec; 0x16; 0x5f; 0xde;
    0x3a; 0x7d; 0x3a; 0x1b; 0x25; 0x89; 0x42; 0x24; 0x3c; 0xd9; 0x55; 0xb7; 0xe0; 0x0d; 0x09; 0x84;
    0x80; 0x0a; 0x44; 0x0b; 0xdb; 0xb2; 0xce; 0xb1; 0x7b; 0x2b; 0x8a; 0x9a; 0xa6; 0x07; 0x9c; 0x54;
    0x0e; 0x38; 0xdc; 0x92; 0xcb; 0x1f; 0x2a; 0x60; 0x72; 0x61; 0x44; 0x51; 0x83; 0x23; 0x5a; 0xdb
  ];
  [
    0xab; 0xbe; 0xde; 0xa6; 0x80; 0x05; 0x6f; 0x52; 0x38; 0x2a; 0xe5; 0x48; 0xb2; 0xe4; 0xf3; 0xf3;
    0x89; 0x41; 0xe7; 0x1c; 0xff; 0x8a; 0x78; 0xdb; 0x1f; 0xff; 0xe1; 0x8a; 0x1b; 0x33; 0x61; 0x03;
    0x9f; 0xe7; 0x67; 0x02; 0xaf; 0x69; 0x33; 0x4b; 0x7a; 0x1e; 0x6c; 0x30; 0x3b; 0x76; 0x52; 0xf4;
    0x36; 0x98; 0xfa; 0xd1; 0x15; 0x3b; 0xb6; 0xc3; 0x74; 0xb4; 0xc7; 0xfb; 0x98; 0x45; 0x9c; 0xed
  ];
  [
    0x7b; 0xcd; 0x9e; 0xd0; 0xef; 0xc8; 0x89; 0xfb; 0x30; 0x02; 0xc6; 0xcd; 0x63; 0x5a; 0xfe; 0x94;
    0xd8; 0xfa; 0x6b; 0xbb; 0xeb; 0xab; 0x07; 0x61; 0x20; 0x01; 0x80; 0x21; 0x14; 0x84; 0x66; 0x79;
    0x8a; 0x1d; 0x71; 0xef; 0xea; 0x48; 0xb9; 0xca; 0xef; 0xba; 0xcd; 0x1d; 0x7d; 0x47; 0x6e; 0x98;
    0xde; 0xa2; 0x59; 0x4a; 0xc0; 0x6f; 0xd8; 0x5d; 0x6b; 0xca; 0xa4; 0xcd; 0x81; 0xf3; 0x2d; 0x1b
  ];
  [
    0x37; 0x8e; 0xe7; 0x67; 0xf1; 0x16; 0x31; 0xba; 0xd2; 0x13; 0x80; 0xb0; 0x04; 0x49; 0xb1; 0x7a;
    0xcd; 0xa4; 0x3c; 0x32; 0xbc; 0xdf; 0x1d; 0x77; 0xf8; 0x20; 0x12; 0xd4; 0x30; 0x21; 0x9f; 0x9b;
    0x5d; 0x80; 0xef; 0x9d; 0x18; 0x91; 0xcc; 0x86; 0xe7; 0x1d; 0xa4; 0xaa; 0x88; 0xe1; 0x28; 0x52;
    0xfa; 0xf4; 0x17; 0xd5; 0xd9; 0xb2; 0x1b; 0x99; 0x48; 0xbc; 0x92; 0x4a; 0xf1; 0x1b; 0xd7; 0x20
  ]
  ].

(** *** The block union

    [union GOST3411Block { uint8_t buf[64]; uint64_t ll[8]; }].  The
    byte array is the primary view.  A read outside the list yields 0;
    every block the code builds has 64 bytes, so such reads only show
    up for ill-formed arguments. *)

Abbreviation GOST3411Block := (list Z).

Definition byte_at (b : list Z) (i : nat) : Z := nth i b 0.

Definition table_at (t : list Z) (i : nat) : Z := nth i t 0.

(** The [ll] view of a little-endian host: [ll[i]] is the 64-bit word
    whose least significant byte is [buf[8*i]]. *)
Fixpoint le_word (bs : list Z) : Z :=
  match bs with
  | [] => 0
  | b :: bs' => b + 256 * le_word bs'
  end.

Fixpoint le_bytes (n : nat) (w : Z) : list Z :=
  match n with
  | O => []
  | S n' => w mod 256 :: le_bytes n' (w / 256)
  end.

Definition ll_at (b : GOST3411Block) (i : nat) : Z :=
  le_word (map (fun t => byte_at b (8 * i + t)) (seq 0 8)).

(** [operator^] against another block: word by word over [ll]. *)
Definition xor_ll (a b : GOST3411Block) : GOST3411Block :=
  concat (map (fun i => le_bytes 8 (Z.lxor (ll_at a i) (ll_at b i))) (seq 0 8)).

(** [operator^] against a raw byte pointer: byte by byte over [buf]. *)
Definition xor_buf (a : GOST3411Block) (other : list Z) : GOST3411Block :=
  map (fun i => Z.lxor (byte_at a i) (byte_at other i)) (seq 0 64).

(** [operator+]: big-endian addition with carry, index 63 first.
    [sum] is a [uint16_t], [carry] a [uint8_t]. *)
Definition plus_step (a b : GOST3411Block) (st : Z * list Z) (i : nat) : Z * list Z :=
  let '(carry, ret) := st in
  let sum := (byte_at a i + byte_at b i + carry) mod 2 ^ 16 in
  ((Z.shiftr sum 8) mod 2 ^ 8, Z.land sum 0xFF :: ret).

Definition plus (a b : GOST3411Block) : GOST3411Block :=
  snd (fold_left (plus_step a b) (rev (seq 0 64)) (0, [])).

(** [Add (uint32_t c)]: the counter increment; [c] wraps at 32 bits and
    the store into [buf[i]] keeps its low byte. *)
Definition Add_step (b : GOST3411Block) (st : Z * list Z) (i : nat) : Z * list Z :=
  let '(c, ret) := st in
  let c1 := (c + byte_at b i) mod 2 ^ 32 in
  (Z.shiftr c1 8, c1 mod 2 ^ 8 :: ret).

Definition Add (b : GOST3411Block) (c : Z) : GOST3411Block :=
  snd (fold_left (Add_step b) (rev (seq 0 64)) (c, [])).

(** [SPL]: the inner loops accumulate the 64-bit word [c] for output word
    [i]; [bit] starts at 0x80 and moves right with [k]. *)
Definition SPL_bits (byte : Z) (j : nat) (c : Z) : Z :=
  fold_left
    (fun c k =>
       if Z.eqb (Z.land byte (Z.shiftr 0x80 (Z.of_nat k))) 0 then c
       else Z.lxor c (table_at A_ (j * 8 + k)))
    (seq 0 8) c.

Definition SPL_word (p : list Z) (i : nat) : Z :=
  fold_left
    (fun c j => SPL_bits (table_at sbox_ (Z.to_nat (byte_at p (j * 8 + i)))) j c)
    (seq 0 8) 0.

(** [ll[i] = htobe64 (c)] (the branch compiled when WIN32 is not
    defined): the eight bytes of [c], most significant first, land in
    [buf[8*i .. 8*i+7]]. *)
Definition be_bytes (c : Z) : list Z :=
  map (fun t => Z.land (Z.shiftr c (8 * (7 - Z.of_nat t))) 0xFF) (seq 0 8).

Definition SPL (b : GOST3411Block) : GOST3411Block :=
  concat (map (fun i => be_bytes (SPL_word b i)) (seq 0 8)).

(** [E]: twelve rounds over the pair (k, res). *)
Definition E_round (st : GOST3411Block * GOST3411Block) (i : nat)
  : GOST3411Block * GOST3411Block :=
  let '(k, res) := st in
  let res := SPL res in
  let k := xor_buf k (nth i C_ []) in
  let k := SPL k in
  (k, xor_ll k res).

Definition E (this m : GOST3411Block) : GOST3411Block :=
  let k := this in
  let res := xor_ll k m in
  snd (fold_left E_round (seq 0 12) (k, res)).

Definition gN (N h m : GOST3411Block) : GOST3411Block :=
  let res := xor_ll N h in
  let res := SPL res in
  let res := E res m in
  let res := xor_ll res h in
  let res := xor_ll res m in
  res.

(** *** The one-shot hash [H]

    [memset] and [memcpy] write into an existing array; a store past its
    end is dropped (the code never makes one on 64-byte arrays). *)

Definition memset (dst : list Z) (off : nat) (v : Z) (n : nat) : list Z :=
  list_inserts off (replicate n v) dst.

Definition memcpy (dst : list Z) (off : nat) (src : list Z) (n : nat) : list Z :=
  list_inserts off (take n src) dst.

(** The three statements that fold one block [m] into [(h, N, s)]:
    [h = gN (N, h, m); N.Add (512); s = m + s;]. *)
Definition fold_block (hNs : GOST3411Block * GOST3411Block * GOST3411Block)
    (m : GOST3411Block) : GOST3411Block * GOST3411Block * GOST3411Block :=
  let '(h, N, s) := hNs in
  (gN N h m, Add N 512, plus m s).

(** Stage 2, [while (l >= 64)]: blocks are taken from the tail of [buf].
    [fuel] bounds the iterations; [length buf] is always enough. *)
Fixpoint H_stage2 (fuel : nat) (buf : list Z) (l : nat)
    (hNs : GOST3411Block * GOST3411Block * GOST3411Block) (m : GOST3411Block)
  : nat * (GOST3411Block * GOST3411Block * GOST3411Block) * GOST3411Block :=
  match fuel with
  | O => (l, hNs, m)
  | S fuel' =>
      if (64 <=? l)%nat then
        let m := memcpy m 0 (drop (l - 64) buf) 64 in
        H_stage2 fuel' buf (l - 64) (fold_block hNs m) m
      else (l, hNs, m)
  end.

(** Stage 3 up to the last [memcpy]: pad the local [m] and copy the [l]
    bytes that are left.  [padding] is a [size_t]; [l <= 64] at every
    call, so [64 - l] does not wrap. *)
Definition pad_block (m : GOST3411Block) (src : list Z) (l : nat) : GOST3411Block :=
  let padding := (64 - l)%nat in
  let m :=
    if (padding =? 0)%nat then m
    else <[(padding - 1)%nat := 1]> (memset m 0 0 (padding - 1)) in
  memcpy m padding src l.

(** The tail shared by [H] and [GOSTR3411_2012_CTX_Finish]: fold the
    padded block with the bit count [l * 8] (converted to [uint32_t]),
    then the two closing compressions under a zero counter. *)
Definition finalize (hNs : GOST3411Block * GOST3411Block * GOST3411Block)
    (m : GOST3411Block) (l : nat) : GOST3411Block :=
  let '(h, N, s) := hNs in
  let h := gN N h m in
  let N := Add N ((Z.of_nat l * 8) mod 2 ^ 32) in
  let s := plus m s in
  let N0 := replicate 64 0 in
  let h := gN N0 h N in
  let h := gN N0 h s in
  h.

(** [H (iv, buf, len, digest)]; the result is the digest.  The local
    [m] is not initialised by the source; [m_uninit] stands for whatever
    the stack holds.  [buf] must hold at least [len] bytes. *)
Definition H (m_uninit : GOST3411Block) (iv buf : list Z) (len : nat) : list Z :=
  let h := take 64 iv in
  let N := replicate 64 0 in
  let s := replicate 64 0 in
  let '(l, hNs, m) := H_stage2 len buf len (h, N, s) m_uninit in
  let m := pad_block m buf l in
  let h := finalize hNs m l in
  take 64 h.

Definition GOSTR3411_2012_256 (m_uninit : GOST3411Block) (buf : list Z) (len : nat)
  : list Z :=
  let iv := replicate 64 1 in
  let h := H m_uninit iv buf len in
  take 32 h.

Definition GOSTR3411_2012_512 (m_uninit : GOST3411Block) (buf : list Z) (len : nat)
  : list Z :=
  let iv := replicate 64 0 in
  H m_uninit iv buf len.

(** *** The streaming context *)

Record GOSTR3411_2012_CTX : Type := mkCTX {
  ctx_h : GOST3411Block;
  ctx_N : GOST3411Block;
  ctx_s : GOST3411Block;
  ctx_m : GOST3411Block;
  ctx_len : nat;
  ctx_is512 : bool
}.

(** [GOSTR3411_2012_CTX_Init]: [ctx] is the object [new] returned, with
    indeterminate fields; [m] is not written. *)
Definition GOSTR3411_2012_CTX_Init (ctx : GOSTR3411_2012_CTX) (is512 : bool)
  : GOSTR3411_2012_CTX :=
  let iv := replicate 64 (if is512 then 0 else 1) in
  {| ctx_h := take 64 iv;
     ctx_N := replicate 64 0;
     ctx_s := replicate 64 0;
     ctx_m := ctx_m ctx;
     ctx_len := 0;
     ctx_is512 := is512 |}.

(** [for (i = 0; i < cnt; i++) m.buf[off + i] = buf[cnt-i-1];] *)
Definition store_inverted (m : GOST3411Block) (off : nat) (buf : list Z) (cnt : nat)
  : GOST3411Block :=
  fold_left (fun m i => <[(off + i)%nat := byte_at buf (cnt - i - 1)]> m) (seq 0 cnt) m.

(** [ctx->h = gN (ctx->N, ctx->h, ctx->m); ctx->N.Add (512);
    ctx->s = ctx->m + ctx->s;] after [ctx->m] and [ctx->len] are set. *)
Definition ctx_fold_block (ctx : GOSTR3411_2012_CTX) (m : GOST3411Block) (len : nat)
  : GOSTR3411_2012_CTX :=
  {| ctx_h := gN (ctx_N ctx) (ctx_h ctx) m;
     ctx_N := Add (ctx_N ctx) 512;
     ctx_s := plus m (ctx_s ctx);
     ctx_m := m;
     ctx_len := len;
     ctx_is512 := ctx_is512 ctx |}.

(** [while (len >= 64)] of [Update]: [buf] and [len] are the moving
    pointer and the count of bytes left.  [fuel] bounds the iterations;
    the initial [len] is always enough. *)
Fixpoint Update_loop (fuel : nat) (buf : list Z) (len : nat) (ctx : GOSTR3411_2012_CTX)
  : list Z * nat * GOSTR3411_2012_CTX :=
  match fuel with
  | O => (buf, len, ctx)
  | S fuel' =>
      if (64 <=? len)%nat then
        let m := store_inverted (ctx_m ctx) 0 buf 64 in
        Update_loop fuel' (drop 64 buf) (len - 64) (ctx_fold_block ctx m (ctx_len ctx))
      else (buf, len, ctx)
  end.

(** [GOSTR3411_2012_CTX_Update (buf, len, ctx)]; [buf] must hold at
    least [len] bytes.  In the first branch the block is folded whether
    or not the copied bytes filled it, as in the source.  [ctx->len] is
    below 64 in every context that [Init] and [Update] produce, so
    [64 - ctx->len] does not wrap. *)
Definition GOSTR3411_2012_CTX_Update (buf : list Z) (len : nat) (ctx : GOSTR3411_2012_CTX)
  : GOSTR3411_2012_CTX :=
  if (len =? 0)%nat then ctx
  else
    let '(buf, len, ctx) :=
      if (0 <? ctx_len ctx)%nat then
        let l := (64 - ctx_len ctx)%nat in
        let l := if (len <? l)%nat then len else l in
        let m := store_inverted (ctx_m ctx) (ctx_len ctx) buf l in
        (drop l buf, (len - l)%nat, ctx_fold_block ctx m (ctx_len ctx + l))
      else (buf, len, ctx) in
    let '(buf, len, ctx) := Update_loop len buf len ctx in
    let m :=
      if (0 <? len)%nat then store_inverted (ctx_m ctx) 0 buf len
      else ctx_m ctx in
    {| ctx_h := ctx_h ctx;
       ctx_N := ctx_N ctx;
       ctx_s := ctx_s ctx;
       ctx_m := m;
       ctx_len := len;
       ctx_is512 := ctx_is512 ctx |}.

(** [for (i = 0; i < sz; i++) digest[i] = ctx->h.buf[sz - i - 1];] *)
Definition emit_inverted (h : GOST3411Block) (sz : nat) : list Z :=
  map (fun i => byte_at h (sz - i - 1)) (seq 0 sz).

(** [GOSTR3411_2012_CTX_Finish (digest, ctx)]: returns the digest; the
    local [m] starts as [m_uninit]. *)
Definition GOSTR3411_2012_CTX_Finish (m_uninit : GOST3411Block)
    (ctx : GOSTR3411_2012_CTX) : list Z :=
  let m := pad_block m_uninit (ctx_m ctx) (ctx_len ctx) in
  let h := finalize (ctx_h ctx, ctx_N ctx, ctx_s ctx) m (ctx_len ctx) in
  let sz := if ctx_is512 ctx then 64%nat else 32%nat in
  emit_inverted h sz.

(** A whole streaming run: [Init] on a fresh context [ctx0], one
    [Update] per chunk with the chunk's length, then [Finish]. *)
Definition update_all (chunks : list (list Z)) (ctx : GOSTR3411_2012_CTX)
  : GOSTR3411_2012_CTX :=
  fold_left (fun ctx buf => GOSTR3411_2012_CTX_Update buf (length buf) ctx) chunks ctx.

Definition stream (ctx0 : GOSTR3411_2012_CTX) (m_uninit : GOST3411Block)
    (is512 : bool) (chunks : list (list Z)) : list Z :=
  GOSTR3411_2012_CTX_Finish m_uninit
    (update_all chunks (GOSTR3411_2012_CTX_Init ctx0 is512)).

(** The one-shot entry point of the same variant. *)
Definition one_shot (m_uninit : GOST3411Block) (is512 : bool) (buf : list Z) : list Z :=
  if is512 then GOSTR3411_2012_512 m_uninit buf (length buf)
  else GOSTR3411_2012_256 m_uninit buf (length buf).

(** *** The compression step as the specification words it

    The next three definitions follow the prose of the specification,
    not the source: XOR is taken byte by byte over the 64 bytes of a
    block, and the internal cipher is a recursion on the round number. *)

Definition spec_xor (a b : GOST3411Block) : GOST3411Block :=
  map (fun i => Z.lxor (byte_at a i) (byte_at b i)) (seq 0 64).

(** [spec_E_rounds n K0 M] is the pair (state, key) after rounds
    [0 .. n-1], starting from state = K0 xor M and key = K0. *)
Fixpoint spec_E_rounds (n : nat) (K0 M : GOST3411Block) : GOST3411Block * GOST3411Block :=
  match n with
  | O => (spec_xor K0 M, K0)
  | S i =>
      let '(state, key) := spec_E_rounds i K0 M in
      let state := SPL state in
      let key := SPL (spec_xor key (nth i C_ [])) in
      (spec_xor key state, key)
  end.

Definition spec_E (K0 M : GOST3411Block) : GOST3411Block :=
  fst (spec_E_rounds 12 K0 M).

Definition spec_g (N h m : GOST3411Block) : GOST3411Block :=
  spec_xor (spec_xor (spec_E (SPL (spec_xor N h)) m) h) m.

(** A block whose entries are bytes. *)
Definition is_byte (x : Z) : Prop := 0 <= x < 256.

Definition bytes (b : list Z) : Prop := Forall is_byte b.

(** *** Reference folding of a message

    [absorb k M] folds the first [k] 64-byte chunks of [M], each one
    byte-reversed, from the head of [M] onwards.  It is the common
    yardstick the two paths are measured against. *)
Fixpoint absorb (k : nat) (M : list Z)
    (hNs : GOST3411Block * GOST3411Block * GOST3411Block)
  : GOST3411Block * GOST3411Block * GOST3411Block :=
  match k with
  | O => hNs
  | S k' => absorb k' (drop 64 M) (fold_block hNs (reverse (take 64 M)))
  end.

Definition ctx_hNs (ctx : GOSTR3411_2012_CTX)
  : GOST3411Block * GOST3411Block * GOST3411Block :=
  (ctx_h ctx, ctx_N ctx, ctx_s ctx).

(** The block both paths hand to the last message compression when [r]
    bytes [tail] are left: zero bytes, one 0x01 byte, then the bytes. *)
Definition padded (tail : list Z) : GOST3411Block :=
  replicate (63 - length tail) 0 ++ [1] ++ tail.

End Gost3411.

(** ** Part II.  GOST R 34.10 *)

Module Gost3410.

(** *** The OpenSSL primitives the file calls

    A [BIGNUM] is an integer.  Each definition states what the call
    leaves in its result, as the OpenSSL manual documents it: [BN_mod]
    is the remainder of truncating division, [BN_mod_mul] and
    [BN_mod_add] give the non-negative remainder, [BN_mod_inverse] gives
    the inverse in [0, n) or fails when there is none, [BN_cmp] is -1, 0
    or 1.  Where the manual is silent the definitions follow the
    library's code: a failed [BN_mod_inverse] returns NULL and does not
    write its result argument, and [BN_CTX_get] hands out a zero. *)

Definition BN_mod (m d : Z) : Z := Z.rem m d.

Definition BN_mod_mul (a b m : Z) : Z := (a * b) mod m.

Definition BN_mod_add (a b m : Z) : Z := (a + b) mod m.

Definition BN_sub (a b : Z) : Z := a - b.

Definition BN_cmp (a b : Z) : Z :=
  match a ?= b with
  | Lt => -1
  | Eq => 0
  | Gt => 1
  end.

Definition BN_mod_inverse (a n : Z) : option Z :=
  if Z.gcd a n =? 1 then Some (Z.invmod a n) else None.

Definition BN_CTX_get : Z := 0.

(** [BN_rand_range (k, range)] leaves in [k] a value with
    [0 <= k < range]; the predicate holds of every value a call may
    draw. *)
Definition BN_rand_range (k range : Z) : Prop := 0 <= k < range.

(** An [EC_GROUP] over a prime field with its generator and order, as
    [GOSTR3410Curve]'s constructor builds it from (a, b, p, q, x, y).
    [EC_POINT_get_affine_coordinates_GFp] fails on the point at
    infinity; [EC_POINT_set_compressed_coordinates_GFp] fails when no
    point has the given x and y parity. *)
Class EC_GROUP : Type := {
  EC_POINT : Type;
  EC_infinity : EC_POINT;
  EC_POINT_add : EC_POINT -> EC_POINT -> EC_POINT;
  EC_POINT_invert : EC_POINT -> EC_POINT;
  EC_generator : EC_POINT;
  EC_order : Z;
  EC_field : Z;
  EC_POINT_get_affine_coordinates_GFp : EC_POINT -> option (Z * Z);
  EC_POINT_set_compressed_coordinates_GFp : Z -> bool -> option EC_POINT
}.

Section Curve.
Context {m_Group : EC_GROUP}.

(** Scalar multiplication [n * X], by the binary method. *)
Definition EC_scalar (n : Z) (X : EC_POINT) : EC_POINT :=
  match n with
  | Z0 => EC_infinity
  | Zpos k => Pos.iter_op EC_POINT_add k X
  | Zneg k => EC_POINT_invert (Pos.iter_op EC_POINT_add k X)
  end.

(** [EC_POINT_mul (group, r, n, q, m, ctx)]: [r = n * generator + m * q];
    a NULL [n], or NULL [q] and [m], drops that term. *)
Definition EC_POINT_mul (n : option Z) (qm : option (EC_POINT * Z)) : EC_POINT :=
  match n, qm with
  | Some n, Some (q, m) => EC_POINT_add (EC_scalar n EC_generator) (EC_scalar m q)
  | Some n, None => EC_scalar n EC_generator
  | None, Some (q, m) => EC_scalar m q
  | None, None => EC_infinity
  end.

(** The laws of the group, the order of the generator, and the contract
    of the two coordinate calls. *)
Class EC_GROUP_laws : Prop := {
  EC_add_assoc : forall X Y Z : EC_POINT,
    EC_POINT_add X (EC_POINT_add Y Z) = EC_POINT_add (EC_POINT_add X Y) Z;
  EC_add_comm : forall X Y : EC_POINT, EC_POINT_add X Y = EC_POINT_add Y X;
  EC_add_infinity : forall X : EC_POINT, EC_POINT_add EC_infinity X = X;
  EC_add_invert : forall X : EC_POINT, EC_POINT_add X (EC_POINT_invert X) = EC_infinity;
  EC_order_gt_1 : 1 < EC_order;
  EC_generator_order : EC_scalar EC_order EC_generator = EC_infinity;
  EC_affine_infinity : EC_POINT_get_affine_coordinates_GFp EC_infinity = None;
  EC_affine_range : forall X x y,
    EC_POINT_get_affine_coordinates_GFp X = Some (x, y) ->
    0 <= x < EC_field /\ 0 <= y < EC_field;
  EC_compressed : forall x (y_bit : bool) C,
    EC_POINT_set_compressed_coordinates_GFp x y_bit = Some C <->
    exists y, EC_POINT_get_affine_coordinates_GFp C = Some (x mod EC_field, y) /\
              Z.odd y = y_bit
}.

(** *** [GOSTR3410Curve] *)

Definition MulP (n : Z) : EC_POINT := EC_POINT_mul (Some n) None.

(** [GetXY (p, x, nullptr)]: the call's result, and what [x] holds
    afterwards; on failure [x] keeps its value. *)
Definition GetXY (p : EC_POINT) (x : Z) : bool * Z :=
  match EC_POINT_get_affine_coordinates_GFp p with
  | Some (px, _) => (true, px)
  | None => (false, x)
  end.

(** [Sign (priv, digest, r, s)]: [r_in] is what the caller's [r] holds on
    entry, [k] is the value [BN_rand_range (k, q)] drew.  The result is
    the pair the call leaves in [r] and [s]. *)
Definition Sign (priv digest r_in k : Z) : Z * Z :=
  let q := EC_order in
  let C := MulP k in
  let '(_, r) := GetXY C r_in in
  let s := BN_mod_mul r priv q in
  let tmp := BN_mod_mul k digest q in
  let s := BN_mod_add s tmp q in
  (r, s).

(** [Verify (pub, digest, r, s)].  The results of [BN_mod_inverse] and
    [GetXY] are not looked at: when they fail, [h] and [x] keep what
    they held. *)
Definition Verify (pub : EC_POINT) (digest r s : Z) : bool :=
  let q := EC_order in
  let h := BN_mod digest q in
  let h := match BN_mod_inverse h q with Some i => i | None => h end in
  let z1 := BN_mod_mul s h q in
  let z2 := BN_sub q r in
  let z2 := BN_mod_mul z2 h q in
  let C := EC_POINT_mul (Some z1) (Some (pub, z2)) in
  let x := BN_CTX_get in
  let '(_, x) := GetXY C x in
  let x := BN_mod x q in
  let ret := BN_cmp x r =? 0 in
  ret.

(** [RecoverPublicKey (digest, r, s, isNegativeY)]: [None] is the
    [nullptr] result.  The result of [BN_mod_inverse] is not looked at:
    when it fails, [r1] keeps the zero of [BN_CTX_get]. *)
Definition RecoverPublicKey (digest r s : Z) (isNegativeY : bool) : option EC_POINT :=
  match EC_POINT_set_compressed_coordinates_GFp r (if isNegativeY then true else false) with
  | Some C =>
      let S := EC_POINT_mul (Some s) None in
      let q := EC_order in
      let h := BN_mod digest q in
      let h := BN_sub q h in
      let H := EC_POINT_mul None (Some (C, h)) in
      let C := EC_POINT_add S H in
      let r1 := BN_CTX_get in
      let r1 := match BN_mod_inverse r q with Some i => i | None => r1 end in
      let Q := EC_POINT_mul None (Some (C, r1)) in
      Some Q
  | None => None
  end.

End Curve.

(** *** The two parameter sets of [CreateGOSTR3410Curve] (p and q) *)

Definition CryptoProA_p : Z :=
  0xFFFFFFFFFFFFFFFFFFFFFFFFFFFFFFFFFFFFFFFFFFFFFFFFFFFFFFFFFFFFFD97.
Definition CryptoProA_q : Z :=
  0xFFFFFFFFFFFFFFFFFFFFFFFFFFFFFFFF6C611070995AD10045841B09B761B893.
Definition tc26_2012_paramSetA_512_p : Z :=
  0xFFFFFFFFFFFFFFFFFFFFFFFFFFFFFFFFFFFFFFFFFFFFFFFFFFFFFFFFFFFFFFFFFFFFFFFFFFFFFFFFFFFFFFFFFFFFFFFFFFFFFFFFFFFFFFFFFFFFFFFFFFFFFDC7.
Definition tc26_2012_paramSetA_512_q : Z :=
  0xFFFFFFFFFFFFFFFFFFFFFFFFFFFFFFFFFFFFFFFFFFFFFFFFFFFFFFFFFFFFFFFF27E69532F48D89116FF22B8D4E0560609B4B38ABFAD2B85DCACDB1411F10B275.

(** *** A small curve for concrete runs

    y^2 = x^3 + 2x + 6 over the field of 17 elements: 11 points, all
    multiples of P = (1, 3).  It is the curve
    [GOSTR3410Curve (a = 2, b = 6, p = 17, q = 11, x = 1, y = 3)].
    A point handle is an index into the table of its points. *)
Module Toy.

Definition p : Z := 17.
Definition a : Z := 2.
Definition b : Z := 6.
Definition q : Z := 11.

Definition on_curve (X : option (Z * Z)) : bool :=
  match X with
  | None => true
  | Some (x, y) =>
      (0 <=? x) && (x <? p) && (0 <=? y) && (y <? p) &&
      ((y * y) mod p =? (x * x * x + a * x + b) mod p)
  end.

(** Chord and tangent addition in affine coordinates. *)
Definition affine_add (X Y : option (Z * Z)) : option (Z * Z) :=
  match X, Y with
  | None, _ => Y
  | _, None => X
  | Some (x1, y1), Some (x2, y2) =>
      if (x1 =? x2) && ((y1 + y2) mod p =? 0) then None
      else
        let lam :=
          if x1 =? x2 then ((3 * x1 * x1 + a) * Z.invmod (2 * y1) p) mod p
          else ((y2 - y1) * Z.invmod (x2 - x1) p) mod p in
        let x3 := (lam * lam - x1 - x2) mod p in
        Some (x3, (lam * (x1 - x3) - y1) mod p)
  end.

Definition affine_neg (X : option (Z * Z)) : option (Z * Z) :=
  match X with
  | None => None
  | Some (x, y) => Some (x, (- y) mod p)
  end.

Definition points : list (option (Z * Z)) :=
  [ None; Some (1, 3); Some (1, 14); Some (2, 1); Some (2, 16); Some (6, 8);
    Some (6, 9); Some (11, 4); Some (11, 13); Some (13, 6); Some (13, 11) ].

Definition coords (X : fin 11) : option (Z * Z) := nth (fin_to_nat X) points None.

Definition handle (X : option (Z * Z)) : fin 11 :=
  default 0%fin (List.find (fun i => bool_decide (coords i = X)) (enum (fin 11))).

Definition decompress (x : Z) (y_bit : bool) : option (fin 11) :=
  match List.find (fun y => on_curve (Some (x mod p, y)) && Bool.eqb (Z.odd y) y_bit)
             (map Z.of_nat (seq 0 17)) with
  | Some y => Some (handle (Some (x mod p, y)))
  | None => None
  end.

(** [decompress] compared with the table of points, as a boolean. *)
Definition decompress_agrees (x : Z) (y_bit : bool) (C : fin 11) : bool :=
  Bool.eqb (bool_decide (decompress x y_bit = Some C))
    (match coords C with
     | Some (cx, cy) => (cx =? x) && Bool.eqb (Z.odd cy) y_bit
     | None => false
     end).

#[export] Instance group : EC_GROUP := {|
  EC_POINT := fin 11;
  EC_infinity := 0%fin;
  EC_POINT_add := fun X Y => handle (affine_add (coords X) (coords Y));
  EC_POINT_invert := fun X => handle (affine_neg (coords X));
  EC_generator := handle (Some (1, 3));
  EC_order := q;
  EC_field := p;
  EC_POINT_get_affine_coordinates_GFp := coords;
  EC_POINT_set_compressed_coordinates_GFp := decompress
|}.

End Toy.

End Gost3410.

(** ** Part II-b.  Reference notions for further properties *)

Module Gost3411_Values.
Import Gost3411.

(** The unsigned integer a byte list stands for, index 0 most
    significant, and the 64-byte block of an integer modulo 2^512. *)
Definition be_value (b : list Z) : Z :=
  fold_left (fun acc x => acc * 256 + x) b 0.

Fixpoint be_digits (n : nat) (v : Z) : list Z :=
  match n with
  | O => []
  | S n' => be_digits n' (v / 256) ++ [v mod 256]
  end.

Definition encode512 (v : Z) : GOST3411Block := be_digits 64 v.

(** The [k] 64-byte blocks [H] takes from the tail of the first [l]
    bytes of [buf], in the order it takes them. *)
Fixpoint tail_blocks (k : nat) (buf : list Z) (l : nat) : list GOST3411Block :=
  match k with
  | O => []
  | S k' => take 64 (drop (l - 64) buf) :: tail_blocks k' buf (l - 64)
  end.

(** The chain of compressions over a list of blocks, block number [i]
    under the counter [512 * i]. *)
Fixpoint chain (blocks : list GOST3411Block) (i : Z) (h : GOST3411Block) : GOST3411Block :=
  match blocks with
  | [] => h
  | m :: rest => chain rest (i + 1) (gN (encode512 (512 * i)) h m)
  end.

Definition sum_values (blocks : list GOST3411Block) : Z :=
  fold_right (fun m acc => be_value m + acc) 0 blocks.

(** The hash as the standard words it: chain the blocks, then compress
    the bit length and the sum of all blocks under a zero counter. *)
Definition hash_by_values (iv buf : list Z) (len : nat) : list Z :=
  let k := (len / 64)%nat in
  let r := (len mod 64)%nat in
  let blocks := tail_blocks k buf len ++ [padded (take r buf)] in
  let h := chain blocks 0 (take 64 iv) in
  let h := gN (replicate 64 0) h (encode512 (8 * Z.of_nat len)) in
  gN (replicate 64 0) h (encode512 (sum_values blocks)).

(** [k] turns of the [while] loop of [Update] on the head of [buf]. *)
Fixpoint iter_blocks (k : nat) (buf : list Z) (ctx : GOSTR3411_2012_CTX)
  : GOSTR3411_2012_CTX :=
  match k with
  | O => ctx
  | S k' =>
      iter_blocks k' (drop 64 buf)
        (ctx_fold_block ctx (store_inverted (ctx_m ctx) 0 buf 64) (ctx_len ctx))
  end.

(** The end of [Update]: the [len] bytes left are kept, reversed, at the
    head of [ctx->m], and [ctx->len] is set. *)
Definition keep_rest (buf : list Z) (len : nat) (ctx : GOSTR3411_2012_CTX)
  : GOSTR3411_2012_CTX :=
  {| ctx_h := ctx_h ctx;
     ctx_N := ctx_N ctx;
     ctx_s := ctx_s ctx;
     ctx_m := if (0 <? len)%nat then store_inverted (ctx_m ctx) 0 buf len else ctx_m ctx;
     ctx_len := len;
     ctx_is512 := ctx_is512 ctx |}.

(** A run of [Update] calls, each with its buffer and its length. *)
Definition update_calls (calls : list (list Z * nat)) (ctx : GOSTR3411_2012_CTX)
  : GOSTR3411_2012_CTX :=
  fold_left (fun ctx call => GOSTR3411_2012_CTX_Update (fst call) (snd call) ctx) calls ctx.

End Gost3411_Values.

(** ** Part II-c.  [SPL] as compiled when WIN32 is defined *)

Module Gost3411_WIN32.
Import Gost3411.

(** The store loop of the WIN32 branch: for [k = 0 .. 7], [buf[k]]
    receives byte [7 - k] of the word [c] as it lies in memory, which on
    that (little-endian) platform holds bits [8 * (7 - k)] and up. *)
Definition SPL_WIN32_store (c : Z) (buf : GOST3411Block) : GOST3411Block :=
  fold_left
    (fun buf k => <[k := Z.land (Z.shiftr c (8 * (7 - Z.of_nat k))) 0xFF]> buf)
    (seq 0 8) buf.

(** The outer loop: [p] is the copy of the block taken on entry, the
    words are computed from [p] and stored into [buf]. *)
Definition SPL_WIN32 (b : GOST3411Block) : GOST3411Block :=
  let p := b in
  fold_left (fun buf i => SPL_WIN32_store (SPL_word p i) buf) (seq 0 8) b.

End Gost3411_WIN32.

(** ** Part II-d.  Undoing the linear step of [SPL]

    Auxiliary definitions, not part of the program: the inverse of the
    GF(2)-linear map given by the table [A_].  They serve to show that
    [SPL] loses no information. *)

Module Gost3411_Inverse.
Import Gost3411.

(** What the inner loops of [SPL] add to [c] for row [j] and byte [y]. *)
Definition SPL_row (j : nat) (y : Z) : Z := SPL_bits y j 0.

(** [A_inv[t]] is the combination of rows that bit [t] of a word stands
    for: entry [8*j + k] of [A_] is sent to bit [8*j + 7 - k]. *)
Definition A_inv : list Z :=
  [ 0x0b310a5ee9366edc; 0x166214bccf6cdca5; 0x2cc4286583d8a557; 0x589550ca1bad57ae;
    0xb037a0893647ae41; 0x7d6e5d0f6c8e4182; 0xfadcba1ed8018219; 0xe9a5693cad021932;
    0xb1f7a512cbd1d949; 0x7ff357248bbfaf92; 0xfefbae480b634339; 0xe1eb419016c68672;
    0xdfcb823d2c9111e4; 0xa38b197a583f22d5; 0x5b0b32f4b07e44b7; 0xb61664f57dfc8873;
    0xa818a3a3de6f7832; 0x4d305b5ba1def064; 0x9a60b6b65fa1fdc8; 0x29c07171be5fe78d;
    0x529de2e261bed307; 0xa427d9d9c261bb0e; 0x554eafaf99c26b1c; 0xaa9c43432f99d638;
    0x514e56ef116d2570; 0xa29cacc322da4ae0; 0x5925459b44a994dd; 0xb24a8a2b884f35a7;
    0x799409560d9e6a53; 0xf23512ac1a21d4a6; 0xf96a24453442b551; 0xefd4488a688477a2;
    0xadf8e37fffd51398; 0x47eddbfee3b7262d; 0x8ec7abe1db734c5a; 0x01934bdfabe698b4;
    0x023b96a34bd12d75; 0x0476315b96bf5aea; 0x08ec62b63163b4c9; 0x10c5c47162c6758f;
    0xd07f27f6143f0791; 0xbdfe4ef1287e0e3f; 0x67e19cff50fc1c7e; 0xcedf25e3a0e538fc;
    0x81a34adb5dd770e5; 0x1f5b94abbab3e0d7; 0x3eb6354b697bddb3; 0x7c716a96d2f6a77b;
    0x9799f1297c01f2ab; 0x332fff52f802f94b; 0x665ee3a4ed04ef96; 0xccbcdb55c708c331;
    0x8565abaa93109b62; 0x17ca4b493b202bc4; 0x2e89969276405695; 0x5c0f3139ec80ac37;
    0xec0b52c320d9b3ff; 0xc516a49b40af7be3; 0x972c552b8043f6db; 0x3358aa561d86f1ab;
    0x66b049ac3a11ff4b; 0xcc7d92457422e396; 0x85fa398ae844db31; 0x17e97209cd88ab62 ].

Definition L_inv (w : Z) : Z :=
  fold_left
    (fun acc t => if Z.testbit w (Z.of_nat t) then Z.lxor acc (table_at A_inv t) else acc)
    (seq 0 64) 0.

(** The substituted byte of row [j] recovered from an output word. *)
Definition column_byte (j : nat) (w : Z) : Z :=
  Z.land (Z.shiftr (L_inv w) (8 * Z.of_nat j)) 0xFF.

(** The index at which a byte occurs in [sbox_]. *)
Definition sbox_inv (y : Z) : Z :=
  match List.find (fun n => table_at sbox_ n =? y) (seq 0 256) with
  | Some n => Z.of_nat n
  | None => 0
  end.

End Gost3411_Inverse.

From Stdlib Require String Ascii.

Module Gost3410_Registry.
Import Gost3410.
Import Ascii String.

(** [BN_hex2bn]: an optional minus sign, then hexadecimal digits up to
    the first character that is not one. *)
Definition hex_digit (c : ascii) : option Z :=
  let n := Z.of_nat (nat_of_ascii c) in
  if (48 <=? n) && (n <=? 57) then Some (n - 48)
  else if (65 <=? n) && (n <=? 70) then Some (n - 55)
  else if (97 <=? n) && (n <=? 102) then Some (n - 87)
  else None.

Fixpoint hex_value (s : string) (acc : Z) : Z :=
  match s with
  | EmptyString => acc
  | String c rest =>
      match hex_digit c with
      | Some d => hex_value rest (16 * acc + d)
      | None => acc
      end
  end.

Definition BN_hex2bn (s : string) : Z :=
  match s with
  | String "-"%char rest => - hex_value rest 0
  | _ => hex_value s 0
  end.

(** [BN_num_bytes (a)] is [(BN_num_bits (a) + 7) / 8]. *)
Definition BN_num_bytes (a : Z) : Z :=
  if a =? 0 then 0 else (Z.log2 (Z.abs a) + 1 + 7) / 8.

(** A [GOSTR3410Curve] object: its key length and the numbers its
    [EC_GROUP] is built from (curve a, b, p; generator x, y of order q). *)
Record GOSTR3410Curve : Type := mkCurve {
  m_KeyLen : Z;
  curve_a : Z;
  curve_b : Z;
  curve_p : Z;
  curve_q : Z;
  curve_x : Z;
  curve_y : Z
}.

Definition GOSTR3410Curve_new (a b p q x y : Z) : GOSTR3410Curve :=
  {| m_KeyLen := BN_num_bytes p;
     curve_a := a; curve_b := b; curve_p := p; curve_q := q;
     curve_x := x; curve_y := y |}.

(** Modelled from the spec: the enumeration [GOSTR3410ParamSet] is
    declared in Gost.h, which is not among the sources; the specification
    says exactly two identifiers are defined.  They are listed in the
    order of the rows of the table below, named after the comments on
    those rows. *)
Inductive GOSTR3410ParamSet : Type :=
  | eGOSTR3410CryptoProA
  | eGOSTR3410TC26A512.

Definition eGOSTR3410NumParamSets : nat := 2.

Definition param_index (paramSet : GOSTR3410ParamSet) : nat :=
  match paramSet with
  | eGOSTR3410CryptoProA => 0
  | eGOSTR3410TC26A512 => 1
  end.

(** The table [params] of [CreateGOSTR3410Curve]: a, b, p, q, x, y. *)
Definition params : list (list string) :=
  [ [ "FFFFFFFFFFFFFFFFFFFFFFFFFFFFFFFFFFFFFFFFFFFFFFFFFFFFFFFFFFFFFD94"%string;
      "A6"%string;
      "FFFFFFFFFFFFFFFFFFFFFFFFFFFFFFFFFFFFFFFFFFFFFFFFFFFFFFFFFFFFFD97"%string;
      "FFFFFFFFFFFFFFFFFFFFFFFFFFFFFFFF6C611070995AD10045841B09B761B893"%string;
      "1"%string;
      "8D91E471E0989CDA27DF505A453F2B7635294F2DDF23E3B122ACC99C9E9F1E14"%string ];
    [ "FFFFFFFFFFFFFFFFFFFFFFFFFFFFFFFFFFFFFFFFFFFFFFFFFFFFFFFFFFFFFFFFFFFFFFFFFFFFFFFFFFFFFFFFFFFFFFFFFFFFFFFFFFFFFFFFFFFFFFFFFFFFFDC4"%string;
      "E8C2505DEDFC86DDC1BD0B2B6667F1DA34B82574761CB0E879BD081CFD0B6265EE3CB090F30D27614CB4574010DA90DD862EF9D4EBEE4761503190785A71C760"%string;
      "FFFFFFFFFFFFFFFFFFFFFFFFFFFFFFFFFFFFFFFFFFFFFFFFFFFFFFFFFFFFFFFFFFFFFFFFFFFFFFFFFFFFFFFFFFFFFFFFFFFFFFFFFFFFFFFFFFFFFFFFFFFFFDC7"%string;
      "FFFFFFFFFFFFFFFFFFFFFFFFFFFFFFFFFFFFFFFFFFFFFFFFFFFFFFFFFFFFFFFF27E69532F48D89116FF22B8D4E0560609B4B38ABFAD2B85DCACDB1411F10B275"%string;
      "3"%string;
      "7503CFE87A836AE3A61B8816E25450E6CE5E1C93ACF1ABC1778064FDCBEFA921DF1626BE4FD036E93D75E6A50E3A41E98028FE5FC235F5B889A589CB5215F2A4"%string ] ].

Definition param (paramSet : GOSTR3410ParamSet) (j : nat) : string :=
  nth j (nth (param_index paramSet) params []) EmptyString.

Definition CreateGOSTR3410Curve (paramSet : GOSTR3410ParamSet) : GOSTR3410Curve :=
  let a := BN_hex2bn (param paramSet 0) in
  let b := BN_hex2bn (param paramSet 1) in
  let p := BN_hex2bn (param paramSet 2) in
  let q := BN_hex2bn (param paramSet 3) in
  let x := BN_hex2bn (param paramSet 4) in
  let y := BN_hex2bn (param paramSet 5) in
  GOSTR3410Curve_new a b p q x y.

(** [g_GOSTR3410Curves]: an array of [eGOSTR3410NumParamSets] owning
    pointers, [None] for a null one. *)
Definition slot (g : list (option GOSTR3410Curve)) (paramSet : GOSTR3410ParamSet)
  : option GOSTR3410Curve :=
  default None (g !! param_index paramSet).

(** [GetGOSTR3410Curve (paramSet)]: the array afterwards and the entry
    returned. *)
Definition GetGOSTR3410Curve (paramSet : GOSTR3410ParamSet)
    (g : list (option GOSTR3410Curve))
  : list (option GOSTR3410Curve) * option GOSTR3410Curve :=
  let g :=
    match slot g paramSet with
    | None =>
        let c := CreateGOSTR3410Curve paramSet in
        match slot g paramSet with
        | None => <[param_index paramSet := Some c]> g
        | Some _ => g
        end
    | Some _ => g
    end in
  (g, slot g paramSet).

End Gost3410_Registry.

(** ** Part III.  Properties of the hash *)

Module Gost3411_Theory.
Import Gost3411.

(** *** Bytes and the two XOR operators *)

Lemma lxor_mod_256 x y : Z.lxor x y mod 256 = Z.lxor (x mod 256) (y mod 256).
Proof.
  change 256 with (2 ^ 8).
  rewrite <- !Z.land_ones by lia.
  apply Z.bits_inj'; intros n Hn.
  rewrite !Z.lxor_spec, !Z.land_spec, Z.lxor_spec.
  destruct (Z.testbit (Z.ones 8) n); rewrite ?andb_true_r, ?andb_false_r; reflexivity.
Qed.

Lemma lxor_div_256 x y : Z.lxor x y / 256 = Z.lxor (x / 256) (y / 256).
Proof.
  change 256 with (2 ^ 8).
  rewrite <- !Z.shiftr_div_pow2 by lia.
  apply Z.shiftr_lxor.
Qed.

Lemma is_byte_lxor x y : is_byte x -> is_byte y -> is_byte (Z.lxor x y).
Proof.
  unfold is_byte; intros Hx Hy.
  assert (Hm : Z.lxor x y mod 256 = Z.lxor x y).
  { rewrite lxor_mod_256, !Z.mod_small by lia; reflexivity. }
  rewrite <- Hm. apply Z.mod_pos_bound; lia.
Qed.

Lemma is_byte_land_FF x : is_byte (Z.land x 0xFF).
Proof.
  unfold is_byte. change 0xFF with (Z.ones 8).
  rewrite Z.land_ones by lia. apply Z.mod_pos_bound; lia.
Qed.

Lemma is_byte_byte_at b i : bytes b -> is_byte (byte_at b i).
Proof.
  intros Hb. unfold byte_at.
  destruct (nth_in_or_default i b 0) as [Hin | ->]; [| unfold is_byte; lia].
  unfold bytes in Hb. rewrite Forall_forall in Hb. apply Hb.
  apply list_elem_of_In, Hin.
Qed.

Lemma low_byte x w : 0 <= x < 256 -> (x + 256 * w) mod 256 = x.
Proof. intros Hx. symmetry. apply Z.mod_unique with w; lia. Qed.

Lemma high_part x w : 0 <= x < 256 -> (x + 256 * w) / 256 = w.
Proof. intros Hx. symmetry. apply Z.div_unique with x; lia. Qed.

(** Reading the words of a union and writing them back is the identity
    on the XOR of the bytes. *)
Lemma le_bytes_lxor_le_word (xs ys : list Z) :
  length xs = length ys -> bytes xs -> bytes ys ->
  le_bytes (length xs) (Z.lxor (le_word xs) (le_word ys)) = zip_with Z.lxor xs ys.
Proof.
  revert ys; induction xs as [| x xs IH]; intros [| y ys] Hlen Hx Hy;
    simpl in Hlen; try discriminate; [reflexivity |].
  apply Forall_cons in Hx as [Hx Hxs]. apply Forall_cons in Hy as [Hy Hys].
  unfold is_byte in Hx, Hy.
  cbn [length le_bytes le_word zip_with].
  rewrite lxor_mod_256, lxor_div_256.
  rewrite !low_byte, !high_part by assumption.
  f_equal. apply IH; [lia | assumption | assumption].
Qed.

Lemma bytes_window b (f : nat -> nat) (ix : list nat) :
  bytes b -> bytes (map (fun t => byte_at b (f t)) ix).
Proof.
  intros Hb. unfold bytes. apply Forall_forall. intros x Hx.
  apply list_elem_of_In, in_map_iff in Hx as (t & <- & _).
  apply is_byte_byte_at, Hb.
Qed.

Lemma xor_ll_word a b i :
  bytes a -> bytes b ->
  le_bytes 8 (Z.lxor (ll_at a i) (ll_at b i)) =
  map (fun t => Z.lxor (byte_at a (8 * i + t)) (byte_at b (8 * i + t))) (seq 0 8).
Proof.
  intros Ha Hb. unfold ll_at.
  pose proof (le_bytes_lxor_le_word
                (map (fun t => byte_at a (8 * i + t)) (seq 0 8))
                (map (fun t => byte_at b (8 * i + t)) (seq 0 8))) as H.
  rewrite !length_map, length_seq in H.
  rewrite H; [reflexivity | reflexivity | |]; apply bytes_window; assumption.
Qed.

Lemma xor_ll_spec_xor a b : bytes a -> bytes b -> xor_ll a b = spec_xor a b.
Proof.
  intros Ha Hb. unfold xor_ll, spec_xor.
  cbn [seq map concat].
  rewrite !xor_ll_word by assumption.
  reflexivity.
Qed.

Lemma xor_buf_spec_xor a b : xor_buf a b = spec_xor a b.
Proof. reflexivity. Qed.

Lemma bytes_spec_xor a b : bytes a -> bytes b -> bytes (spec_xor a b).
Proof.
  intros Ha Hb. unfold spec_xor, bytes. apply Forall_forall. intros x Hx.
  apply list_elem_of_In, in_map_iff in Hx as (t & <- & _).
  apply is_byte_lxor; apply is_byte_byte_at; assumption.
Qed.

Lemma bytes_be_bytes c : bytes (be_bytes c).
Proof.
  unfold be_bytes, bytes. apply Forall_forall. intros x Hx.
  apply list_elem_of_In, in_map_iff in Hx as (t & <- & _).
  apply is_byte_land_FF.
Qed.

Lemma bytes_SPL b : bytes (SPL b).
Proof.
  unfold SPL, bytes. apply Forall_forall. intros x Hx.
  apply list_elem_of_In, in_concat in Hx as (l & Hl & Hx).
  apply in_map_iff in Hl as (i & <- & _).
  pose proof (bytes_be_bytes (SPL_word b i)) as Hb.
  unfold bytes in Hb. rewrite Forall_forall in Hb. apply Hb, list_elem_of_In, Hx.
Qed.

Lemma bytes_replicate n x : is_byte x -> bytes (replicate n x).
Proof. intros Hx. induction n; constructor; assumption. Qed.

Lemma bytes_C_ i : bytes (nth i C_ []).
Proof.
  do 12 (destruct i as [| i]; [unfold bytes, is_byte; repeat constructor; cbv; congruence |]).
  destruct i; constructor.
Qed.

(** *** The compression step refines its specification *)

Lemma E_rounds_spec K0 M n :
  bytes K0 -> bytes M ->
  exists k res,
    fold_left E_round (seq 0 n) (K0, xor_ll K0 M) = (k, res) /\
    spec_E_rounds n K0 M = (res, k) /\ bytes k /\ bytes res.
Proof.
  intros HK HM. induction n as [| n (k & res & Hfold & Hspec & Hk & Hres)].
  - exists K0, (xor_ll K0 M). cbn [seq fold_left spec_E_rounds].
    rewrite xor_ll_spec_xor by assumption.
    split; [reflexivity |]. split; [reflexivity |].
    split; [assumption | apply bytes_spec_xor; assumption].
  - rewrite seq_S, fold_left_app, Hfold. cbn [fold_left plus E_round spec_E_rounds].
    rewrite Hspec. rewrite Nat.add_0_l, xor_buf_spec_xor.
    eexists _, _. split; [reflexivity |].
    rewrite xor_ll_spec_xor by apply bytes_SPL.
    split; [reflexivity |].
    split; [apply bytes_SPL | apply bytes_spec_xor; apply bytes_SPL].
Qed.

Lemma E_spec_E K0 M : bytes K0 -> bytes M -> E K0 M = spec_E K0 M /\ bytes (E K0 M).
Proof.
  intros HK HM.
  destruct (E_rounds_spec K0 M 12 HK HM) as (k & res & Hfold & Hspec & Hk & Hres).
  unfold E, spec_E. cbv zeta. rewrite Hfold, Hspec. split; [reflexivity | exact Hres].
Qed.

(** C8.  For byte blocks N, h and m the compression step [gN] of the
    source returns E(SPL(N xor h), m) xor h xor m, where E starts from
    state = K0 xor M and key = K0 and runs the twelve rounds
    state = SPL(state); key = SPL(key xor C[i]); state = key xor state. *)
Theorem gN_refines_spec_g N h m :
  bytes N -> bytes h -> bytes m -> gN N h m = spec_g N h m.
Proof.
  intros HN Hh Hm. unfold gN, spec_g. cbv zeta.
  rewrite (xor_ll_spec_xor N h) by assumption.
  destruct (E_spec_E (SPL (spec_xor N h)) m (bytes_SPL _) Hm) as [HE HEb].
  rewrite (xor_ll_spec_xor _ h) by assumption.
  rewrite xor_ll_spec_xor; [| apply bytes_spec_xor; assumption | assumption].
  rewrite HE. reflexivity.
Qed.

Lemma gN_refines_spec_g_witness :
  bytes (replicate 64 0) /\ bytes (replicate 64 1) /\ bytes (nth 0 C_ []) /\
  gN (replicate 64 0) (replicate 64 1) (nth 0 C_ []) =
  spec_g (replicate 64 0) (replicate 64 1) (nth 0 C_ []).
Proof.
  assert (H0 : bytes (replicate 64 0)) by (apply bytes_replicate; unfold is_byte; lia).
  assert (H1 : bytes (replicate 64 1)) by (apply bytes_replicate; unfold is_byte; lia).
  split; [exact H0 |]. split; [exact H1 |]. split; [apply bytes_C_ |].
  apply (gN_refines_spec_g _ _ _ H0 H1 (bytes_C_ 0)).
Defined.

(** *** Array stores *)

Lemma byte_at_lookup (b : list Z) i : (i < length b)%nat -> b !! i = Some (byte_at b i).
Proof.
  intros Hi. unfold byte_at. rewrite nth_lookup.
  destruct (lookup_lt_is_Some_2 b i Hi) as [x ->]. reflexivity.
Qed.

Lemma store_loop_lookup (g : nat -> Z) (off : nat) n a (m : list Z) j :
  fold_left (fun m i => <[(off + i)%nat := g i]> m) (seq a n) m !! j =
  if decide ((off + a <= j < off + a + n)%nat /\ (j < length m)%nat)
  then Some (g (j - off)%nat) else m !! j.
Proof.
  revert a m. induction n as [| n IH]; intros a m; cbn [seq fold_left].
  - case_decide; [lia | reflexivity].
  - rewrite IH, length_insert.
    destruct (decide (j = (off + a)%nat)) as [-> | Hne].
    + repeat case_decide; try lia.
      * rewrite list_lookup_insert_eq by lia. f_equal. f_equal. lia.
      * rewrite list_insert_ge by lia. reflexivity.
    + rewrite list_lookup_insert_ne by lia.
      repeat case_decide; try lia; reflexivity.
Qed.

Lemma store_inverted_head (m buf : list Z) cnt :
  (cnt <= length m)%nat -> (cnt <= length buf)%nat ->
  store_inverted m 0 buf cnt = reverse (take cnt buf) ++ drop cnt m.
Proof.
  intros Hm Hb. apply list_eq; intros j. unfold store_inverted.
  rewrite (store_loop_lookup (fun i => byte_at buf (cnt - i - 1)) 0 cnt 0 m j).
  rewrite lookup_app.
  case_decide as Hj.
  - rewrite reverse_lookup by (rewrite length_take; lia).
    rewrite length_take, Nat.min_l by lia.
    rewrite lookup_take_lt by lia.
    rewrite byte_at_lookup by lia. f_equal. f_equal. lia.
  - assert (Hlen : length (reverse (take cnt buf)) = cnt)
      by (rewrite length_reverse, length_take; lia).
    destruct (decide (j < length m)%nat) as [Hlt | Hge].
    + rewrite (lookup_ge_None_2 (reverse (take cnt buf)) j) by lia.
      rewrite lookup_drop, Hlen. f_equal. lia.
    + rewrite (lookup_ge_None_2 (reverse (take cnt buf)) j) by lia.
      rewrite lookup_drop, Hlen.
      rewrite (lookup_ge_None_2 m j) by lia.
      symmetry. apply lookup_ge_None_2. lia.
Qed.

Lemma store_inverted_block (m buf : list Z) :
  length m = 64%nat -> (64 <= length buf)%nat ->
  store_inverted m 0 buf 64 = reverse (take 64 buf).
Proof.
  intros Hm Hb. rewrite store_inverted_head by lia.
  rewrite drop_ge by lia. apply app_nil_r.
Qed.

Lemma length_store_loop (g : nat -> Z) (off : nat) (ix : list nat) (m : list Z) :
  length (fold_left (fun m i => <[(off + i)%nat := g i]> m) ix m) = length m.
Proof.
  revert m. induction ix as [| i ix IH]; intros m; cbn [fold_left]; [reflexivity |].
  rewrite IH. apply length_insert.
Qed.

Lemma length_store_inverted m off buf cnt :
  length (store_inverted m off buf cnt) = length m.
Proof. apply length_store_loop. Qed.

Lemma memcpy_block (m src : list Z) :
  length m = 64%nat -> (64 <= length src)%nat -> memcpy m 0 src 64 = take 64 src.
Proof.
  intros Hm Hs. unfold memcpy.
  rewrite <- (app_nil_r (take 64 src)) at 1.
  apply list_inserts_0_l. rewrite length_take. lia.
Qed.

(** The padding stores build [padded], whatever the array held before. *)
Lemma pad_block_padded (m src : list Z) l :
  length m = 64%nat -> (l < 64)%nat -> (l <= length src)%nat ->
  pad_block m src l = padded (take l src).
Proof.
  intros Hm Hl Hs. unfold pad_block, padded, memcpy, memset.
  assert (Hlen : length (take l src) = l) by (rewrite length_take; lia).
  rewrite Hlen.
  destruct (Nat.eqb_spec (64 - l) 0) as [H0 | _]; [lia |].
  replace (64 - l - 1)%nat with (63 - l)%nat by lia.
  apply list_eq; intros j.
  destruct (decide (j < 63 - l)%nat) as [H1 | H1].
  - rewrite list_lookup_inserts_lt by lia.
    rewrite list_lookup_insert_ne by lia.
    rewrite list_lookup_inserts by (rewrite ?length_replicate; lia).
    rewrite lookup_app_l by (rewrite length_replicate; lia).
    f_equal. lia.
  - destruct (decide (j = 63 - l)%nat) as [-> | H2].
    + rewrite list_lookup_inserts_lt by lia.
      rewrite list_lookup_insert_eq by (rewrite length_inserts; lia).
      rewrite lookup_app_r by (rewrite length_replicate; lia).
      rewrite length_replicate, Nat.sub_diag. reflexivity.
    + rewrite lookup_app_r by (rewrite length_replicate; lia).
      rewrite length_replicate.
      destruct (decide (j < 64)%nat) as [H3 | H3].
      * rewrite list_lookup_inserts
          by (rewrite ?length_insert, ?length_inserts, ?Hlen; lia).
        replace (j - (63 - l))%nat with (S (j - (64 - l)))%nat by lia.
        reflexivity.
      * rewrite list_lookup_inserts_ge by (rewrite Hlen; lia).
        rewrite list_lookup_insert_ne by lia.
        rewrite list_lookup_inserts_ge by (rewrite length_replicate; lia).
        rewrite lookup_ge_None_2 by lia.
        symmetry. apply lookup_ge_None_2. cbn [length app]. rewrite Hlen. lia.
Qed.

Lemma length_padded tail : (length tail < 64)%nat -> length (padded tail) = 64%nat.
Proof.
  intros H. unfold padded. rewrite !length_app, length_replicate. cbn [length]. lia.
Qed.

(** *** The two loops against [absorb] *)

Lemma length_xor_ll a b : length (xor_ll a b) = 64%nat.
Proof. reflexivity. Qed.

Lemma length_gN N h m : length (gN N h m) = 64%nat.
Proof. unfold gN. apply length_xor_ll. Qed.

Lemma length_finalize hNs m l : length (finalize hNs m l) = 64%nat.
Proof. destruct hNs as [[h N] s]. unfold finalize. apply length_gN. Qed.

Lemma ctx_hNs_fold_block ctx m len :
  ctx_hNs (ctx_fold_block ctx m len) = fold_block (ctx_hNs ctx) m.
Proof. reflexivity. Qed.

(** [absorb] reads the first [64 * k] bytes only. *)
Lemma absorb_app k (A B : list Z) hNs :
  length A = (64 * k)%nat -> absorb k (A ++ B) hNs = absorb k A hNs.
Proof.
  revert A hNs. induction k as [| k IH]; intros A hNs HA; [reflexivity |].
  cbn [absorb].
  rewrite take_app_le, drop_app_le by lia.
  apply IH. rewrite length_drop. lia.
Qed.

Lemma absorb_plus k1 k2 (A B : list Z) hNs :
  length A = (64 * k1)%nat ->
  absorb (k1 + k2) (A ++ B) hNs = absorb k2 B (absorb k1 A hNs).
Proof.
  revert A hNs. induction k1 as [| k1 IH]; intros A hNs HA.
  - destruct A; [reflexivity | discriminate].
  - cbn [absorb Nat.add].
    rewrite take_app_le, drop_app_le by lia.
    apply IH. rewrite length_drop. lia.
Qed.

Lemma Update_loop_absorb k : forall fuel buf len ctx r,
  len = (64 * k + r)%nat -> (r < 64)%nat -> (k <= fuel)%nat ->
  (len <= length buf)%nat -> length (ctx_m ctx) = 64%nat ->
  exists ctx',
    Update_loop fuel buf len ctx = (drop (64 * k) buf, r, ctx') /\
    ctx_hNs ctx' = absorb k buf (ctx_hNs ctx) /\
    length (ctx_m ctx') = 64%nat /\
    ctx_len ctx' = ctx_len ctx /\ ctx_is512 ctx' = ctx_is512 ctx.
Proof.
  induction k as [| k IH]; intros fuel buf len ctx r Hlen Hr Hfuel Hbuf Hm.
  - exists ctx. replace len with r by lia.
    split; [| repeat split; assumption].
    destruct fuel as [| fuel]; cbn [Update_loop]; [reflexivity |].
    destruct (Nat.leb_spec 64 r); [lia | reflexivity].
  - destruct fuel as [| fuel]; [lia |]. cbn [Update_loop].
    destruct (Nat.leb_spec 64 len); [| lia].
    rewrite store_inverted_block by lia.
    destruct (IH fuel (drop 64 buf) (len - 64)%nat
                (ctx_fold_block ctx (reverse (take 64 buf)) (ctx_len ctx)) r)
      as (ctx' & Hrun & Hh & Hm' & Hl' & Hv');
      [lia | lia | lia | rewrite length_drop; lia
       | cbn [ctx_m ctx_fold_block]; rewrite length_reverse, length_take; lia |].
    exists ctx'. rewrite Hrun, drop_drop.
    split; [do 3 f_equal; lia |].
    split; [rewrite Hh, ctx_hNs_fold_block; reflexivity |].
    repeat split; assumption.
Qed.

Lemma tail_block (R : list Z) l :
  (64 <= l)%nat -> (l <= length R)%nat ->
  take 64 (drop (l - 64) R) = reverse (take 64 (reverse (take l R))) /\
  reverse (take (l - 64) R) = drop 64 (reverse (take l R)).
Proof.
  intros H64 Hl.
  assert (Hsplit : take l R = take (l - 64) R ++ take 64 (drop (l - 64) R)).
  { rewrite <- (take_drop (l - 64) (take l R)) at 1.
    rewrite take_take, Nat.min_l by lia. f_equal.
    rewrite take_drop_commute. do 2 f_equal. lia. }
  assert (Hb : length (take 64 (drop (l - 64) R)) = 64%nat)
    by (rewrite length_take, length_drop; lia).
  rewrite Hsplit, reverse_app. split.
  - rewrite take_app_length' by (rewrite length_reverse; lia).
    symmetry. apply reverse_involutive.
  - rewrite drop_app_length' by (rewrite length_reverse; lia). reflexivity.
Qed.

Lemma H_stage2_absorb k : forall fuel R l hNs m r,
  l = (64 * k + r)%nat -> (r < 64)%nat -> (k <= fuel)%nat ->
  (l <= length R)%nat -> length m = 64%nat ->
  exists m',
    H_stage2 fuel R l hNs m = (r, absorb k (reverse (take l R)) hNs, m') /\
    length m' = 64%nat.
Proof.
  induction k as [| k IH]; intros fuel R l hNs m r Hl Hr Hfuel HR Hm.
  - exists m. replace l with r by lia. split; [| assumption].
    destruct fuel as [| fuel]; cbn [H_stage2 absorb]; [reflexivity |].
    destruct (Nat.leb_spec 64 r); [lia | reflexivity].
  - destruct fuel as [| fuel]; [lia |]. cbn [H_stage2].
    destruct (Nat.leb_spec 64 l); [| lia].
    rewrite memcpy_block by (rewrite ?length_drop; lia).
    destruct (tail_block R l) as [Hblk Hrest]; [lia | lia |].
    destruct (IH fuel R (l - 64)%nat (fold_block hNs (take 64 (drop (l - 64) R)))
                (take 64 (drop (l - 64) R)) r)
      as (m' & Hrun & Hm'); [lia | lia | lia | lia | rewrite length_take, length_drop; lia |].
    exists m'. split; [| assumption].
    rewrite Hrun. cbn [absorb]. rewrite <- Hblk, <- Hrest. reflexivity.
Qed.

(** *** The one-shot path *)

Lemma H_absorb m_uninit iv buf len :
  length m_uninit = 64%nat -> (len <= length buf)%nat ->
  H m_uninit iv buf len =
  finalize
    (absorb (len / 64) (reverse (take len buf)) (take 64 iv, replicate 64 0, replicate 64 0))
    (padded (take (len mod 64) buf)) (len mod 64).
Proof.
  intros Hm Hlen. unfold H.
  pose proof (Nat.div_mod_eq len 64) as Hdm.
  pose proof (Nat.mod_upper_bound len 64 ltac:(lia)) as Hr.
  destruct (H_stage2_absorb (len / 64) len buf len
              (take 64 iv, replicate 64 0, replicate 64 0) m_uninit (len mod 64))
    as (m' & Hrun & Hm');
    [lia | lia | apply Nat.Div0.div_le_upper_bound; lia | lia | assumption |].
  cbv zeta. rewrite Hrun.
  rewrite pad_block_padded by lia.
  apply take_ge. rewrite length_finalize. lia.
Qed.

(** *** The streaming path, block-aligned *)

Lemma emit_inverted_reverse (h : list Z) sz :
  (sz <= length h)%nat -> emit_inverted h sz = reverse (take sz h).
Proof.
  intros Hsz. apply list_eq; intros j. unfold emit_inverted.
  rewrite list_lookup_fmap.
  destruct (decide (j < sz)%nat) as [Hj | Hj].
  - rewrite lookup_seq_lt by lia. cbn [fmap option_fmap option_map].
    rewrite reverse_lookup by (rewrite length_take; lia).
    rewrite length_take, Nat.min_l by lia.
    rewrite lookup_take_lt by lia.
    rewrite byte_at_lookup by lia. do 2 f_equal. lia.
  - rewrite lookup_seq_ge by lia. cbn [fmap option_fmap option_map].
    symmetry. apply lookup_ge_None_2. rewrite length_reverse, length_take. lia.
Qed.

Lemma Finish_padded m_uninit ctx :
  length m_uninit = 64%nat -> (ctx_len ctx < 64)%nat ->
  (ctx_len ctx <= length (ctx_m ctx))%nat ->
  GOSTR3411_2012_CTX_Finish m_uninit ctx =
  emit_inverted
    (finalize (ctx_hNs ctx) (padded (take (ctx_len ctx) (ctx_m ctx))) (ctx_len ctx))
    (if ctx_is512 ctx then 64%nat else 32%nat).
Proof.
  intros Hm Hl Hc. unfold GOSTR3411_2012_CTX_Finish. cbv zeta.
  rewrite pad_block_padded by lia. reflexivity.
Qed.

Lemma Update_aligned buf ctx :
  ctx_len ctx = 0%nat -> length (ctx_m ctx) = 64%nat ->
  let ctx' := GOSTR3411_2012_CTX_Update buf (length buf) ctx in
  ctx_hNs ctx' = absorb (length buf / 64) buf (ctx_hNs ctx) /\
  ctx_len ctx' = (length buf mod 64)%nat /\
  length (ctx_m ctx') = 64%nat /\
  take (length buf mod 64) (ctx_m ctx') = reverse (drop (64 * (length buf / 64)) buf) /\
  ctx_is512 ctx' = ctx_is512 ctx.
Proof.
  intros H0 Hm. cbv zeta. unfold GOSTR3411_2012_CTX_Update.
  destruct (Nat.eqb_spec (length buf) 0) as [He | Hne].
  - rewrite He. apply nil_length_inv in He. subst buf.
    split; [reflexivity |]. split; [assumption |]. split; [assumption |].
    split; reflexivity.
  - rewrite H0. change (0 <? 0)%nat with false. cbv iota.
    pose proof (Nat.div_mod_eq (length buf) 64) as Hdm.
    pose proof (Nat.mod_upper_bound (length buf) 64 ltac:(lia)) as Hr.
    destruct (Update_loop_absorb (length buf / 64) (length buf) buf (length buf) ctx
                (length buf mod 64))
      as (ctx' & Hrun & Hh & Hm' & Hl' & Hv');
      [lia | lia | apply Nat.Div0.div_le_upper_bound; lia | lia | assumption |].
    rewrite Hrun. cbn [ctx_hNs ctx_h ctx_N ctx_s ctx_m ctx_len ctx_is512].
    split; [exact Hh |]. split; [reflexivity |].
    assert (Hd : length (drop (64 * (length buf / 64)) buf) = (length buf mod 64)%nat)
      by (rewrite length_drop; lia).
    destruct (Nat.ltb_spec 0 (length buf mod 64)) as [Hpos | Hz].
    + rewrite store_inverted_head by lia.
      rewrite (take_ge (drop _ buf)) by lia.
      split; [rewrite length_app, length_reverse, Hd, length_drop; lia |].
      split; [| assumption].
      apply take_app_length'. rewrite length_reverse. lia.
    + split; [assumption |]. split; [| assumption].
      replace (length buf mod 64)%nat with 0%nat by lia.
      rewrite drop_ge by lia. reflexivity.
Qed.

Lemma update_all_aligned (fulls : list (list Z)) : forall ctx,
  Forall (fun c => (length c mod 64)%nat = 0%nat) fulls ->
  ctx_len ctx = 0%nat -> length (ctx_m ctx) = 64%nat ->
  let ctx' := update_all fulls ctx in
  ctx_hNs ctx' = absorb (length (concat fulls) / 64) (concat fulls) (ctx_hNs ctx) /\
  (length (concat fulls) mod 64)%nat = 0%nat /\
  ctx_len ctx' = 0%nat /\ length (ctx_m ctx') = 64%nat /\
  ctx_is512 ctx' = ctx_is512 ctx.
Proof.
  induction fulls as [| c fulls IH]; intros ctx Hall H0 Hm; cbv zeta.
  - cbn. repeat split; assumption.
  - apply Forall_cons in Hall as [Hc Hall].
    destruct (Update_aligned c ctx H0 Hm) as (Hh & Hl & Hm' & _ & Hv).
    rewrite Hc in Hl.
    destruct (IH _ Hall Hl Hm') as (Hh2 & Hmod & Hl2 & Hm2 & Hv2).
    unfold update_all in *. cbn [fold_left concat].
    pose proof (Nat.div_mod_eq (length c) 64) as Hdc.
    pose proof (Nat.div_mod_eq (length (concat fulls)) 64) as Hdf.
    assert (Hk : (length (c ++ concat fulls) / 64 =
                  length c / 64 + length (concat fulls) / 64)%nat).
    { rewrite length_app.
      replace (length c + length (concat fulls))%nat
        with ((length c / 64 + length (concat fulls) / 64) * 64)%nat by lia.
      apply Nat.div_mul. lia. }
    split.
    + rewrite Hh2, Hh, Hk. symmetry. apply absorb_plus. lia.
    + split; [| split; [assumption | split; [assumption | congruence]]].
      rewrite length_app.
      replace (length c + length (concat fulls))%nat
        with ((length c / 64 + length (concat fulls) / 64) * 64)%nat by lia.
      apply Nat.Div0.mod_mul.
Qed.

(** The loop of [Update] leaves fewer than 64 bytes, so [ctx->len] stays
    below 64 in every context that [Init] and [Update] produce. *)
Lemma Update_loop_len k : forall fuel buf len ctx r,
  len = (64 * k + r)%nat -> (r < 64)%nat -> (k <= fuel)%nat ->
  snd (fst (Update_loop fuel buf len ctx)) = r.
Proof.
  induction k as [| k IH]; intros fuel buf len ctx r Hlen Hr Hfuel.
  - replace len with r by lia.
    destruct fuel as [| fuel]; cbn [Update_loop]; [reflexivity |].
    destruct (Nat.leb_spec 64 r); [lia | reflexivity].
  - destruct fuel as [| fuel]; [lia |]. cbn [Update_loop].
    destruct (Nat.leb_spec 64 len); [| lia].
    apply IH; lia.
Qed.

Lemma Update_loop_len_enough buf len ctx :
  snd (fst (Update_loop len buf len ctx)) = (len mod 64)%nat.
Proof.
  apply (Update_loop_len (len / 64)).
  - apply Nat.div_mod_eq.
  - apply Nat.mod_upper_bound. lia.
  - apply Nat.Div0.div_le_upper_bound. lia.
Qed.

Lemma Update_len_bound buf len ctx :
  (ctx_len ctx < 64)%nat ->
  (ctx_len (GOSTR3411_2012_CTX_Update buf len ctx) < 64)%nat.
Proof.
  intros Hc. unfold GOSTR3411_2012_CTX_Update.
  destruct (len =? 0)%nat; [assumption |].
  destruct (0 <? ctx_len ctx)%nat.
  - set (l := if (len <? 64 - ctx_len ctx)%nat then len else (64 - ctx_len ctx)%nat).
    set (ctx1 := ctx_fold_block _ _ _).
    pose proof (Update_loop_len_enough (drop l buf) (len - l) ctx1) as Hloop.
    destruct (Update_loop (len - l) (drop l buf) (len - l) ctx1) as [[buf' len'] ctx'].
    cbn [fst snd] in Hloop. cbn [ctx_len]. subst len'.
    apply Nat.mod_upper_bound. lia.
  - pose proof (Update_loop_len_enough buf len ctx) as Hloop.
    destruct (Update_loop len buf len ctx) as [[buf' len'] ctx'].
    cbn [fst snd] in Hloop. cbn [ctx_len]. subst len'.
    apply Nat.mod_upper_bound. lia.
Qed.

(** *** Claims about the hash *)

Lemma take_reverse_tail (l : list Z) n :
  (n <= length l)%nat -> take n (reverse l) = reverse (drop (length l - n) l).
Proof.
  intros Hn. rewrite <- (take_drop (length l - n) l) at 1.
  rewrite reverse_app. apply take_app_length'.
  rewrite length_reverse, length_drop. lia.
Qed.

Lemma Init_state ctx0 is512 :
  let ctx := GOSTR3411_2012_CTX_Init ctx0 is512 in
  ctx_hNs ctx = (take 64 (replicate 64 (if is512 then 0 else 1)),
                 replicate 64 0, replicate 64 0) /\
  ctx_len ctx = 0%nat /\ ctx_m ctx = ctx_m ctx0 /\ ctx_is512 ctx = is512.
Proof. cbv zeta. split; [reflexivity |]. split; [reflexivity |]. split; reflexivity. Qed.

(** C10.  [Update] with length 0 returns the context it was given, for
    every context and every buffer: h, N, s, the pending block, the byte
    count and the variant flag are the fields of that context. *)
Theorem Update_zero_length_is_identity (buf : list Z) (ctx : GOSTR3411_2012_CTX) :
  GOSTR3411_2012_CTX_Update buf 0 ctx = ctx.
Proof. reflexivity. Qed.

(** C9.  With [r = len mod 64] bytes left ([0 <= r < 64]), the block the
    one-shot path folds last is [63 - r] zero bytes, one 0x01 byte and the
    [r] bytes still unread at the head of the buffer; [Finish] folds
    [63 - r] zero bytes, one 0x01 byte and the [r = ctx->len] pending
    bytes of the context.  Neither depends on what the local array held
    before the stores. *)
Theorem padding_rule (m_uninit : GOST3411Block) :
  length m_uninit = 64%nat ->
  (forall iv buf len, (len <= length buf)%nat ->
     let r := (len mod 64)%nat in
     H m_uninit iv buf len =
     finalize
       (absorb (len / 64) (reverse (take len buf))
          (take 64 iv, replicate 64 0, replicate 64 0))
       (replicate (63 - r) 0 ++ [1] ++ take r buf) r) /\
  (forall ctx, (ctx_len ctx < 64)%nat -> (ctx_len ctx <= length (ctx_m ctx))%nat ->
     let r := ctx_len ctx in
     GOSTR3411_2012_CTX_Finish m_uninit ctx =
     emit_inverted
       (finalize (ctx_hNs ctx) (replicate (63 - r) 0 ++ [1] ++ take r (ctx_m ctx)) r)
       (if ctx_is512 ctx then 64%nat else 32%nat)).
Proof.
  intros Hm. split.
  - intros iv buf len Hlen r.
    pose proof (Nat.mod_upper_bound len 64 ltac:(lia)) as Hr.
    pose proof (Nat.Div0.mod_le len 64) as Hle.
    rewrite H_absorb by assumption. unfold padded.
    rewrite length_take, Nat.min_l by (fold r; lia). reflexivity.
  - intros ctx Hl Hc r. rewrite Finish_padded by assumption. unfold padded.
    rewrite length_take, Nat.min_l by (fold r; lia). reflexivity.
Qed.

Lemma padding_rule_witness :
  length (replicate 64 7) = 64%nat /\
  GOSTR3411_2012_CTX_Finish (replicate 64 7)
    (mkCTX (replicate 64 1) (replicate 64 0) (replicate 64 0)
       ([0x63; 0x62; 0x61] ++ replicate 61 9) 3 false) =
  emit_inverted
    (finalize (replicate 64 1, replicate 64 0, replicate 64 0)
       (replicate 60 0 ++ [1] ++ [0x63; 0x62; 0x61]) 3) 32.
Proof.
  split; [reflexivity |].
  apply (proj2 (padding_rule (replicate 64 7) eq_refl)
           (mkCTX (replicate 64 1) (replicate 64 0) (replicate 64 0)
              ([0x63; 0x62; 0x61] ++ replicate 61 9) 3 false));
    cbn; lia.
Defined.

(** C1, as the source has it.  When every [Update] call but the last
    passes a whole number of 64-byte blocks, the streaming digest is the
    byte-reversal of the one-shot digest of the byte-reversed message,
    for both variants and whatever the uninitialised arrays hold.  This
    covers one call and exact 64-byte chunks. *)
Theorem stream_is_inverted_one_shot
    (ctx0 : GOSTR3411_2012_CTX) (m1 m2 : GOST3411Block) (is512 : bool)
    (fulls : list (list Z)) (last : list Z) :
  length (ctx_m ctx0) = 64%nat -> length m1 = 64%nat -> length m2 = 64%nat ->
  Forall (fun c => (length c mod 64)%nat = 0%nat) fulls ->
  stream ctx0 m1 is512 (fulls ++ [last]) =
  reverse (one_shot m2 is512 (reverse (concat fulls ++ last))).
Proof.
  intros Hc0 Hm1 Hm2 Hall. unfold stream.
  destruct (Init_state ctx0 is512) as (Hi_h & Hi_l & Hi_m & Hi_v).
  set (ctxI := GOSTR3411_2012_CTX_Init ctx0 is512) in *.
  destruct (update_all_aligned fulls ctxI Hall Hi_l ltac:(congruence))
    as (HF_h & HF_mod & HF_l & HF_m & HF_v).
  unfold update_all in *. rewrite fold_left_app. cbn [fold_left].
  set (ctxF := fold_left _ fulls ctxI) in *.
  destruct (Update_aligned last ctxF HF_l HF_m) as (HL_h & HL_l & HL_m & HL_t & HL_v).
  set (ctxL := GOSTR3411_2012_CTX_Update last (length last) ctxF) in *.
  set (F := concat fulls) in *.
  pose proof (Nat.div_mod_eq (length F) 64) as HdF.
  pose proof (Nat.div_mod_eq (length last) 64) as HdL.
  pose proof (Nat.mod_upper_bound (length last) 64 ltac:(lia)) as HrL.
  rewrite Finish_padded by lia.
  rewrite HL_l, HL_t, HL_h, HF_h, Hi_h, HL_v, HF_v, Hi_v.
  (* the one-shot side *)
  assert (Hlen : length (reverse (F ++ last)) = (length F + length last)%nat)
    by (rewrite length_reverse, length_app; reflexivity).
  assert (Hk : ((length F + length last) / 64 = length F / 64 + length last / 64)%nat).
  { replace (length F + length last)%nat
      with (length last mod 64 + (length F / 64 + length last / 64) * 64)%nat by lia.
    rewrite Nat.div_add by lia. rewrite Nat.div_small by lia. reflexivity. }
  assert (Hr : ((length F + length last) mod 64 = length last mod 64)%nat).
  { replace (length F + length last)%nat
      with (length last mod 64 + (length F / 64 + length last / 64) * 64)%nat by lia.
    rewrite Nat.Div0.mod_add. apply Nat.mod_small. lia. }
  assert (Hone : forall iv,
    H m2 iv (reverse (F ++ last)) (length (reverse (F ++ last))) =
    finalize
      (absorb (length last / 64) last
         (absorb (length F / 64) F (take 64 iv, replicate 64 0, replicate 64 0)))
      (padded (reverse (drop (64 * (length last / 64)) last)))
      (length last mod 64)).
  { intros iv. rewrite H_absorb by lia.
    rewrite Hlen, Hk, Hr.
    rewrite take_ge by lia. rewrite reverse_involutive.
    rewrite absorb_plus by lia.
    rewrite reverse_app, take_app_le by (rewrite length_reverse; lia).
    rewrite take_reverse_tail by lia.
    do 4 f_equal. lia. }
  unfold one_shot, GOSTR3411_2012_512, GOSTR3411_2012_256. cbv zeta.
  destruct is512; rewrite Hone.
  - rewrite emit_inverted_reverse by (rewrite length_finalize; lia).
    rewrite take_ge by (rewrite length_finalize; lia). reflexivity.
  - rewrite emit_inverted_reverse by (rewrite length_finalize; lia). reflexivity.
Qed.

Lemma stream_is_inverted_one_shot_witness :
  stream (mkCTX [] [] [] (replicate 64 5) 9 true) (replicate 64 6) false
    ([replicate 64 2] ++ [[3; 4]]) =
  reverse (one_shot (replicate 64 7) false (reverse (concat [replicate 64 2] ++ [3; 4]))).
Proof.
  apply (stream_is_inverted_one_shot
           (mkCTX [] [] [] (replicate 64 5) 9 true) (replicate 64 6) (replicate 64 7)
           false [replicate 64 2] [3; 4]);
    [reflexivity | reflexivity | reflexivity |].
  constructor; [reflexivity | constructor].
Defined.

(** C1 as stated fails already for one call: on the three bytes "abc"
    the streaming digest and the one-shot digest of the 512-bit variant
    differ. *)
Lemma stream_differs_from_one_shot :
  stream (mkCTX (replicate 64 0) (replicate 64 0) (replicate 64 0) (replicate 64 0) 0 false)
    (replicate 64 0) true [[0x61; 0x62; 0x63]] <>
  one_shot (replicate 64 0) true [0x61; 0x62; 0x63].
Proof.
  vm_compute. intros Heq. discriminate Heq.
Qed.

(** Feeding two bytes one at a time and feeding them in one call give
    different digests: with a carried-over byte, [Update] folds the
    pending block at once, full or not. *)
Lemma stream_depends_on_chunking :
  stream (mkCTX (replicate 64 0) (replicate 64 0) (replicate 64 0) (replicate 64 0) 0 false)
    (replicate 64 0) true [[0x61]; [0x62]] <>
  stream (mkCTX (replicate 64 0) (replicate 64 0) (replicate 64 0) (replicate 64 0) 0 false)
    (replicate 64 0) true [[0x61; 0x62]].
Proof. vm_compute. intros Heq. discriminate Heq. Qed.

(** The 512-bit digest of the first test message of the standard, with
    the message and the digest written most significant byte first. *)
Lemma GOSTR3411_2012_512_known_answer :
  GOSTR3411_2012_512 (replicate 64 0)
    [0x32; 0x31; 0x30; 0x39; 0x38; 0x37; 0x36; 0x35; 0x34; 0x33; 0x32; 0x31; 0x30;
     0x39; 0x38; 0x37; 0x36; 0x35; 0x34; 0x33; 0x32; 0x31; 0x30; 0x39; 0x38; 0x37;
     0x36; 0x35; 0x34; 0x33; 0x32; 0x31; 0x30; 0x39; 0x38; 0x37; 0x36; 0x35; 0x34;
     0x33; 0x32; 0x31; 0x30; 0x39; 0x38; 0x37; 0x36; 0x35; 0x34; 0x33; 0x32; 0x31;
     0x30; 0x39; 0x38; 0x37; 0x36; 0x35; 0x34; 0x33; 0x32; 0x31; 0x30] 63 =
    [0x48; 0x6f; 0x64; 0xc1; 0x91; 0x78; 0x79; 0x41; 0x7f; 0xef; 0x08; 0x2b; 0x33;
     0x81; 0xa4; 0xe2; 0x11; 0xc3; 0x24; 0xf0; 0x74; 0x65; 0x4c; 0x38; 0x82; 0x3a;
     0x7b; 0x76; 0xf8; 0x30; 0xad; 0x00; 0xfa; 0x1f; 0xba; 0xe4; 0x2b; 0x12; 0x85;
     0xc0; 0x35; 0x2f; 0x22; 0x75; 0x24; 0xbc; 0x9a; 0xb1; 0x62; 0x54; 0x28; 0x8d;
     0xd6; 0x86; 0x3d; 0xcc; 0xd5; 0xb9; 0xf5; 0x4a; 0x1a; 0xd0; 0x54; 0x1b].
Proof. vm_compute. reflexivity. Qed.

End Gost3411_Theory.

(** ** Part IV.  Properties of the signature engine *)

Module Gost3410_Theory.
Import Gost3410.

(** *** Big numbers *)

Lemma BN_mod_inverse_sound a n x :
  1 < n -> BN_mod_inverse a n = Some x -> (x * a) mod n = 1 /\ 0 <= x < n.
Proof.
  unfold BN_mod_inverse. intros Hn Hinv.
  destruct (Z.eqb_spec (Z.gcd a n) 1) as [Hg | Hg]; [| discriminate].
  injection Hinv as <-. split.
  - apply Z.invmod_coprime; [lia | exact Hg].
  - rewrite <- Z.mod_invmod. apply Z.mod_pos_bound. lia.
Qed.

Lemma BN_mod_inverse_zero n : 1 < n -> BN_mod_inverse 0 n = None.
Proof.
  intros Hn. unfold BN_mod_inverse.
  rewrite Z.gcd_0_l, Z.abs_eq by lia.
  destruct (Z.eqb_spec n 1); [lia | reflexivity].
Qed.

Lemma BN_mod_inverse_complete a n x :
  1 < n -> 0 <= x < n -> (x * a) mod n = 1 -> BN_mod_inverse a n = Some x.
Proof.
  intros Hn Hx Hxa. unfold BN_mod_inverse.
  assert (Hg : Z.gcd a n = 1).
  { apply Z.divide_1_r_nonneg; [apply Z.gcd_nonneg |].
    replace 1 with (x * a - n * ((x * a) / n))
      by (rewrite <- Z.mod_eq by lia; exact Hxa).
    apply Z.divide_sub_r.
    - apply Z.divide_mul_r, Z.gcd_divide_l.
    - apply Z.divide_mul_l, Z.gcd_divide_r. }
  rewrite Hg. cbn [Z.eqb]. f_equal.
  pose proof (Z.invmod_coprime a n ltac:(lia) Hg) as Hy.
  rewrite <- (Z.mod_invmod n a), <- (Z.mul_1_l (Z.invmod a n)), <- Hxa.
  rewrite Z.mul_mod_idemp_l by lia.
  rewrite <- Z.mul_assoc, (Z.mul_comm a), <- Z.mul_mod_idemp_r, Hy by lia.
  rewrite Z.mul_1_r. apply Z.mod_small. assumption.
Qed.

Lemma BN_cmp_eq a b : (BN_cmp a b =? 0) = (a =? b).
Proof.
  unfold BN_cmp. destruct (Z.compare_spec a b) as [-> | Hlt | Hgt].
  - rewrite !Z.eqb_refl. reflexivity.
  - symmetry. apply Z.eqb_neq. lia.
  - symmetry. apply Z.eqb_neq. lia.
Qed.

Lemma rem_mod_eq a n : 0 < n -> Z.rem a n mod n = a mod n.
Proof.
  intros Hn. rewrite (Z.quot_rem' a n) at 2.
  rewrite Z.add_comm, Z.mul_comm, Z.mod_add by lia. reflexivity.
Qed.

(** *** Scalar multiplication in a group *)

Section Group.
Context {m_Group : EC_GROUP} {laws : EC_GROUP_laws}.

Local Notation "X +' Y" := (EC_POINT_add X Y) (at level 50, left associativity).
Local Notation "n *' X" := (EC_scalar n X) (at level 40, left associativity).
Local Notation "-' X" := (EC_POINT_invert X) (at level 35, right associativity).
Local Abbreviation O := EC_infinity.

Lemma add_infinity_r X : X +' O = X.
Proof. rewrite EC_add_comm. apply EC_add_infinity. Qed.

Lemma add_invert_l X : -' X +' X = O.
Proof. rewrite EC_add_comm. apply EC_add_invert. Qed.

Lemma invert_unique X Y : X +' Y = O -> Y = -' X.
Proof.
  intros H.
  rewrite <- (EC_add_infinity Y), <- (add_invert_l X), <- EC_add_assoc, H.
  apply add_infinity_r.
Qed.

Lemma invert_add X Y : -' (X +' Y) = -' X +' -' Y.
Proof.
  symmetry. apply invert_unique.
  rewrite (EC_add_comm (-' X)), EC_add_assoc, <- (EC_add_assoc X Y).
  rewrite EC_add_invert, add_infinity_r. apply EC_add_invert.
Qed.

Lemma invert_infinity : -' O = O.
Proof. symmetry. apply invert_unique, EC_add_infinity. Qed.

Lemma iter_succ k X :
  Pos.iter_op EC_POINT_add (Pos.succ k) X = X +' Pos.iter_op EC_POINT_add k X.
Proof. apply Pos.iter_op_succ, EC_add_assoc. Qed.

Lemma scalar_succ n X : (n + 1) *' X = X +' n *' X.
Proof.
  destruct n as [| k | k].
  - cbn. symmetry. apply add_infinity_r.
  - change (Z.pos k + 1) with (Z.pos (k + 1)). rewrite Pos.add_1_r.
    cbn [EC_scalar]. apply iter_succ.
  - destruct (Pos.succ_pred_or k) as [-> | Hk].
    + cbn. symmetry. apply EC_add_invert.
    + rewrite <- Hk at 2. cbn [EC_scalar]. rewrite iter_succ, invert_add.
      rewrite EC_add_assoc, EC_add_invert, EC_add_infinity.
      replace (Z.neg k + 1) with (Z.neg (Pos.pred k)) by lia.
      reflexivity.
Qed.

Lemma scalar_pred n X : (n - 1) *' X = -' X +' n *' X.
Proof.
  replace n with (n - 1 + 1) at 2 by lia.
  rewrite scalar_succ, EC_add_assoc, add_invert_l, EC_add_infinity. reflexivity.
Qed.

Lemma scalar_add a b X : (a + b) *' X = a *' X +' b *' X.
Proof.
  revert a. apply Z.peano_ind.
  - cbn [Z.add EC_scalar]. symmetry. apply EC_add_infinity.
  - intros a IH. replace (Z.succ a + b) with (a + b + 1) by lia.
    replace (Z.succ a) with (a + 1) by lia.
    rewrite !scalar_succ, IH. apply EC_add_assoc.
  - intros a IH. replace (Z.pred a + b) with (a + b - 1) by lia.
    replace (Z.pred a) with (a - 1) by lia.
    rewrite !scalar_pred, IH. apply EC_add_assoc.
Qed.

Lemma scalar_infinity n : n *' O = O.
Proof.
  revert n. apply Z.peano_ind.
  - reflexivity.
  - intros n IH. replace (Z.succ n) with (n + 1) by lia.
    rewrite scalar_succ, IH. apply EC_add_infinity.
  - intros n IH. replace (Z.pred n) with (n - 1) by lia.
    rewrite scalar_pred, IH, invert_infinity. apply EC_add_infinity.
Qed.

Lemma scalar_opp n X : (- n) *' X = -' (n *' X).
Proof.
  apply invert_unique. rewrite <- scalar_add.
  replace (n + - n) with 0 by lia. reflexivity.
Qed.

Lemma scalar_mul a b X : a *' (b *' X) = (a * b) *' X.
Proof.
  revert a. apply Z.peano_ind.
  - reflexivity.
  - intros a IH. replace (Z.succ a) with (a + 1) by lia.
    rewrite scalar_succ, IH, <- scalar_add. f_equal. lia.
  - intros a IH. replace (Z.pred a) with (a - 1) by lia.
    rewrite scalar_pred, IH, <- scalar_opp, <- scalar_add. f_equal. lia.
Qed.

Lemma scalar_swap a b X : a *' (b *' X) = b *' (a *' X).
Proof. rewrite !scalar_mul. f_equal. apply Z.mul_comm. Qed.

(** Scalars act modulo any [n] that kills the point. *)
Lemma scalar_mod n k X : n *' X = O -> (k mod n) *' X = k *' X.
Proof.
  intros Hn.
  destruct (Z.eq_dec n 0) as [-> | Hnz]; [rewrite Z.mod_0_r; reflexivity |].
  rewrite (Z.div_mod k n) at 2 by assumption.
  rewrite scalar_add, (Z.mul_comm n), <- scalar_mul, Hn, scalar_infinity.
  symmetry. apply EC_add_infinity.
Qed.

Lemma scalar_congr n a b X : n *' X = O -> a mod n = b mod n -> a *' X = b *' X.
Proof.
  intros Hn Hab. rewrite <- (scalar_mod n a X Hn), <- (scalar_mod n b X Hn), Hab.
  reflexivity.
Qed.

(** *** What [Sign] returns *)

Lemma MulP_scalar n : MulP n = n *' EC_generator.
Proof. reflexivity. Qed.

Lemma order_pos : 0 < EC_order.
Proof. pose proof EC_order_gt_1. lia. Qed.

(** With a nonce whose point is finite, [r] is the x-coordinate as the
    curve returns it, below p, and [s] is reduced modulo q. *)
Lemma Sign_finite priv digest r_in k cx cy :
  EC_POINT_get_affine_coordinates_GFp (k *' EC_generator) = Some (cx, cy) ->
  Sign priv digest r_in k =
    (cx, ((cx * priv) mod EC_order + (k * digest) mod EC_order) mod EC_order) /\
  0 <= cx < EC_field.
Proof.
  intros Hxy. split.
  - unfold Sign, GetXY. cbv zeta. rewrite MulP_scalar, Hxy. reflexivity.
  - apply (EC_affine_range _ _ _ Hxy).
Qed.

Lemma Sign_s_range priv digest r_in k :
  0 <= snd (Sign priv digest r_in k) < EC_order.
Proof.
  unfold Sign. cbv zeta. destruct (GetXY (MulP k) r_in) as [ok r]. cbn [snd].
  apply Z.mod_pos_bound, order_pos.
Qed.

(** C4.  The draw of [BN_rand_range (k, q)] may be 0.  [Sign] then
    multiplies the generator by 0, [GetXY] fails on the point at infinity,
    and the signature is what the caller's [r] held together with
    [s = r * priv mod q]. *)
Theorem Sign_nonce_may_be_zero priv digest r_in :
  BN_rand_range 0 EC_order /\
  Sign priv digest r_in 0 = (r_in, (r_in * priv) mod EC_order).
Proof.
  split; [unfold BN_rand_range; pose proof order_pos; lia |].
  unfold Sign, GetXY. cbv zeta. rewrite MulP_scalar. cbn [EC_scalar].
  rewrite EC_affine_infinity.
  unfold BN_mod_add, BN_mod_mul. rewrite Z.mul_0_l, Z.mod_0_l by (pose proof order_pos; lia).
  rewrite Z.add_0_r, Z.mod_mod by (pose proof order_pos; lia). reflexivity.
Qed.

(** *** What [Verify] returns *)

(** When the inverse exists and C is a finite point, [Verify] compares
    [Cx mod q] with [r]. *)
Lemma Verify_finite pub digest r s h cx cy :
  0 <= h < EC_order -> (h * (digest mod EC_order)) mod EC_order = 1 ->
  EC_POINT_get_affine_coordinates_GFp
    (((s * h) mod EC_order) *' EC_generator +'
     (((EC_order - r) * h) mod EC_order) *' pub) = Some (cx, cy) ->
  Verify pub digest r s = (cx mod EC_order =? r).
Proof.
  intros Hh Hinv Hxy. pose proof order_pos as Hq. pose proof EC_order_gt_1 as Hq1.
  unfold Verify, GetXY, BN_mod_mul, BN_sub, BN_mod. cbv zeta.
  rewrite (BN_mod_inverse_complete (Z.rem digest EC_order) EC_order h); try assumption.
  - cbn [EC_POINT_mul]. rewrite Hxy, BN_cmp_eq.
    destruct (EC_affine_range _ _ _ Hxy) as [Hcx _].
    rewrite Z.rem_mod_nonneg by lia. reflexivity.
  - rewrite <- Z.mul_mod_idemp_r by lia. rewrite rem_mod_eq by lia. exact Hinv.
Qed.

(** When C is the point at infinity, [GetXY] fails, [x] keeps the zero
    of [BN_CTX_get], and [Verify] compares 0 with [r]. *)
Lemma Verify_infinity pub digest r s :
  (let h0 := BN_mod digest EC_order in
   let h := match BN_mod_inverse h0 EC_order with Some i => i | None => h0 end in
   ((s * h) mod EC_order) *' EC_generator +'
   (((EC_order - r) * h) mod EC_order) *' pub = O) ->
  Verify pub digest r s = (0 =? r).
Proof.
  cbv zeta. intros HC.
  unfold Verify, GetXY, BN_mod_mul, BN_sub. cbv zeta. cbn [EC_POINT_mul].
  rewrite HC, EC_affine_infinity, BN_cmp_eq. reflexivity.
Qed.

(** C5.  [Verify] accepts the pair r = 0, s = 0 for every public key and
    every digest: z1 and z2 are both 0, C is the point at infinity and
    has no x-coordinate, and the zero left in [x] is compared with r. *)
Theorem Verify_accepts_zero_signature pub digest :
  Verify pub digest 0 0 = true.
Proof.
  pose proof order_pos as Hq.
  rewrite Verify_infinity; [reflexivity |]. cbv zeta.
  rewrite Z.mul_0_l, Z.mod_0_l, Z.sub_0_r by lia.
  rewrite Z.mul_comm, Z.mod_mul by lia.
  cbn [EC_scalar]. apply EC_add_infinity.
Qed.

(** C6.  When the digest is 0 modulo q the inverse does not exist, [h]
    stays 0, C is the point at infinity, and [Verify] answers whether
    [r] is 0: it returns true for r = 0 and every s. *)
Theorem Verify_zero_digest pub digest r s :
  digest mod EC_order = 0 ->
  Verify pub digest r s = (0 =? r) /\ Verify pub digest 0 s = true.
Proof.
  intros He. pose proof order_pos as Hq. pose proof EC_order_gt_1 as Hq1.
  assert (Hrem : BN_mod digest EC_order = 0).
  { unfold BN_mod. apply Z.rem_divide; [lia |]. apply Z.mod_divide; [lia | exact He]. }
  assert (Hall : forall r', Verify pub digest r' s = (0 =? r')).
  { intros r'. apply Verify_infinity. cbv zeta.
    rewrite Hrem, BN_mod_inverse_zero by assumption.
    rewrite !Z.mul_0_r, Z.mod_0_l by lia.
    cbn [EC_scalar]. apply EC_add_infinity. }
  split; [apply Hall | rewrite Hall; reflexivity].
Qed.

(** [Verify] on a signature that [Sign] made with a nonce whose point is
    finite, for a digest invertible modulo q: the point C that [Verify]
    builds is the nonce's point again, and the answer is whether its
    x-coordinate is its own residue modulo q. *)
Lemma Verify_Sign_finite priv digest r_in k h cx cy :
  0 <= h < EC_order -> (h * (digest mod EC_order)) mod EC_order = 1 ->
  EC_POINT_get_affine_coordinates_GFp (k *' EC_generator) = Some (cx, cy) ->
  let '(r, s) := Sign priv digest r_in k in
  Verify (MulP priv) digest r s = (cx mod EC_order =? cx).
Proof.
  intros Hh Hinv Hxy. pose proof order_pos as Hq.
  destruct (Sign_finite priv digest r_in k cx cy Hxy) as [-> Hrange].
  pose proof EC_generator_order as Hord.
  assert (Hone : (h * digest) *' EC_generator = EC_generator).
  { rewrite <- (scalar_mod EC_order _ _ Hord), <- Z.mul_mod_idemp_r, Hinv by lia.
    cbn. reflexivity. }
  apply (Verify_finite _ _ _ _ h cx cy Hh Hinv).
  rewrite <- Hxy. f_equal.
  rewrite MulP_scalar, (scalar_swap _ priv), !(scalar_mod EC_order _ _ Hord).
  rewrite Z.mul_comm, <- scalar_mul.
  rewrite (scalar_mod EC_order _ _ Hord), scalar_add, !(scalar_mod EC_order _ _ Hord).
  rewrite <- scalar_add, !scalar_mul, <- scalar_add.
  replace (h * (cx * priv + k * digest) + priv * ((EC_order - cx) * h))
    with (k * (h * digest) + (h * priv) * EC_order) by ring.
  rewrite scalar_add, <- (scalar_mul (h * priv) EC_order), Hord, scalar_infinity.
  rewrite add_infinity_r, <- scalar_mul, Hone. reflexivity.
Qed.

(** With the x-coordinate below q the signature verifies. *)
Lemma Verify_Sign_reduced priv digest r_in k h cx cy :
  0 <= h < EC_order -> (h * (digest mod EC_order)) mod EC_order = 1 ->
  EC_POINT_get_affine_coordinates_GFp (k *' EC_generator) = Some (cx, cy) ->
  cx < EC_order ->
  let '(r, s) := Sign priv digest r_in k in
  Verify (MulP priv) digest r s = true.
Proof.
  intros Hh Hinv Hxy Hcx.
  pose proof (Verify_Sign_finite priv digest r_in k h cx cy Hh Hinv Hxy) as HV.
  destruct (EC_affine_range _ _ _ Hxy) as [Hcx0 _].
  destruct (Sign priv digest r_in k) as [r s]. rewrite HV.
  rewrite Z.mod_small by lia. apply Z.eqb_refl.
Qed.

(** With the x-coordinate at or above q, on any curve, it does not. *)
Lemma Verify_Sign_unreduced priv digest r_in k h cx cy :
  0 <= h < EC_order -> (h * (digest mod EC_order)) mod EC_order = 1 ->
  EC_POINT_get_affine_coordinates_GFp (k *' EC_generator) = Some (cx, cy) ->
  EC_order <= cx ->
  let '(r, s) := Sign priv digest r_in k in
  Verify (MulP priv) digest r s = false.
Proof.
  intros Hh Hinv Hxy Hcx. pose proof order_pos as Hq.
  pose proof (Verify_Sign_finite priv digest r_in k h cx cy Hh Hinv Hxy) as HV.
  destruct (Sign priv digest r_in k) as [r s]. rewrite HV.
  apply Z.eqb_neq. pose proof (Z.mod_pos_bound cx EC_order Hq). lia.
Qed.

(** *** What [RecoverPublicKey] returns *)

(** [RecoverPublicKey] returns no point exactly when no point of the
    curve has x-coordinate r (taken modulo p) and a y of the requested
    parity, which is when decompression fails.  Otherwise, when r has an
    inverse r1 modulo q and the decompressed point C has order dividing
    q, it returns r1 * (s * P - h * C) for h = digest mod q. *)
Theorem RecoverPublicKey_spec digest r s (isNegativeY : bool) :
  (RecoverPublicKey digest r s isNegativeY = None <->
   ~ exists C y,
       EC_POINT_get_affine_coordinates_GFp C = Some (r mod EC_field, y) /\
       Z.odd y = isNegativeY) /\
  (forall C r1,
     EC_POINT_set_compressed_coordinates_GFp r isNegativeY = Some C ->
     EC_order *' C = O ->
     0 <= r1 < EC_order -> (r1 * r) mod EC_order = 1 ->
     RecoverPublicKey digest r s isNegativeY =
     Some (r1 *' (s *' EC_generator +' -' ((digest mod EC_order) *' C)))).
Proof.
  pose proof order_pos as Hq. pose proof EC_order_gt_1 as Hq1.
  assert (Hbit : (if isNegativeY then true else false) = isNegativeY)
    by (destruct isNegativeY; reflexivity).
  unfold RecoverPublicKey. rewrite Hbit. split.
  - destruct (EC_POINT_set_compressed_coordinates_GFp r isNegativeY) as [C |] eqn:Hset.
    + split; [discriminate |]. intros Hno. exfalso. apply Hno.
      apply EC_compressed in Hset as [y Hy]. exists C, y. exact Hy.
    + split; [| reflexivity]. intros _ (C & y & Hy).
      assert (Hsome : EC_POINT_set_compressed_coordinates_GFp r isNegativeY = Some C)
        by (apply EC_compressed; exists y; exact Hy).
      congruence.
  - intros C r1 Hset HqC Hr1 Hinv. rewrite Hset. cbv zeta.
    rewrite (BN_mod_inverse_complete r EC_order r1) by assumption.
    cbn [EC_POINT_mul]. do 3 f_equal.
    rewrite <- scalar_opp. apply (scalar_congr EC_order); [exact HqC |].
    unfold BN_sub, BN_mod.
    rewrite <- Zminus_mod_idemp_r, rem_mod_eq by lia.
    replace (EC_order - digest mod EC_order)
      with (- (digest mod EC_order) + 1 * EC_order) by ring.
    apply Z.mod_add. lia.
Qed.

(** When r has no inverse modulo q but decompresses, [r1] stays 0 and the
    result is the point at infinity. *)
Lemma RecoverPublicKey_no_inverse digest r s (isNegativeY : bool) C :
  EC_POINT_set_compressed_coordinates_GFp r isNegativeY = Some C ->
  BN_mod_inverse r EC_order = None ->
  RecoverPublicKey digest r s isNegativeY = Some O.
Proof.
  intros Hset Hinv. unfold RecoverPublicKey.
  replace (if isNegativeY then true else false) with isNegativeY
    by (destruct isNegativeY; reflexivity).
  rewrite Hset. cbv zeta. rewrite Hinv. reflexivity.
Qed.

End Group.

(** *** The small curve is a group of order 11 *)

Module ToyFacts.
Import Toy.

Lemma coords_on_curve (X : fin 11) : on_curve (coords X) = true.
Proof.
  revert X. apply (bool_decide_eq_true_1 (forall X, on_curve (coords X) = true)).
  vm_compute. reflexivity.
Qed.

Lemma handle_coords (X : fin 11) : handle (coords X) = X.
Proof.
  revert X. apply (bool_decide_eq_true_1 (forall X, handle (coords X) = X)).
  vm_compute. reflexivity.
Qed.

Lemma in_range_17 (x : Z) : 0 <= x < 17 -> In x (map Z.of_nat (seq 0 17)).
Proof.
  intros Hx. apply in_map_iff. exists (Z.to_nat x). split; [lia |].
  apply in_seq. lia.
Qed.

(** [decompress] agrees with the table on the 17 field elements, both
    parities and the 11 points. *)
Lemma decompress_table :
  forallb (fun x => forallb (fun y_bit => forallb (decompress_agrees x y_bit) (enum (fin 11)))
                      [true; false])
    (map Z.of_nat (seq 0 17)) = true.
Proof. vm_compute. reflexivity. Qed.

Lemma decompress_mod x y_bit : decompress x y_bit = decompress (x mod p) y_bit.
Proof. unfold decompress. rewrite Z.mod_mod by (unfold p; lia). reflexivity. Qed.

Lemma decompress_spec x (y_bit : bool) (C : fin 11) :
  decompress x y_bit = Some C <->
  exists y, coords C = Some (x mod p, y) /\ Z.odd y = y_bit.
Proof.
  rewrite decompress_mod.
  assert (Hx : 0 <= x mod p < 17) by (apply Z.mod_pos_bound; unfold p; lia).
  pose proof decompress_table as Ht.
  rewrite forallb_forall in Ht. specialize (Ht _ (in_range_17 _ Hx)).
  rewrite forallb_forall in Ht.
  specialize (Ht y_bit ltac:(destruct y_bit; cbn; tauto)).
  rewrite forallb_forall in Ht.
  specialize (Ht C ltac:(apply list_elem_of_In, elem_of_enum)).
  unfold decompress_agrees in Ht. apply Bool.eqb_prop in Ht.
  split.
  - intros Hd. rewrite (bool_decide_eq_true_2 _ Hd) in Ht. symmetry in Ht.
    destruct (coords C) as [[cx cy] |]; [| discriminate].
    apply andb_true_iff in Ht as [Hcx Hcy].
    apply Z.eqb_eq in Hcx. apply Bool.eqb_prop in Hcy. subst cx.
    exists cy. split; [reflexivity | assumption].
  - intros (y & Hc & Hy). rewrite Hc in Ht.
    rewrite Z.eqb_refl, Hy, Bool.eqb_reflx in Ht. cbn in Ht.
    apply bool_decide_eq_true_1 in Ht. exact Ht.
Qed.

#[export] Instance laws : @EC_GROUP_laws group.
Proof.
  split.
  - apply (bool_decide_eq_true_1
             (forall X Y Z : fin 11,
                handle (affine_add (coords X) (coords (handle (affine_add (coords Y) (coords Z))))) =
                handle (affine_add (coords (handle (affine_add (coords X) (coords Y)))) (coords Z)))).
    vm_compute. reflexivity.
  - apply (bool_decide_eq_true_1
             (forall X Y : fin 11,
                handle (affine_add (coords X) (coords Y)) =
                handle (affine_add (coords Y) (coords X)))).
    vm_compute. reflexivity.
  - apply (bool_decide_eq_true_1
             (forall X : fin 11, handle (affine_add (coords 0%fin) (coords X)) = X)).
    vm_compute. reflexivity.
  - apply (bool_decide_eq_true_1
             (forall X : fin 11,
                handle (affine_add (coords X) (coords (handle (affine_neg (coords X))))) =
                0%fin)).
    vm_compute. reflexivity.
  - reflexivity.
  - vm_compute. reflexivity.
  - reflexivity.
  - intros X x y Hxy. pose proof (coords_on_curve X) as Hon.
    change (coords X = Some (x, y)) in Hxy. rewrite Hxy in Hon. cbn [on_curve] in Hon.
    rewrite !andb_true_iff in Hon.
    destruct Hon as [[[[H1 H2] H3] H4] _].
    change EC_field with 17. unfold p in *. lia.
  - intros x y_bit C. apply decompress_spec.
Qed.

End ToyFacts.

(** *** Concrete runs on the small curve *)

Lemma registry_q_below_p :
  CryptoProA_q < CryptoProA_p /\ tc26_2012_paramSetA_512_q < tc26_2012_paramSetA_512_p.
Proof. split; reflexivity. Qed.

(** C2.  On the curve (a = 2, b = 6, p = 17, q = 11, P = (1, 3)), with
    private key 3, digest 5 and the admissible draw k = 3, [Sign] returns
    r = 13: the x-coordinate of 3 * P, which is not below q = 11. *)
Theorem Sign_returns_unreduced_r :
  BN_rand_range 3 (@EC_order Toy.group) /\
  @Sign Toy.group 3 5 0 3 = (13, 10) /\
  ~ (13 < @EC_order Toy.group).
Proof.
  split; [unfold BN_rand_range; change (@EC_order Toy.group) with 11; lia |].
  split; [vm_compute; reflexivity | change (@EC_order Toy.group) with 11; lia].
Qed.

(** C3.  On the same curve the key pair d = 3, Q = 3 * P, the digest 5
    (invertible modulo 11) and the admissible draw k = 3 give a signature
    that [Verify] rejects. *)
Theorem Verify_rejects_unreduced_signature :
  BN_rand_range 3 (@EC_order Toy.group) /\
  BN_mod_inverse 5 (@EC_order Toy.group) = Some 9 /\
  (let '(r, s) := @Sign Toy.group 3 5 0 3 in
   @Verify Toy.group (@MulP Toy.group 3) 5 r s) = false.
Proof.
  split; [unfold BN_rand_range; change (@EC_order Toy.group) with 11; lia |].
  split; vm_compute; reflexivity.
Qed.

(** C7.  On the same curve r = 11 is the x-coordinate of the point
    (11, 4), so decompression with the even parity succeeds, but 11 has
    no inverse modulo q = 11.  [RecoverPublicKey] does not check what
    [BN_mod_inverse] returns: [r1] keeps the zero of [BN_CTX_get] and the
    function returns the point at infinity, although
    s * P - h * C = 7 * P - 5 * C is not the point at infinity and so is
    r times no point at all. *)
Theorem RecoverPublicKey_returns_infinity_without_inverse :
  @EC_POINT_set_compressed_coordinates_GFp Toy.group 11 false
    = Some (Toy.handle (Some (11, 4))) /\
  BN_mod_inverse 11 (@EC_order Toy.group) = None /\
  @EC_POINT_add Toy.group
    (@EC_scalar Toy.group 7 (@EC_generator Toy.group))
    (@EC_POINT_invert Toy.group
       (@EC_scalar Toy.group (5 mod @EC_order Toy.group) (Toy.handle (Some (11, 4)))))
    <> @EC_infinity Toy.group /\
  @RecoverPublicKey Toy.group 5 11 7 false = Some (@EC_infinity Toy.group).
Proof.
  split; [vm_compute; reflexivity |].
  split; [vm_compute; reflexivity |].
  split; [vm_compute; intros Heq; discriminate Heq | vm_compute; reflexivity].
Qed.

Lemma Sign_nonce_may_be_zero_witness :
  BN_rand_range 0 (@EC_order Toy.group) /\ @Sign Toy.group 3 5 9 0 = (9, 5).
Proof.
  exact (@Sign_nonce_may_be_zero Toy.group ToyFacts.laws 3 5 9).
Defined.

Lemma Verify_accepts_zero_signature_witness :
  @Verify Toy.group (@MulP Toy.group 3) 5 0 0 = true.
Proof.
  exact (@Verify_accepts_zero_signature Toy.group ToyFacts.laws (@MulP Toy.group 3) 5).
Defined.

Lemma Verify_zero_digest_witness :
  22 mod @EC_order Toy.group = 0 /\
  @Verify Toy.group (@MulP Toy.group 3) 22 0 7 = true.
Proof.
  split; [reflexivity |].
  exact (proj2 (@Verify_zero_digest Toy.group ToyFacts.laws (@MulP Toy.group 3) 22 0 7
                  eq_refl)).
Defined.

(** The signature (1, 8) of digest 5 under the key 3 with nonce 1:
    recovery with the parity of P's y-coordinate returns 3 * P. *)
Lemma RecoverPublicKey_spec_witness :
  @EC_POINT_set_compressed_coordinates_GFp Toy.group 1 true = Some (@EC_generator Toy.group) /\
  @EC_scalar Toy.group (@EC_order Toy.group) (@EC_generator Toy.group) = @EC_infinity Toy.group /\
  (1 * 1) mod @EC_order Toy.group = 1 /\
  @Sign Toy.group 3 5 0 1 = (1, 8) /\
  @RecoverPublicKey Toy.group 5 1 8 true = Some (@MulP Toy.group 3).
Proof.
  split; [vm_compute; reflexivity |].
  split; [vm_compute; reflexivity |].
  split; [reflexivity |].
  split; [vm_compute; reflexivity |].
  rewrite (proj2 (@RecoverPublicKey_spec Toy.group ToyFacts.laws 5 1 8 true)
             (@EC_generator Toy.group) 1);
    [vm_compute; reflexivity | vm_compute; reflexivity | vm_compute; reflexivity
     | change (@EC_order Toy.group) with 11; lia | reflexivity].
Defined.

End Gost3410_Theory.

(** ** Part V.  Further properties of the hash *)

Module Gost3411_More.
Import Gost3411 Gost3411_Values Gost3411_Theory.

(** *** Blocks as integers *)

Lemma be_fold_acc (l : list Z) (acc : Z) :
  fold_left (fun acc x => acc * 256 + x) l acc =
  acc * 256 ^ Z.of_nat (length l) + be_value l.
Proof.
  unfold be_value. revert acc. induction l as [| x l IH]; intros acc.
  - cbn. lia.
  - cbn [fold_left length]. rewrite IH, (IH (0 * 256 + x)).
    rewrite Nat2Z.inj_succ, Z.pow_succ_r by lia. ring.
Qed.

Lemma be_value_app (l1 l2 : list Z) :
  be_value (l1 ++ l2) = be_value l1 * 256 ^ Z.of_nat (length l2) + be_value l2.
Proof. unfold be_value at 1. rewrite fold_left_app. apply be_fold_acc. Qed.

Lemma be_value_snoc l x : be_value (l ++ [x]) = be_value l * 256 + x.
Proof. rewrite be_value_app. cbn. lia. Qed.

Lemma be_value_bound l : bytes l -> 0 <= be_value l < 256 ^ Z.of_nat (length l).
Proof.
  induction l as [| x l IH] using rev_ind; intros Hl.
  - cbn. lia.
  - apply Forall_app in Hl as [Hl Hx]. apply Forall_cons in Hx as [Hx _].
    unfold is_byte in Hx. specialize (IH Hl).
    rewrite be_value_snoc, length_app, Nat2Z.inj_add, Z.pow_add_r by lia.
    cbn [length]. change (256 ^ Z.of_nat 1) with 256. nia.
Qed.

(** A carry loop from index [n - 1] down to 0 over the digits [d i]:
    every step emits the low byte of carry plus digit and keeps the rest
    as the next carry. *)
Lemma carry_loop (d : nat -> Z) (step : Z * list Z -> nat -> Z * list Z)
    (Inv : Z -> Prop) :
  (forall c ret i, Inv c ->
     step (c, ret) i = ((c + d i) / 256, (c + d i) mod 256 :: ret) /\
     Inv ((c + d i) / 256)) ->
  forall n c ret, Inv c ->
  exists c' new,
    fold_left step (rev (seq 0 n)) (c, ret) = (c', new ++ ret) /\
    length new = n /\ bytes new /\ Inv c' /\
    be_value new + c' * 256 ^ Z.of_nat n = be_value (map d (seq 0 n)) + c.
Proof.
  intros Hstep. induction n as [| n IH]; intros c ret Hc.
  - exists c, []. cbn. repeat split; [constructor | assumption | lia].
  - rewrite seq_S, rev_app_distr. cbn [rev app fold_left Nat.add].
    destruct (Hstep c ret n Hc) as [-> Hc'].
    destruct (IH _ ((c + d n) mod 256 :: ret) Hc') as (c' & new & Hrun & Hlen & Hb & Hi & Hv).
    exists c', (new ++ [(c + d n) mod 256]).
    rewrite Hrun, <- app_assoc. split; [reflexivity |].
    split; [rewrite length_app; cbn; lia |].
    split; [apply Forall_app; split; [assumption | constructor; [| constructor]];
            unfold is_byte; apply Z.mod_pos_bound; lia |].
    split; [assumption |].
    rewrite map_app. cbn [map Nat.add]. rewrite !be_value_snoc.
    rewrite Nat2Z.inj_succ, Z.pow_succ_r by lia.
    pose proof (Z.div_mod (c + d n) 256 ltac:(lia)). nia.
Qed.

Lemma map_byte_at (b : list Z) : map (byte_at b) (seq 0 (length b)) = b.
Proof.
  apply list_eq; intros j. rewrite list_lookup_fmap.
  destruct (decide (j < length b)%nat) as [Hj | Hj].
  - rewrite lookup_seq_lt by lia. cbn. symmetry. apply byte_at_lookup. lia.
  - rewrite lookup_seq_ge by lia. cbn. symmetry. apply lookup_ge_None_2. lia.
Qed.

Lemma be_value_map_add (f g : nat -> Z) (ix : list nat) :
  be_value (map (fun i => f i + g i) ix) = be_value (map f ix) + be_value (map g ix).
Proof.
  induction ix as [| i ix IH] using rev_ind; [reflexivity |].
  rewrite !map_app. cbn [map]. rewrite !be_value_snoc, IH. ring.
Qed.

(** *** [operator+] and [Add] as integer arithmetic *)

Lemma pow_256_64 : 256 ^ Z.of_nat 64 = 2 ^ 512.
Proof. reflexivity. Qed.

Lemma div_256_bound x n : 0 <= x < 256 * n -> 0 <= x / 256 < n.
Proof.
  intros Hx. split; [apply Z.div_pos; lia | apply Z.div_lt_upper_bound; lia].
Qed.

Lemma plus_sound a b :
  bytes a -> bytes b -> length a = 64%nat -> length b = 64%nat ->
  length (plus a b) = 64%nat /\ bytes (plus a b) /\
  be_value (plus a b) = (be_value a + be_value b) mod 2 ^ 512.
Proof.
  intros Ha Hb Hla Hlb.
  destruct (carry_loop (fun i => byte_at a i + byte_at b i) (plus_step a b)
              (fun c => 0 <= c <= 1)) with (n := 64%nat) (c := 0) (ret := @nil Z)
    as (c' & new & Hrun & Hlen & Hnew & Hc' & Hv); [| lia |].
  - intros c ret i Hc.
    pose proof (is_byte_byte_at a i Ha) as Hai. pose proof (is_byte_byte_at b i Hb) as Hbi.
    unfold is_byte in Hai, Hbi. unfold plus_step.
    change 0xFF with (Z.ones 8). rewrite Z.land_ones, Z.shiftr_div_pow2 by lia.
    change (2 ^ 8) with 256.
    rewrite (Z.mod_small _ (2 ^ 16)) by lia.
    replace (byte_at a i + byte_at b i + c) with (c + (byte_at a i + byte_at b i)) by lia.
    pose proof (div_256_bound (c + (byte_at a i + byte_at b i)) 2 ltac:(lia)) as Hd.
    rewrite (Z.mod_small (_ / 256)) by lia.
    split; [reflexivity | lia].
  - unfold plus. rewrite Hrun, app_nil_r. cbn [snd].
    split; [assumption |]. split; [assumption |].
    rewrite be_value_map_add, <- Hla, map_byte_at, Hla, <- Hlb, map_byte_at in Hv.
    pose proof (be_value_bound new Hnew) as Hbnd. rewrite Hlen, pow_256_64 in Hbnd.
    rewrite Hlb, pow_256_64 in Hv.
    apply Z.mod_unique with c'; lia.
Qed.

Lemma Add_sound b c :
  bytes b -> length b = 64%nat ->
  length (Add b c) = 64%nat /\ bytes (Add b c) /\
  be_value (Add b c) =
    (be_value b - byte_at b 63 + (c + byte_at b 63) mod 2 ^ 32) mod 2 ^ 512.
Proof.
  intros Hb Hlb. unfold Add.
  change (rev (seq 0 64)) with (63%nat :: rev (seq 0 63)).
  cbn [fold_left].
  set (c1 := (c + byte_at b 63) mod 2 ^ 32).
  assert (Hfirst : Add_step b (c, []) 63 = (Z.shiftr c1 8, [c1 mod 2 ^ 8])) by reflexivity.
  rewrite Hfirst. clear Hfirst.
  assert (Hc1 : 0 <= c1 < 2 ^ 32) by (apply Z.mod_pos_bound; lia).
  destruct (carry_loop (byte_at b) (Add_step b)
              (fun c => 0 <= c /\ c + 255 < 2 ^ 32)) with
      (n := 63%nat) (c := Z.shiftr c1 8) (ret := [c1 mod 2 ^ 8])
    as (c' & new & Hrun & Hlen & Hnew & Hc' & Hv).
  - intros c0 ret i Hc0.
    pose proof (is_byte_byte_at b i Hb) as Hbi. unfold is_byte in Hbi.
    unfold Add_step. rewrite Z.shiftr_div_pow2 by lia. change (2 ^ 8) with 256.
    rewrite (Z.mod_small _ (2 ^ 32)) by lia.
    pose proof (div_256_bound (c0 + byte_at b i) (2 ^ 24) ltac:(lia)) as Hd.
    split; [reflexivity | lia].
  - rewrite Z.shiftr_div_pow2 by lia. change (2 ^ 8) with 256.
    pose proof (div_256_bound c1 (2 ^ 24) ltac:(lia)) as Hd. lia.
  - rewrite Hrun. cbn [snd].
    rewrite Z.shiftr_div_pow2 in Hv by lia. change (2 ^ 8) with 256 in *.
    assert (Hbyte : is_byte (c1 mod 256)) by (unfold is_byte; apply Z.mod_pos_bound; lia).
    assert (Hall : bytes (new ++ [c1 mod 256]))
      by (apply Forall_app; split; [assumption | constructor; [assumption | constructor]]).
    split; [rewrite length_app; cbn; lia |]. split; [assumption |].
    pose proof (be_value_bound _ Hall) as Hbnd.
    rewrite length_app, Hlen in Hbnd. cbn [length Nat.add] in Hbnd.
    change (63 + 1)%nat with 64%nat in Hbnd. rewrite pow_256_64 in Hbnd.
    rewrite be_value_snoc in *.
    assert (Hb64 : be_value b = be_value (map (byte_at b) (seq 0 63)) * 256 + byte_at b 63).
    { rewrite <- (map_byte_at b) at 1. rewrite Hlb.
      change (seq 0 64) with (seq 0 63 ++ [63%nat]). rewrite map_app. cbn [map].
      apply be_value_snoc. }
    pose proof (Z.div_mod c1 256 ltac:(lia)) as Hdm.
    assert (Hp : 256 ^ Z.of_nat 63 * 256 = 2 ^ 512) by reflexivity.
    apply Z.mod_unique with c'; [lia |]. nia.
Qed.

(** X1.  On 64-byte blocks [operator+] is addition modulo 2^512 of the
    integers the blocks stand for, most significant byte first, and its
    result is again a 64-byte block. *)
Theorem plus_is_addition_mod_2_512 (a b : GOST3411Block) :
  bytes a -> bytes b -> length a = 64%nat -> length b = 64%nat ->
  length (plus a b) = 64%nat /\ bytes (plus a b) /\
  be_value (plus a b) = (be_value a + be_value b) mod 2 ^ 512.
Proof. apply plus_sound. Qed.

Lemma plus_is_addition_mod_2_512_witness :
  be_value (plus (replicate 63 0 ++ [200]) (replicate 63 0 ++ [100])) =
  (be_value (replicate 63 0 ++ [200]) + be_value (replicate 63 0 ++ [100])) mod 2 ^ 512.
Proof.
  apply (plus_is_addition_mod_2_512 (replicate 63 0 ++ [200]) (replicate 63 0 ++ [100]));
    try reflexivity;
    (apply Forall_app; split; [apply bytes_replicate | constructor; [| constructor]];
     unfold is_byte; lia).
Defined.

(** X2.  [Add (c)] adds [c] to the integer of a 64-byte block, modulo
    2^512, as long as [c] plus the last byte of the block fits 32 bits;
    every increment [H] and the streaming context make (512, or eight
    times a length below 64) does. *)
Theorem Add_adds_when_no_overflow (b : GOST3411Block) (c : Z) :
  bytes b -> length b = 64%nat -> 0 <= c -> c + byte_at b 63 < 2 ^ 32 ->
  length (Add b c) = 64%nat /\ bytes (Add b c) /\
  be_value (Add b c) = (be_value b + c) mod 2 ^ 512.
Proof.
  intros Hb Hlb Hc Hfit.
  destruct (Add_sound b c Hb Hlb) as (Hl & Hby & Hv).
  split; [assumption |]. split; [assumption |].
  pose proof (is_byte_byte_at b 63 Hb) as H63. unfold is_byte in H63.
  rewrite Hv, (Z.mod_small (c + byte_at b 63)) by lia. f_equal. lia.
Qed.

Lemma Add_adds_when_no_overflow_witness :
  be_value (Add (replicate 63 0 ++ [255]) 512) =
  (be_value (replicate 63 0 ++ [255]) + 512) mod 2 ^ 512.
Proof.
  apply (Add_adds_when_no_overflow (replicate 63 0 ++ [255]) 512);
    [ apply Forall_app; split; [apply bytes_replicate | constructor; [| constructor]];
      unfold is_byte; lia
    | reflexivity | lia | vm_compute; reflexivity ].
Defined.

(** X3.  When [c] plus the last byte of the block reaches 2^32 the
    32-bit accumulator wraps in the first iteration and the carry is
    lost: the block then stands for 2^32 less than the sum. *)
Theorem Add_loses_carry_on_overflow (b : GOST3411Block) (c : Z) :
  bytes b -> length b = 64%nat -> 0 <= c < 2 ^ 32 -> 2 ^ 32 <= c + byte_at b 63 ->
  be_value (Add b c) = (be_value b + c - 2 ^ 32) mod 2 ^ 512.
Proof.
  intros Hb Hlb Hc Hover.
  destruct (Add_sound b c Hb Hlb) as (_ & _ & Hv).
  pose proof (is_byte_byte_at b 63 Hb) as H63. unfold is_byte in H63.
  rewrite Hv. f_equal.
  assert (Hm : (c + byte_at b 63) mod 2 ^ 32 = c + byte_at b 63 - 2 ^ 32).
  { symmetry. apply Z.mod_unique with 1; lia. }
  rewrite Hm. lia.
Qed.

Lemma Add_loses_carry_on_overflow_witness :
  be_value (Add (replicate 63 0 ++ [1]) 0xFFFFFFFF) = 0.
Proof.
  rewrite (Add_loses_carry_on_overflow (replicate 63 0 ++ [1]) 0xFFFFFFFF);
    [ reflexivity
    | apply Forall_app; split; [apply bytes_replicate | constructor; [| constructor]];
      unfold is_byte; lia
    | reflexivity | lia | vm_compute; discriminate ].
Defined.

(** *** The hash in terms of integers *)

Lemma length_be_digits n v : length (be_digits n v) = n.
Proof.
  revert v. induction n as [| n IH]; intros v; [reflexivity |].
  cbn [be_digits]. rewrite length_app, IH. cbn. lia.
Qed.

Lemma bytes_be_digits n v : bytes (be_digits n v).
Proof.
  revert v. induction n as [| n IH]; intros v; [constructor |].
  cbn [be_digits]. apply Forall_app. split; [apply IH |].
  constructor; [unfold is_byte; apply Z.mod_pos_bound; lia | constructor].
Qed.

Lemma be_value_be_digits n v : be_value (be_digits n v) = v mod 256 ^ Z.of_nat n.
Proof.
  revert v. induction n as [| n IH]; intros v.
  - cbn. rewrite Z.mod_1_r. reflexivity.
  - cbn [be_digits]. rewrite be_value_snoc, IH.
    rewrite Nat2Z.inj_succ, Z.pow_succ_r by lia.
    rewrite Z.rem_mul_r by lia. lia.
Qed.

Lemma be_value_inj (l1 l2 : list Z) :
  bytes l1 -> bytes l2 -> length l1 = length l2 -> be_value l1 = be_value l2 -> l1 = l2.
Proof.
  revert l2. induction l1 as [| x l1 IH] using rev_ind; intros l2 H1 H2 Hlen Hv.
  - destruct l2; [reflexivity | discriminate].
  - destruct l2 as [| y l2 _] using rev_ind;
      [rewrite length_app in Hlen; cbn in Hlen; lia |].
    apply Forall_app in H1 as [H1 Hx]. apply Forall_cons in Hx as [Hx _].
    apply Forall_app in H2 as [H2 Hy]. apply Forall_cons in Hy as [Hy _].
    unfold is_byte in Hx, Hy.
    rewrite !length_app in Hlen. cbn in Hlen.
    rewrite !be_value_snoc in Hv.
    assert (x = y /\ be_value l1 = be_value l2) as [-> Hv'] by lia.
    f_equal. apply IH; [assumption | assumption | lia | assumption].
Qed.

Lemma encode512_of_block (b : list Z) v :
  bytes b -> length b = 64%nat -> be_value b = v mod 2 ^ 512 -> b = encode512 v.
Proof.
  intros Hb Hl Hv. apply be_value_inj.
  - assumption.
  - apply bytes_be_digits.
  - rewrite Hl. symmetry. apply length_be_digits.
  - unfold encode512. rewrite be_value_be_digits, pow_256_64. assumption.
Qed.

Lemma be_value_encode512 v : be_value (encode512 v) = v mod 2 ^ 512.
Proof. unfold encode512. rewrite be_value_be_digits, pow_256_64. reflexivity. Qed.

Lemma Add_encode512 v c :
  0 <= c < 2 ^ 32 - 256 -> Add (encode512 v) c = encode512 (v + c).
Proof.
  intros Hc.
  pose proof (bytes_be_digits 64 v) as Hb. fold (encode512 v) in Hb.
  pose proof (length_be_digits 64 v) as Hl. fold (encode512 v) in Hl.
  destruct (Add_sound (encode512 v) c Hb Hl) as (HlA & HbA & HvA).
  apply encode512_of_block; [assumption | assumption |].
  pose proof (is_byte_byte_at (encode512 v) 63 Hb) as H63. unfold is_byte in H63.
  rewrite HvA, (Z.mod_small (c + _)) by lia.
  rewrite be_value_encode512.
  replace (v mod 2 ^ 512 - byte_at (encode512 v) 63 + (c + byte_at (encode512 v) 63))
    with (v mod 2 ^ 512 + c) by lia.
  apply Z.add_mod_idemp_l. lia.
Qed.

Lemma plus_encode512 m v :
  bytes m -> length m = 64%nat -> plus m (encode512 v) = encode512 (be_value m + v).
Proof.
  intros Hm Hlm.
  pose proof (bytes_be_digits 64 v) as Hb. fold (encode512 v) in Hb.
  pose proof (length_be_digits 64 v) as Hl. fold (encode512 v) in Hl.
  destruct (plus_sound m (encode512 v) Hm Hb Hlm Hl) as (HlP & HbP & HvP).
  apply encode512_of_block; [assumption | assumption |].
  rewrite HvP, be_value_encode512. apply Z.add_mod_idemp_r. lia.
Qed.

Lemma chain_app blocks1 blocks2 i h :
  chain (blocks1 ++ blocks2) i h =
  chain blocks2 (i + Z.of_nat (length blocks1)) (chain blocks1 i h).
Proof.
  revert i h. induction blocks1 as [| m rest IH]; intros i h.
  - cbn. f_equal. lia.
  - cbn [app chain length]. rewrite IH. f_equal. lia.
Qed.

Lemma sum_values_app blocks1 blocks2 :
  sum_values (blocks1 ++ blocks2) = sum_values blocks1 + sum_values blocks2.
Proof.
  unfold sum_values. induction blocks1 as [| m rest IH]; cbn [app fold_right]; lia.
Qed.

Lemma length_tail_blocks k buf l : length (tail_blocks k buf l) = k.
Proof.
  revert l. induction k as [| k IH]; intros l; [reflexivity |].
  cbn [tail_blocks length]. rewrite IH. reflexivity.
Qed.

Lemma bytes_take n (l : list Z) : bytes l -> bytes (take n l).
Proof. intros H. apply Forall_take, H. Qed.

Lemma bytes_drop n (l : list Z) : bytes l -> bytes (drop n l).
Proof. intros H. apply Forall_drop, H. Qed.

Lemma absorb_values k : forall buf l h i sigma,
  bytes buf -> (64 * k <= l)%nat -> (l <= length buf)%nat ->
  absorb k (reverse (take l buf)) (h, encode512 (512 * i), encode512 sigma) =
  (chain (tail_blocks k buf l) i h,
   encode512 (512 * (i + Z.of_nat k)),
   encode512 (sigma + sum_values (tail_blocks k buf l))).
Proof.
  induction k as [| k IH]; intros buf l h i sigma Hb Hk Hl.
  - cbn [absorb tail_blocks chain sum_values fold_right].
    rewrite !Z.add_0_r. reflexivity.
  - cbn [absorb tail_blocks chain].
    destruct (tail_block buf l) as [Hblk Hrest]; [lia | lia |].
    rewrite <- Hblk, <- Hrest. unfold fold_block.
    set (m := take 64 (drop (l - 64) buf)).
    assert (Hm : bytes m) by (apply bytes_take, bytes_drop, Hb).
    assert (Hlm : length m = 64%nat) by (unfold m; rewrite length_take, length_drop; lia).
    rewrite Add_encode512 by lia. rewrite plus_encode512 by assumption.
    replace (512 * i + 512) with (512 * (i + 1)) by lia.
    rewrite IH by (assumption || lia).
    replace (i + 1 + Z.of_nat k) with (i + Z.of_nat (S k)) by lia.
    replace (be_value m + sigma + sum_values (tail_blocks k buf (l - 64)))
      with (sigma + sum_values (m :: tail_blocks k buf (l - 64)))
      by (unfold sum_values; cbn [fold_right]; lia).
    reflexivity.
Qed.

Lemma bytes_padded tail : bytes tail -> bytes (padded tail).
Proof.
  intros Ht. unfold padded. apply Forall_app. split.
  - apply bytes_replicate. unfold is_byte. lia.
  - apply Forall_app. split; [constructor; [unfold is_byte; lia | constructor] | assumption].
Qed.

Lemma H_hash_by_values m_uninit iv buf len :
  length m_uninit = 64%nat -> bytes buf -> (len <= length buf)%nat ->
  H m_uninit iv buf len = hash_by_values iv buf len.
Proof.
  intros Hm Hb Hlen. rewrite H_absorb by assumption.
  unfold hash_by_values. cbv zeta.
  pose proof (Nat.div_mod_eq len 64) as Hdm.
  pose proof (Nat.mod_upper_bound len 64 ltac:(lia)) as Hr.
  set (k := (len / 64)%nat) in *. set (r := (len mod 64)%nat) in *.
  change (replicate 64 0) with (encode512 (512 * 0)) at 1.
  change (replicate 64 0) with (encode512 0) at 1.
  rewrite absorb_values by (assumption || lia).
  set (P := padded (take r buf)).
  assert (HP : bytes P) by (apply bytes_padded, bytes_take, Hb).
  assert (HlP : length P = 64%nat)
    by (apply length_padded; rewrite length_take; lia).
  unfold finalize.
  rewrite Add_encode512
    by (rewrite Z.mod_small; [lia | change (2 ^ 32) with 4294967296; lia]).
  rewrite plus_encode512 by assumption.
  rewrite chain_app, length_tail_blocks. cbn [chain].
  rewrite sum_values_app. unfold sum_values at 3. cbn [fold_right].
  rewrite (Z.mod_small (Z.of_nat r * 8)) by (change (2 ^ 32) with 4294967296; lia).
  replace (512 * (0 + Z.of_nat k) + Z.of_nat r * 8) with (8 * Z.of_nat len) by lia.
  replace (be_value P + (0 + sum_values (tail_blocks k buf len)))
    with (sum_values (tail_blocks k buf len) + (be_value P + 0)) by lia.
  reflexivity.
Qed.

(** X4.  On a buffer of bytes the one-shot hash is the hash over
    integers: the blocks taken from the tail of the buffer and then the
    padded rest are chained, block number i under the counter 512 * i,
    and the result is compressed with the bit length 8 * len and then
    with the sum of all these blocks, both modulo 2^512 and under a zero
    counter.  The 512-bit entry point starts from the all-zero vector, the
    256-bit one from the all-one vector and keeps the first 32 bytes. *)
Theorem one_shot_is_hash_by_values (m_uninit : GOST3411Block) (buf : list Z) (len : nat) :
  length m_uninit = 64%nat -> bytes buf -> (len <= length buf)%nat ->
  GOSTR3411_2012_512 m_uninit buf len = hash_by_values (replicate 64 0) buf len /\
  GOSTR3411_2012_256 m_uninit buf len = take 32 (hash_by_values (replicate 64 1) buf len).
Proof.
  intros Hm Hb Hlen. unfold GOSTR3411_2012_512, GOSTR3411_2012_256. cbv zeta.
  rewrite !H_hash_by_values by assumption. split; reflexivity.
Qed.

Lemma one_shot_is_hash_by_values_witness :
  GOSTR3411_2012_512 (replicate 64 9) [1; 2; 3; 4] 3 =
  hash_by_values (replicate 64 0) [1; 2; 3; 4] 3.
Proof.
  apply (one_shot_is_hash_by_values (replicate 64 9) [1; 2; 3; 4] 3);
    [reflexivity | | cbn; lia].
  repeat constructor; unfold is_byte; lia.
Defined.

(** X5.  The one-shot digest depends on the first [len] bytes of the
    buffer only: neither the bytes behind them nor the contents of the
    uninitialised local block reach it. *)
Theorem H_reads_len_bytes_only (m1 m2 : GOST3411Block) (iv buf behind : list Z) (len : nat) :
  length m1 = 64%nat -> length m2 = 64%nat -> (len <= length buf)%nat ->
  H m1 iv buf len = H m2 iv (take len buf ++ behind) len.
Proof.
  intros H1 H2 Hlen.
  assert (Hl : length (take len buf) = len) by (rewrite length_take; lia).
  pose proof (Nat.Div0.mod_le len 64) as Hr.
  rewrite (H_absorb m1) by assumption.
  rewrite (H_absorb m2) by (try assumption; rewrite length_app; lia).
  rewrite take_app_length' by (symmetry; exact Hl).
  rewrite (take_app_le (take len buf)) by lia.
  rewrite take_take, Nat.min_l by lia. reflexivity.
Qed.

Lemma H_reads_len_bytes_only_witness :
  H (replicate 64 1) (replicate 64 0) [5; 6; 7] 2 =
  H (replicate 64 2) (replicate 64 0) (take 2 [5; 6; 7] ++ [8; 9]) 2.
Proof.
  apply (H_reads_len_bytes_only (replicate 64 1) (replicate 64 2) (replicate 64 0)
           [5; 6; 7] [8; 9] 2); [reflexivity | reflexivity | cbn; lia].
Defined.

Lemma bytes_le_bytes n w : bytes (le_bytes n w).
Proof.
  revert w. induction n as [| n IH]; intros w; [constructor |].
  cbn [le_bytes]. constructor; [unfold is_byte; apply Z.mod_pos_bound; lia | apply IH].
Qed.

Lemma bytes_xor_ll a b : bytes (xor_ll a b).
Proof.
  unfold xor_ll, bytes. apply Forall_forall. intros x Hx.
  apply list_elem_of_In, in_concat in Hx as (l & Hl & Hx).
  apply in_map_iff in Hl as (i & <- & _).
  pose proof (bytes_le_bytes 8 (Z.lxor (ll_at a i) (ll_at b i))) as Hb.
  unfold bytes in Hb. rewrite Forall_forall in Hb. apply Hb, list_elem_of_In, Hx.
Qed.

Lemma bytes_finalize hNs m l : bytes (finalize hNs m l).
Proof. destruct hNs as [[h N] s]. unfold finalize, gN. apply bytes_xor_ll. Qed.

Lemma bytes_emit_inverted h sz : bytes h -> bytes (emit_inverted h sz).
Proof.
  intros Hh. unfold emit_inverted, bytes. apply Forall_forall. intros x Hx.
  apply list_elem_of_In, in_map_iff in Hx as (i & <- & _).
  apply is_byte_byte_at, Hh.
Qed.

(** *** The streaming context in general *)

Lemma Update_loop_keeps fuel : forall buf len ctx,
  let ctx' := snd (Update_loop fuel buf len ctx) in
  length (ctx_m ctx') = length (ctx_m ctx) /\
  ctx_len ctx' = ctx_len ctx /\ ctx_is512 ctx' = ctx_is512 ctx.
Proof.
  induction fuel as [| fuel IH]; intros buf len ctx; cbv zeta; cbn [Update_loop].
  - cbn. tauto.
  - destruct (64 <=? len)%nat; [| cbn; tauto].
    destruct (IH (drop 64 buf) (len - 64)%nat
                (ctx_fold_block ctx (store_inverted (ctx_m ctx) 0 buf 64) (ctx_len ctx)))
      as (Hm & Hl & Hv).
    rewrite Hm, Hl, Hv. cbn [ctx_m ctx_len ctx_is512 ctx_fold_block].
    rewrite length_store_inverted. tauto.
Qed.

Lemma Update_keeps buf len ctx :
  length (ctx_m (GOSTR3411_2012_CTX_Update buf len ctx)) = length (ctx_m ctx) /\
  ctx_is512 (GOSTR3411_2012_CTX_Update buf len ctx) = ctx_is512 ctx.
Proof.
  unfold GOSTR3411_2012_CTX_Update.
  destruct (len =? 0)%nat; [tauto |].
  destruct (0 <? ctx_len ctx)%nat.
  - set (l := if (len <? 64 - ctx_len ctx)%nat then len else (64 - ctx_len ctx)%nat).
    set (ctx1 := ctx_fold_block _ _ _).
    pose proof (Update_loop_keeps (len - l) (drop l buf) (len - l) ctx1) as Hk.
    destruct (Update_loop (len - l) (drop l buf) (len - l) ctx1) as [[buf' len'] ctx'].
    cbv zeta in Hk. cbn [snd] in Hk. destruct Hk as (Hm & _ & Hv).
    cbn [ctx_m ctx_is512]. split; [| rewrite Hv; reflexivity].
    assert (Hm1 : length (ctx_m ctx1) = length (ctx_m ctx))
      by (unfold ctx1; cbn [ctx_m ctx_fold_block]; apply length_store_inverted).
    destruct (0 <? len')%nat; [rewrite length_store_inverted |]; congruence.
  - pose proof (Update_loop_keeps len buf len ctx) as Hk.
    destruct (Update_loop len buf len ctx) as [[buf' len'] ctx'].
    cbv zeta in Hk. cbn [snd] in Hk. destruct Hk as (Hm & _ & Hv).
    cbn [ctx_m ctx_is512]. split; [| exact Hv].
    destruct (0 <? len')%nat; [rewrite length_store_inverted |]; congruence.
Qed.

(** X7.  After [Init] and any run of [Update] calls, whatever their
    buffers and lengths, the context holds fewer than 64 pending bytes,
    its block [m] is as long as it was, and its variant flag is the one
    given to [Init]. *)
Theorem context_invariant (ctx0 : GOSTR3411_2012_CTX) (is512 : bool)
    (calls : list (list Z * nat)) :
  let ctx := update_calls calls (GOSTR3411_2012_CTX_Init ctx0 is512) in
  (ctx_len ctx < 64)%nat /\ length (ctx_m ctx) = length (ctx_m ctx0) /\
  ctx_is512 ctx = is512.
Proof.
  cbv zeta. unfold update_calls.
  assert (Hgen : forall ctx,
            (ctx_len ctx < 64)%nat ->
            let ctx' := fold_left
                          (fun ctx call => GOSTR3411_2012_CTX_Update (fst call) (snd call) ctx)
                          calls ctx in
            (ctx_len ctx' < 64)%nat /\ length (ctx_m ctx') = length (ctx_m ctx) /\
            ctx_is512 ctx' = ctx_is512 ctx).
  { induction calls as [| [buf len] calls IH]; intros ctx Hl; cbv zeta.
    - cbn. tauto.
    - cbn [fold_left fst snd].
      destruct (IH _ (Update_len_bound buf len ctx Hl)) as (H1 & H2 & H3).
      destruct (Update_keeps buf len ctx) as (H4 & H5).
      split; [assumption |]. split; congruence. }
  apply (Hgen (GOSTR3411_2012_CTX_Init ctx0 is512)). cbn. lia.
Qed.

Lemma update_calls_keep (calls : list (list Z * nat)) : forall ctx,
  (ctx_len ctx < 64)%nat ->
  (ctx_len (update_calls calls ctx) < 64)%nat /\
  length (ctx_m (update_calls calls ctx)) = length (ctx_m ctx) /\
  ctx_is512 (update_calls calls ctx) = ctx_is512 ctx.
Proof.
  unfold update_calls.
  induction calls as [| [buf len] calls IH]; intros ctx Hl.
  - cbn. tauto.
  - cbn [fold_left fst snd].
    destruct (IH _ (Update_len_bound buf len ctx Hl)) as (H1 & H2 & H3).
    destruct (Update_keeps buf len ctx) as (H4 & H5).
    split; [assumption |]. split; congruence.
Qed.

(** X6.  The one-shot functions return 32 bytes (256-bit) and 64 bytes
    (512-bit).  On the streaming path the size of the digest is fixed by
    the flag given to [Init]: after [Init] on a context with a 64-byte
    block [m] and any run of [Update] calls that stay within their
    buffers, the context holds fewer than 64 pending bytes and [Finish]
    returns 64 bytes when the flag was set and 32 when it was not.
    Every element of these digests is a byte. *)
Theorem digests_are_well_formed (m_uninit : GOST3411Block) (buf : list Z) (len : nat)
    (ctx0 : GOSTR3411_2012_CTX) (is512 : bool) (calls : list (list Z * nat)) :
  length m_uninit = 64%nat -> (len <= length buf)%nat ->
  length (ctx_m ctx0) = 64%nat ->
  Forall (fun call => (snd call <= length (fst call))%nat) calls ->
  (length (GOSTR3411_2012_256 m_uninit buf len) = 32%nat /\
   bytes (GOSTR3411_2012_256 m_uninit buf len)) /\
  (length (GOSTR3411_2012_512 m_uninit buf len) = 64%nat /\
   bytes (GOSTR3411_2012_512 m_uninit buf len)) /\
  (let ctx := update_calls calls (GOSTR3411_2012_CTX_Init ctx0 is512) in
   (ctx_len ctx < 64)%nat /\ length (ctx_m ctx) = 64%nat /\
   length (GOSTR3411_2012_CTX_Finish m_uninit ctx) =
     (if is512 then 64%nat else 32%nat) /\
   bytes (GOSTR3411_2012_CTX_Finish m_uninit ctx)).
Proof.
  intros _ _ Hm0 _.
  assert (HH : forall iv, length (H m_uninit iv buf len) = 64%nat /\
                          bytes (H m_uninit iv buf len)).
  { intros iv. unfold H.
    destruct (H_stage2 len buf len _ m_uninit) as [[l hNs] m]. cbv zeta. split.
    - rewrite length_take, length_finalize. reflexivity.
    - apply bytes_take, bytes_finalize. }
  split; [| split].
  - unfold GOSTR3411_2012_256. cbv zeta. destruct (HH (replicate 64 1)) as [Hl Hb].
    split; [rewrite length_take, Hl; reflexivity | apply bytes_take, Hb].
  - apply HH.
  - cbv zeta.
    destruct (update_calls_keep calls (GOSTR3411_2012_CTX_Init ctx0 is512))
      as (Hlen & Hm & Hv); [cbn; lia |].
    cbn [GOSTR3411_2012_CTX_Init ctx_m ctx_is512] in Hm, Hv.
    split; [exact Hlen |]. split; [congruence |].
    unfold GOSTR3411_2012_CTX_Finish. cbv zeta. rewrite Hv. split.
    + unfold emit_inverted. rewrite length_map, length_seq. reflexivity.
    + apply bytes_emit_inverted, bytes_finalize.
Qed.

Lemma digests_are_well_formed_witness :
  let m0 := replicate 64 0 in
  let ctx0 := mkCTX (replicate 64 7) (replicate 64 7) (replicate 64 7) (replicate 64 7) 9 true in
  (length (GOSTR3411_2012_256 m0 [1; 2; 3] 3) = 32%nat /\
   bytes (GOSTR3411_2012_256 m0 [1; 2; 3] 3)) /\
  (length (GOSTR3411_2012_512 m0 [1; 2; 3] 3) = 64%nat /\
   bytes (GOSTR3411_2012_512 m0 [1; 2; 3] 3)) /\
  (let ctx := update_calls [([1; 2], 2%nat); ([3], 1%nat)]
                (GOSTR3411_2012_CTX_Init ctx0 false) in
   (ctx_len ctx < 64)%nat /\ length (ctx_m ctx) = 64%nat /\
   length (GOSTR3411_2012_CTX_Finish m0 ctx) = 32%nat /\
   bytes (GOSTR3411_2012_CTX_Finish m0 ctx)).
Proof.
  apply (digests_are_well_formed (replicate 64 0) [1; 2; 3] 3
           (mkCTX (replicate 64 7) (replicate 64 7) (replicate 64 7) (replicate 64 7) 9 true)
           false [([1; 2], 2%nat); ([3], 1%nat)]).
  - reflexivity.
  - cbn. lia.
  - reflexivity.
  - constructor; [cbn; lia |]. constructor; [cbn; lia |]. constructor.
Defined.

Lemma store_inverted_at (m buf : list Z) off cnt :
  (off + cnt <= length m)%nat -> (cnt <= length buf)%nat ->
  store_inverted m off buf cnt =
  take off m ++ reverse (take cnt buf) ++ drop (off + cnt) m.
Proof.
  intros Hm Hb. apply list_eq; intros j. unfold store_inverted.
  rewrite (store_loop_lookup (fun i => byte_at buf (cnt - i - 1)) off cnt 0 m j).
  assert (Hrev : length (reverse (take cnt buf)) = cnt)
    by (rewrite length_reverse, length_take; lia).
  assert (Htake : length (take off m) = off) by (rewrite length_take; lia).
  destruct (decide (j < off)%nat) as [H1 | H1].
  - rewrite decide_False by lia.
    rewrite lookup_app_l by lia. rewrite lookup_take_lt by lia. reflexivity.
  - rewrite lookup_app_r by lia. rewrite Htake.
    destruct (decide (j < off + cnt)%nat) as [H2 | H2].
    + rewrite decide_True by lia.
      rewrite lookup_app_l by lia.
      rewrite reverse_lookup by (rewrite length_take; lia).
      rewrite length_take, Nat.min_l by lia.
      rewrite lookup_take_lt by lia.
      rewrite byte_at_lookup by lia. do 2 f_equal. lia.
    + rewrite decide_False by lia.
      rewrite lookup_app_r by lia. rewrite Hrev, lookup_drop. f_equal. lia.
Qed.

(** X8.  With a partial block pending ([0 < ctx->len]) and a call that
    brings no more bytes than would fill it, [Update] folds one block at
    once (the pending bytes, then the new bytes reversed, then what [m]
    held behind them) and leaves no pending byte, also when the block
    is not yet full. *)
Theorem Update_folds_pending_block_at_once (buf : list Z) (len : nat)
    (ctx : GOSTR3411_2012_CTX) :
  (0 < ctx_len ctx)%nat -> (0 < len)%nat -> (ctx_len ctx + len <= 64)%nat ->
  (len <= length buf)%nat -> length (ctx_m ctx) = 64%nat ->
  GOSTR3411_2012_CTX_Update buf len ctx =
  ctx_fold_block ctx
    (take (ctx_len ctx) (ctx_m ctx) ++ reverse (take len buf) ++
     drop (ctx_len ctx + len) (ctx_m ctx)) 0.
Proof.
  intros Hc Hlen Hfit Hbuf Hm. unfold GOSTR3411_2012_CTX_Update.
  destruct (Nat.eqb_spec len 0) as [? | _]; [lia |].
  destruct (Nat.ltb_spec 0 (ctx_len ctx)) as [_ | ?]; [| lia].
  destruct (Nat.ltb_spec len (64 - ctx_len ctx)) as [Hlt | Hge].
  - rewrite Nat.sub_diag. cbn [Update_loop].
    change (0 <? 0)%nat with false. cbv iota.
    rewrite store_inverted_at by lia. reflexivity.
  - replace (64 - ctx_len ctx)%nat with len by lia.
    rewrite Nat.sub_diag. cbn [Update_loop].
    change (0 <? 0)%nat with false. cbv iota.
    rewrite store_inverted_at by lia. reflexivity.
Qed.

Lemma Update_folds_pending_block_at_once_witness :
  GOSTR3411_2012_CTX_Update [7; 8] 2
    (mkCTX (replicate 64 1) (replicate 64 0) (replicate 64 0) (replicate 64 5) 3 true) =
  ctx_fold_block
    (mkCTX (replicate 64 1) (replicate 64 0) (replicate 64 0) (replicate 64 5) 3 true)
    ([5; 5; 5] ++ [8; 7] ++ replicate 59 5) 0.
Proof.
  apply (Update_folds_pending_block_at_once [7; 8] 2
           (mkCTX (replicate 64 1) (replicate 64 0) (replicate 64 0) (replicate 64 5) 3 true));
    cbn; lia.
Defined.

Lemma Update_loop_iter k : forall fuel buf len ctx r,
  len = (64 * k + r)%nat -> (r < 64)%nat -> (k <= fuel)%nat ->
  Update_loop fuel buf len ctx = (drop (64 * k) buf, r, iter_blocks k buf ctx).
Proof.
  induction k as [| k IH]; intros fuel buf len ctx r Hlen Hr Hfuel.
  - replace len with r by lia.
    destruct fuel as [| fuel]; cbn [Update_loop iter_blocks]; [reflexivity |].
    destruct (Nat.leb_spec 64 r); [lia | reflexivity].
  - destruct fuel as [| fuel]; [lia |]. cbn [Update_loop iter_blocks].
    destruct (Nat.leb_spec 64 len); [| lia].
    rewrite (IH fuel _ (len - 64)%nat _ r) by lia.
    rewrite drop_drop. do 3 f_equal. lia.
Qed.

Lemma iter_blocks_keeps k : forall buf ctx,
  length (ctx_m (iter_blocks k buf ctx)) = length (ctx_m ctx) /\
  ctx_len (iter_blocks k buf ctx) = ctx_len ctx.
Proof.
  induction k as [| k IH]; intros buf ctx; cbn [iter_blocks]; [tauto |].
  destruct (IH (drop 64 buf)
              (ctx_fold_block ctx (store_inverted (ctx_m ctx) 0 buf 64) (ctx_len ctx)))
    as [Hm Hl].
  rewrite Hm, Hl. cbn [ctx_m ctx_len ctx_fold_block].
  rewrite length_store_inverted. tauto.
Qed.

Lemma iter_blocks_app k kb : forall (A B : list Z) ctx,
  length A = (64 * k)%nat -> length (ctx_m ctx) = 64%nat ->
  iter_blocks (k + kb) (A ++ B) ctx = iter_blocks kb B (iter_blocks k A ctx).
Proof.
  induction k as [| k IH]; intros A B ctx HA Hm.
  - destruct A; [reflexivity | discriminate].
  - cbn [Nat.add iter_blocks].
    rewrite !store_inverted_block by (rewrite ?length_app; lia).
    rewrite take_app_le, drop_app_le by lia.
    apply IH; [rewrite length_drop; lia |].
    cbn [ctx_m ctx_fold_block]. rewrite length_reverse, length_take. lia.
Qed.

Lemma Update_from_zero buf len ctx :
  ctx_len ctx = 0%nat ->
  GOSTR3411_2012_CTX_Update buf len ctx =
  keep_rest (drop (64 * (len / 64)) buf) (len mod 64) (iter_blocks (len / 64) buf ctx).
Proof.
  intros H0. unfold GOSTR3411_2012_CTX_Update.
  destruct (Nat.eqb_spec len 0) as [-> | Hne].
  - cbn. destruct ctx. cbn in H0. subst. reflexivity.
  - rewrite H0. change (0 <? 0)%nat with false. cbv iota.
    rewrite (Update_loop_iter (len / 64) len buf len ctx (len mod 64));
      [reflexivity | apply Nat.div_mod_eq | apply Nat.mod_upper_bound; lia
       | apply Nat.Div0.div_le_upper_bound; lia].
Qed.

(** X9.  From a context without pending bytes, a call that passes a
    whole number of 64-byte blocks followed by a call with any buffer
    leaves exactly the context that one call with the two buffers joined
    leaves. *)
Theorem Update_splits_at_block_boundary (A B : list Z) (ctx : GOSTR3411_2012_CTX) :
  ctx_len ctx = 0%nat -> length (ctx_m ctx) = 64%nat ->
  (length A mod 64)%nat = 0%nat ->
  GOSTR3411_2012_CTX_Update B (length B)
    (GOSTR3411_2012_CTX_Update A (length A) ctx) =
  GOSTR3411_2012_CTX_Update (A ++ B) (length (A ++ B)) ctx.
Proof.
  intros H0 Hm HA.
  pose proof (Nat.div_mod_eq (length A) 64) as HdA.
  pose proof (Nat.div_mod_eq (length B) 64) as HdB.
  pose proof (Nat.mod_upper_bound (length B) 64 ltac:(lia)) as HrB.
  set (ka := (length A / 64)%nat) in *. set (kb := (length B / 64)%nat) in *.
  assert (HUA : GOSTR3411_2012_CTX_Update A (length A) ctx = iter_blocks ka A ctx).
  { rewrite Update_from_zero by assumption. fold ka. rewrite HA.
    destruct (iter_blocks_keeps ka A ctx) as [_ Hl]. rewrite H0 in Hl.
    unfold keep_rest. change (0 <? 0)%nat with false. cbv iota.
    destruct (iter_blocks ka A ctx). cbn in Hl. subst. reflexivity. }
  rewrite HUA.
  destruct (iter_blocks_keeps ka A ctx) as [HmA HlA].
  rewrite Update_from_zero by congruence.
  rewrite Update_from_zero by assumption.
  rewrite length_app.
  assert (Hk : ((length A + length B) / 64 = ka + kb)%nat).
  { replace (length A + length B)%nat with (length B mod 64 + (ka + kb) * 64)%nat by lia.
    rewrite Nat.div_add by lia. rewrite Nat.div_small by lia. reflexivity. }
  assert (Hr : ((length A + length B) mod 64 = length B mod 64)%nat).
  { replace (length A + length B)%nat with (length B mod 64 + (ka + kb) * 64)%nat by lia.
    rewrite Nat.Div0.mod_add. apply Nat.mod_small. lia. }
  rewrite Hk, Hr. fold kb.
  rewrite iter_blocks_app by lia.
  rewrite drop_app_ge by lia. do 2 f_equal. lia.
Qed.

Lemma Update_splits_at_block_boundary_witness :
  GOSTR3411_2012_CTX_Update [1; 2; 3] 3
    (GOSTR3411_2012_CTX_Update (replicate 64 4) 64
       (mkCTX (replicate 64 1) (replicate 64 0) (replicate 64 0) (replicate 64 5) 0 true)) =
  GOSTR3411_2012_CTX_Update (replicate 64 4 ++ [1; 2; 3]) 67
    (mkCTX (replicate 64 1) (replicate 64 0) (replicate 64 0) (replicate 64 5) 0 true).
Proof.
  apply (Update_splits_at_block_boundary (replicate 64 4) [1; 2; 3]
           (mkCTX (replicate 64 1) (replicate 64 0) (replicate 64 0) (replicate 64 5) 0 true));
    reflexivity.
Defined.

(** *** The two [operator^] and the WIN32 branch of [SPL] *)

Lemma byte_at_spec_xor a b i :
  (i < 64)%nat ->
  byte_at (spec_xor a b) i = Z.lxor (byte_at a i) (byte_at b i).
Proof.
  intros Hi. unfold byte_at at 1. unfold spec_xor.
  set (f := fun i => Z.lxor (byte_at a i) (byte_at b i)).
  rewrite (nth_indep _ 0 (f 0%nat)) by (rewrite length_map, length_seq; exact Hi).
  rewrite map_nth, seq_nth by exact Hi. reflexivity.
Qed.

Lemma spec_xor_cancel a b :
  length a = 64%nat -> spec_xor (spec_xor a b) b = a.
Proof.
  intros Hlen.
  apply (nth_ext _ _ 0 0).
  - unfold spec_xor. rewrite length_map, length_seq. lia.
  - intros n Hn. unfold spec_xor in Hn. rewrite length_map, length_seq in Hn.
    change (nth n (spec_xor (spec_xor a b) b) 0)
      with (byte_at (spec_xor (spec_xor a b) b) n).
    rewrite !byte_at_spec_xor by exact Hn.
    rewrite Z.lxor_assoc, Z.lxor_nilpotent, Z.lxor_0_r. reflexivity.
Qed.

(** X10.  On blocks of bytes the two [operator^] overloads (word by word
    over [ll], byte by byte over [buf]) compute the same block, every
    entry of it the XOR of the two bytes at that index, and XOR-ing the
    same block twice gives back the 64-byte block one started from. *)
Theorem operator_xor_overloads_agree (a b : GOST3411Block) :
  bytes a -> bytes b -> length a = 64%nat ->
  xor_ll a b = xor_buf a b /\
  (forall i, (i < 64)%nat ->
     byte_at (xor_ll a b) i = Z.lxor (byte_at a i) (byte_at b i)) /\
  xor_ll (xor_ll a b) b = a.
Proof.
  intros Ha Hb Hlen.
  rewrite (xor_ll_spec_xor (xor_ll a b) b)
    by (try assumption; rewrite xor_ll_spec_xor by assumption;
        apply bytes_spec_xor; assumption).
  rewrite !xor_ll_spec_xor by assumption.
  split; [reflexivity|]. split.
  - intros i Hi. apply byte_at_spec_xor, Hi.
  - apply spec_xor_cancel; assumption.
Qed.

Lemma operator_xor_overloads_agree_witness :
  xor_ll (replicate 64 0xA5) (replicate 64 0x3C)
    = xor_buf (replicate 64 0xA5) (replicate 64 0x3C) /\
  (forall i, (i < 64)%nat ->
     byte_at (xor_ll (replicate 64 0xA5) (replicate 64 0x3C)) i
       = Z.lxor (byte_at (replicate 64 0xA5) i) (byte_at (replicate 64 0x3C) i)) /\
  xor_ll (xor_ll (replicate 64 0xA5) (replicate 64 0x3C)) (replicate 64 0x3C)
    = replicate 64 0xA5.
Proof.
  apply (operator_xor_overloads_agree (replicate 64 0xA5) (replicate 64 0x3C)).
  - apply bytes_replicate. unfold is_byte. lia.
  - apply bytes_replicate. unfold is_byte. lia.
  - reflexivity.
Defined.

Import Gost3411_WIN32.

Lemma SPL_WIN32_store_head (c : Z) (buf : GOST3411Block) :
  (8 <= length buf)%nat ->
  SPL_WIN32_store c buf = be_bytes c ++ drop 8 buf.
Proof.
  intros Hlen.
  do 8 (destruct buf as [| ? buf]; [cbn in Hlen; lia |]).
  reflexivity.
Qed.

Lemma length_be_bytes c : length (be_bytes c) = 8%nat.
Proof. reflexivity. Qed.

Lemma SPL_WIN32_value (b : GOST3411Block) :
  (8 <= length b)%nat ->
  SPL_WIN32 b = be_bytes (SPL_word b 7) ++ drop 8 b.
Proof.
  intros Hlen. unfold SPL_WIN32. cbn [seq fold_left].
  assert (Hstep : forall c c' (rest : list Z),
             SPL_WIN32_store c (be_bytes c' ++ rest) = be_bytes c ++ rest).
  { intros c c' rest. rewrite SPL_WIN32_store_head.
    - rewrite drop_app_length' by reflexivity. reflexivity.
    - rewrite length_app, length_be_bytes. lia. }
  rewrite (SPL_WIN32_store_head _ b) by exact Hlen.
  rewrite !Hstep. reflexivity.
Qed.

(** X11.  The branch of [SPL] compiled when WIN32 is defined stores all
    eight computed words into bytes 0..7, one over the other: of a
    64-byte block it leaves bytes 8..63 as they were, and bytes 0..7 end
    up holding what the other branch puts into bytes 56..63.  The other
    branch fills all of the 64 bytes. *)
Theorem SPL_WIN32_keeps_bytes_8_to_63 (b : GOST3411Block) :
  length b = 64%nat ->
  drop 8 (SPL_WIN32 b) = drop 8 b /\
  take 8 (SPL_WIN32 b) = drop 56 (SPL b) /\
  length (SPL b) = 64%nat.
Proof.
  intros Hlen. rewrite SPL_WIN32_value by lia.
  split; [|split].
  - rewrite drop_app_length' by reflexivity. reflexivity.
  - rewrite take_app_length' by reflexivity.
    unfold SPL, be_bytes. cbn [seq map concat app]. reflexivity.
  - reflexivity.
Qed.

Lemma SPL_WIN32_keeps_bytes_8_to_63_witness :
  drop 8 (SPL_WIN32 (replicate 64 0)) = drop 8 (replicate 64 0) /\
  take 8 (SPL_WIN32 (replicate 64 0)) = drop 56 (SPL (replicate 64 0)) /\
  length (SPL (replicate 64 0)) = 64%nat.
Proof.
  apply (SPL_WIN32_keeps_bytes_8_to_63 (replicate 64 0)). reflexivity.
Defined.

(** The two branches do differ: on the all-zero block the WIN32 branch
    leaves bytes 8..63 zero, the other one does not. *)
Lemma SPL_WIN32_differs_from_SPL :
  SPL_WIN32 (replicate 64 0) <> SPL (replicate 64 0).
Proof. vm_compute. intros Heq. discriminate Heq. Qed.

(** *** [SPL] and [E] lose no information *)

Import Gost3411_Inverse.

Ltac xor_bits :=
  apply Z.bits_inj'; intros ?n ?Hn; rewrite ?Z.lxor_spec;
  repeat match goal with
         | |- context [Z.testbit ?a ?n] => destruct (Z.testbit a n)
         end; reflexivity.

Lemma fold_xor_acc (cond : nat -> bool) (a : nat -> Z) (l : list nat) : forall c,
  fold_left (fun c k => if cond k then c else Z.lxor c (a k)) l c =
  Z.lxor c (fold_left (fun c k => if cond k then c else Z.lxor c (a k)) l 0).
Proof.
  induction l as [| k l IH]; intros c; cbn [fold_left].
  - rewrite Z.lxor_0_r. reflexivity.
  - rewrite IH. rewrite (IH (if cond k then 0 else Z.lxor 0 (a k))).
    destruct (cond k).
    + rewrite Z.lxor_0_l. reflexivity.
    + rewrite Z.lxor_0_l, Z.lxor_assoc. reflexivity.
Qed.

Lemma SPL_bits_row y j c : SPL_bits y j c = Z.lxor c (SPL_row j y).
Proof. unfold SPL_row, SPL_bits. apply fold_xor_acc. Qed.

Lemma SPL_word_rows p i :
  SPL_word p i =
  fold_left
    (fun c j => Z.lxor c (SPL_row j (table_at sbox_ (Z.to_nat (byte_at p (j * 8 + i))))))
    (seq 0 8) 0.
Proof.
  unfold SPL_word. cbn [seq fold_left]. rewrite !SPL_bits_row. reflexivity.
Qed.

Lemma L_inv_fold_lxor x y (l : list nat) : forall a b,
  fold_left
    (fun acc t => if Z.testbit (Z.lxor x y) (Z.of_nat t)
                  then Z.lxor acc (table_at A_inv t) else acc) l (Z.lxor a b) =
  Z.lxor
    (fold_left
       (fun acc t => if Z.testbit x (Z.of_nat t)
                     then Z.lxor acc (table_at A_inv t) else acc) l a)
    (fold_left
       (fun acc t => if Z.testbit y (Z.of_nat t)
                     then Z.lxor acc (table_at A_inv t) else acc) l b).
Proof.
  induction l as [| t l IH]; intros a b; cbn [fold_left]; [reflexivity|].
  rewrite Z.lxor_spec.
  destruct (Z.testbit x (Z.of_nat t)), (Z.testbit y (Z.of_nat t)); cbn [xorb];
    rewrite <- IH; f_equal; xor_bits.
Qed.

Lemma L_inv_lxor x y : L_inv (Z.lxor x y) = Z.lxor (L_inv x) (L_inv y).
Proof.
  unfold L_inv. rewrite <- L_inv_fold_lxor. reflexivity.
Qed.

Lemma column_byte_lxor j x y :
  column_byte j (Z.lxor x y) = Z.lxor (column_byte j x) (column_byte j y).
Proof.
  unfold column_byte. rewrite L_inv_lxor, Z.shiftr_lxor.
  apply Z.bits_inj'. intros n Hn.
  rewrite Z.lxor_spec, !Z.land_spec, Z.lxor_spec.
  destruct (Z.testbit 255 n); rewrite ?andb_true_r, ?andb_false_r; reflexivity.
Qed.

Lemma column_byte_0 j : column_byte j 0 = 0.
Proof.
  unfold column_byte. change (L_inv 0) with 0.
  rewrite Z.shiftr_0_l. reflexivity.
Qed.

Lemma L_inv_row_check :
  forallb
    (fun j =>
       forallb
         (fun y => L_inv (SPL_row j (Z.of_nat y)) =? Z.shiftl (Z.of_nat y) (8 * Z.of_nat j))
         (seq 0 256))
    (seq 0 8) = true.
Proof. vm_compute. reflexivity. Qed.

Lemma byte_place_check :
  forallb
    (fun j =>
       forallb
         (fun j' =>
            forallb
              (fun y => Z.land (Z.shiftr (Z.shiftl (Z.of_nat y) (8 * Z.of_nat j'))
                                  (8 * Z.of_nat j)) 0xFF
                        =? (if Nat.eqb j j' then Z.of_nat y else 0))
              (seq 0 256))
         (seq 0 8))
    (seq 0 8) = true.
Proof. vm_compute. reflexivity. Qed.

Lemma column_row j j' y :
  (j < 8)%nat -> (j' < 8)%nat -> 0 <= y < 256 ->
  column_byte j (SPL_row j' y) = if Nat.eqb j j' then y else 0.
Proof.
  intros Hj Hj' Hy.
  assert (I1 : In j (seq 0 8)) by (apply in_seq; lia).
  assert (I2 : In j' (seq 0 8)) by (apply in_seq; lia).
  assert (I3 : In (Z.to_nat y) (seq 0 256)) by (apply in_seq; lia).
  assert (I4 : Z.of_nat (Z.to_nat y) = y) by lia.
  unfold column_byte.
  pose proof L_inv_row_check as Hrow.
  rewrite forallb_forall in Hrow.
  pose proof (Hrow j' I2) as Hrow1.
  rewrite forallb_forall in Hrow1.
  pose proof (Hrow1 (Z.to_nat y) I3) as Hrow2.
  rewrite I4 in Hrow2. apply Z.eqb_eq in Hrow2. rewrite Hrow2.
  pose proof byte_place_check as Hall.
  rewrite forallb_forall in Hall.
  pose proof (Hall j I1) as H1.
  rewrite forallb_forall in H1.
  pose proof (H1 j' I2) as H2.
  rewrite forallb_forall in H2.
  pose proof (H2 (Z.to_nat y) I3) as H3.
  rewrite I4 in H3.
  apply Z.eqb_eq. exact H3.
Qed.

Lemma sbox_byte n : 0 <= table_at sbox_ n < 256.
Proof.
  destruct (lt_dec n 256) as [Hn | Hn].
  - assert (Hall : forallb (fun n => (0 <=? table_at sbox_ n) && (table_at sbox_ n <? 256))
                     (seq 0 256) = true) by (vm_compute; reflexivity).
    rewrite forallb_forall in Hall. specialize (Hall n).
    apply andb_true_iff in Hall as [H1 H2]; [lia | apply in_seq; lia].
  - unfold table_at. rewrite nth_overflow; [lia|].
    change (length sbox_) with 256%nat. lia.
Qed.

Lemma sbox_inv_sbox n : (n < 256)%nat -> sbox_inv (table_at sbox_ n) = Z.of_nat n.
Proof.
  intros Hn.
  assert (Hall : forallb (fun n => sbox_inv (table_at sbox_ n) =? Z.of_nat n)
                   (seq 0 256) = true) by (vm_compute; reflexivity).
  rewrite forallb_forall in Hall. apply Z.eqb_eq, Hall, in_seq. lia.
Qed.

Lemma column_byte_SPL_word p i j :
  (j < 8)%nat ->
  column_byte j (SPL_word p i) = table_at sbox_ (Z.to_nat (byte_at p (j * 8 + i))).
Proof.
  intros Hj. rewrite SPL_word_rows. cbn [seq fold_left].
  rewrite !column_byte_lxor, column_byte_0.
  rewrite !column_row by first [lia | apply sbox_byte].
  do 8 (destruct j as [| j]; [cbn [Nat.eqb]; rewrite ?Z.lxor_0_l, ?Z.lxor_0_r; reflexivity |]).
  lia.
Qed.

Lemma testbit_255 m : 0 <= m < 8 -> Z.testbit 255 m = true.
Proof.
  intros Hm.
  assert (Hc : m = 0 \/ m = 1 \/ m = 2 \/ m = 3 \/ m = 4 \/ m = 5 \/ m = 6 \/ m = 7) by lia.
  destruct Hc as [-> | [-> | [-> | [-> | [-> | [-> | [-> | ->]]]]]]]; reflexivity.
Qed.

Lemma be_bytes_testbit c c' :
  be_bytes c = be_bytes c' ->
  forall t, (t < 64)%nat -> Z.testbit c (Z.of_nat t) = Z.testbit c' (Z.of_nat t).
Proof.
  intros Heq t Ht.
  assert (Hs : forall k, (k < 8)%nat ->
             Z.land (Z.shiftr c (8 * (7 - Z.of_nat k))) 0xFF =
             Z.land (Z.shiftr c' (8 * (7 - Z.of_nat k))) 0xFF).
  { intros k Hk.
    assert (Hn : nth k (be_bytes c) 0 = nth k (be_bytes c') 0) by (rewrite Heq; reflexivity).
    do 8 (destruct k as [| k]; [exact Hn |]). lia. }
  pose proof (Z.div_mod (Z.of_nat t) 8 ltac:(lia)) as Hdm.
  pose proof (Z.mod_pos_bound (Z.of_nat t) 8 ltac:(lia)) as Hm.
  set (q := Z.of_nat t / 8) in *. set (m := Z.of_nat t mod 8) in *.
  assert (Hq : 0 <= q < 8) by lia.
  specialize (Hs (Z.to_nat (7 - q)) ltac:(lia)).
  rewrite Z2Nat.id in Hs by lia.
  replace (8 * (7 - (7 - q))) with (8 * q) in Hs by lia.
  apply (f_equal (fun z => Z.testbit z m)) in Hs.
  rewrite !Z.land_spec, !Z.shiftr_spec in Hs by lia.
  rewrite testbit_255, !andb_true_r in Hs by lia.
  replace (m + 8 * q) with (Z.of_nat t) in Hs by lia.
  exact Hs.
Qed.

Lemma L_inv_low_bits c c' :
  (forall t, (t < 64)%nat -> Z.testbit c (Z.of_nat t) = Z.testbit c' (Z.of_nat t)) ->
  L_inv c = L_inv c'.
Proof.
  intros Hbits. unfold L_inv.
  assert (Hgen : forall (l : list nat) a, (forall t, In t l -> (t < 64)%nat) ->
            fold_left (fun acc t => if Z.testbit c (Z.of_nat t)
                                    then Z.lxor acc (table_at A_inv t) else acc) l a =
            fold_left (fun acc t => if Z.testbit c' (Z.of_nat t)
                                    then Z.lxor acc (table_at A_inv t) else acc) l a).
  { induction l as [| t l IH]; intros a Hl; cbn [fold_left]; [reflexivity|].
    rewrite (Hbits t) by (apply Hl; left; reflexivity).
    apply IH. intros t' Ht'. apply Hl. right. exact Ht'. }
  apply Hgen. intros t Ht. apply in_seq in Ht. lia.
Qed.

Lemma SPL_chunk b i :
  (i < 8)%nat -> take 8 (drop (8 * i) (SPL b)) = be_bytes (SPL_word b i).
Proof.
  intros Hi. unfold SPL, be_bytes. cbn [seq map concat app].
  do 8 (destruct i as [| i]; [reflexivity |]). lia.
Qed.

Lemma SPL_byte_eq (a b : GOST3411Block) i j :
  bytes a -> bytes b -> (i < 8)%nat -> (j < 8)%nat ->
  SPL a = SPL b -> byte_at a (j * 8 + i) = byte_at b (j * 8 + i).
Proof.
  intros Ha Hb Hi Hj Heq.
  assert (Hw : be_bytes (SPL_word a i) = be_bytes (SPL_word b i)).
  { rewrite <- !SPL_chunk by exact Hi. rewrite Heq. reflexivity. }
  assert (Hc : column_byte j (SPL_word a i) = column_byte j (SPL_word b i)).
  { unfold column_byte. rewrite (L_inv_low_bits _ _ (be_bytes_testbit _ _ Hw)). reflexivity. }
  rewrite !column_byte_SPL_word in Hc by exact Hj.
  pose proof (is_byte_byte_at a (j * 8 + i) Ha) as Hba.
  pose proof (is_byte_byte_at b (j * 8 + i) Hb) as Hbb.
  unfold is_byte in Hba, Hbb.
  apply (f_equal sbox_inv) in Hc.
  rewrite !sbox_inv_sbox in Hc by lia.
  rewrite !Z2Nat.id in Hc by lia. exact Hc.
Qed.

Lemma SPL_inj (a b : GOST3411Block) :
  bytes a -> bytes b -> length a = 64%nat -> length b = 64%nat ->
  SPL a = SPL b -> a = b.
Proof.
  intros Ha Hb Hla Hlb Heq.
  apply (nth_ext _ _ 0 0); [congruence|].
  intros n Hn. rewrite Hla in Hn.
  pose proof (Nat.div_mod_eq n 8) as Hdm.
  pose proof (Nat.mod_upper_bound n 8 ltac:(lia)) as Hm.
  assert (Hq : (n / 8 < 8)%nat) by (apply Nat.Div0.div_lt_upper_bound; lia).
  replace n with (n / 8 * 8 + n mod 8)%nat by lia.
  apply (SPL_byte_eq a b (n mod 8) (n / 8)); assumption.
Qed.

(** X12.  [SPL] never sends two different 64-byte blocks to the same
    block. *)
Theorem SPL_is_injective (a b : GOST3411Block) :
  bytes a -> bytes b -> length a = 64%nat -> length b = 64%nat ->
  SPL a = SPL b -> a = b.
Proof. exact (SPL_inj a b). Qed.


Lemma SPL_is_injective_witness :
  replicate 32 0 ++ replicate 32 0 = replicate 64 0.
Proof.
  apply (SPL_is_injective (replicate 32 0 ++ replicate 32 0) (replicate 64 0)).
  - apply (bytes_replicate 64). unfold is_byte. lia.
  - apply bytes_replicate. unfold is_byte. lia.
  - reflexivity.
  - reflexivity.
  - reflexivity.
Defined.

Lemma byte_at_xor_ll a b i :
  bytes a -> bytes b -> (i < 64)%nat ->
  byte_at (xor_ll a b) i = Z.lxor (byte_at a i) (byte_at b i).
Proof.
  intros Ha Hb Hi. rewrite xor_ll_spec_xor by assumption.
  apply byte_at_spec_xor, Hi.
Qed.

Lemma xor_ll_cancel_l (k x y : GOST3411Block) :
  bytes k -> bytes x -> bytes y -> length x = 64%nat -> length y = 64%nat ->
  xor_ll k x = xor_ll k y -> x = y.
Proof.
  intros Hk Hx Hy Hlx Hly Heq.
  apply (nth_ext _ _ 0 0); [congruence|].
  intros n Hn. rewrite Hlx in Hn.
  assert (Hb : byte_at (xor_ll k x) n = byte_at (xor_ll k y) n) by (rewrite Heq; reflexivity).
  rewrite !byte_at_xor_ll in Hb by assumption.
  apply (f_equal (Z.lxor (byte_at k n))) in Hb.
  rewrite <- !Z.lxor_assoc, Z.lxor_nilpotent, !Z.lxor_0_l in Hb.
  exact Hb.
Qed.

Lemma length_SPL b : length (SPL b) = 64%nat.
Proof. reflexivity. Qed.

Lemma E_rounds_inj (l : list nat) : forall k r1 r2,
  bytes k -> bytes r1 -> bytes r2 -> length r1 = 64%nat -> length r2 = 64%nat ->
  snd (fold_left E_round l (k, r1)) = snd (fold_left E_round l (k, r2)) ->
  r1 = r2.
Proof.
  induction l as [| i l IH]; intros k r1 r2 Hk H1 H2 Hl1 Hl2 Heq.
  - exact Heq.
  - cbn [fold_left E_round] in Heq.
    apply IH in Heq.
    + apply xor_ll_cancel_l in Heq;
        [| apply bytes_SPL | apply bytes_SPL | apply bytes_SPL
         | apply length_SPL | apply length_SPL].
      apply SPL_inj; assumption.
    + apply bytes_SPL.
    + apply bytes_xor_ll.
    + apply bytes_xor_ll.
    + apply length_xor_ll.
    + apply length_xor_ll.
Qed.

(** X13.  For every key block, [E] never sends two different 64-byte
    message blocks to the same block: the twelve rounds can be undone. *)
Theorem E_is_injective_in_message (k m1 m2 : GOST3411Block) :
  bytes k -> bytes m1 -> bytes m2 ->
  length m1 = 64%nat -> length m2 = 64%nat ->
  E k m1 = E k m2 -> m1 = m2.
Proof.
  intros Hk H1 H2 Hl1 Hl2 Heq. unfold E in Heq.
  apply E_rounds_inj in Heq;
    [| assumption | apply bytes_xor_ll | apply bytes_xor_ll
     | apply length_xor_ll | apply length_xor_ll].
  apply (xor_ll_cancel_l k); assumption.
Qed.

Lemma E_is_injective_in_message_witness :
  replicate 32 2 ++ replicate 32 2 = replicate 64 2.
Proof.
  apply (E_is_injective_in_message (replicate 64 1)
           (replicate 32 2 ++ replicate 32 2) (replicate 64 2)).
  - apply bytes_replicate. unfold is_byte. lia.
  - apply (bytes_replicate 64). unfold is_byte. lia.
  - apply bytes_replicate. unfold is_byte. lia.
  - reflexivity.
  - reflexivity.
  - reflexivity.
Defined.
End Gost3411_More.

(** ** Part VI.  Further properties of the signature engine *)

Module Gost3410_More.
Import Gost3410 Gost3410_Theory.

Section Group.
Context {m_Group : EC_GROUP} {laws : EC_GROUP_laws}.

Local Notation "X +' Y" := (EC_POINT_add X Y) (at level 50, left associativity).
Local Notation "n *' X" := (EC_scalar n X) (at level 40, left associativity).
Local Notation "-' X" := (EC_POINT_invert X) (at level 35, right associativity).
Local Abbreviation O := EC_infinity.

(** X14.  When the nonce's point k * P is finite with coordinates
    (Cx, Cy), [Sign] returns r = Cx, with 0 <= r < p, and
    s = (r * priv + k * digest) mod q, with 0 <= s < q. *)
Theorem Sign_computes_r_and_s priv digest r_in k cx cy :
  EC_POINT_get_affine_coordinates_GFp (k *' EC_generator) = Some (cx, cy) ->
  Sign priv digest r_in k = (cx, (cx * priv + k * digest) mod EC_order) /\
  0 <= cx < EC_field /\
  0 <= (cx * priv + k * digest) mod EC_order < EC_order.
Proof.
  intros Hxy. pose proof (@order_pos _ laws) as Hq.
  destruct (Sign_finite priv digest r_in k cx cy Hxy) as [-> Hr].
  split; [| split; [assumption | apply Z.mod_pos_bound; assumption]].
  f_equal. symmetry. apply Z.add_mod. lia.
Qed.

(** X15.  For a digest with an inverse h modulo q, when the point
    C = (s * h mod q) * P + ((q - r) * h mod q) * Q is finite, [Verify]
    returns whether Cx mod q equals r. *)
Theorem Verify_compares_Cx_mod_q pub digest r s h cx cy :
  0 <= h < EC_order -> (h * (digest mod EC_order)) mod EC_order = 1 ->
  EC_POINT_get_affine_coordinates_GFp
    (((s * h) mod EC_order) *' EC_generator +'
     (((EC_order - r) * h) mod EC_order) *' pub) = Some (cx, cy) ->
  Verify pub digest r s = (cx mod EC_order =? r).
Proof. apply Verify_finite. Qed.

(** X16.  A signature that [Sign] makes under the key priv, with a
    nonce whose point is finite and a digest invertible modulo q, is
    accepted by [Verify] under the public key priv * P exactly when the
    x-coordinate of the nonce's point is below q. *)
Theorem Verify_accepts_Sign_iff_Cx_below_q priv digest r_in k h cx cy :
  0 <= h < EC_order -> (h * (digest mod EC_order)) mod EC_order = 1 ->
  EC_POINT_get_affine_coordinates_GFp (k *' EC_generator) = Some (cx, cy) ->
  (let '(r, s) := Sign priv digest r_in k in Verify (MulP priv) digest r s) = true <->
  cx < EC_order.
Proof.
  intros Hh Hinv Hxy. pose proof (@order_pos _ laws) as Hq.
  destruct (Z.lt_ge_cases cx EC_order) as [Hlt | Hge].
  - pose proof (Verify_Sign_reduced priv digest r_in k h cx cy Hh Hinv Hxy Hlt) as HV.
    destruct (Sign priv digest r_in k) as [r s]. tauto.
  - pose proof (Verify_Sign_unreduced priv digest r_in k h cx cy Hh Hinv Hxy Hge) as HV.
    destruct (Sign priv digest r_in k) as [r s]. rewrite HV.
    split; [discriminate | lia].
Qed.

(** X17.  [Verify] never accepts an r outside [0, q). *)
Theorem Verify_accepts_only_r_below_q pub digest r s :
  Verify pub digest r s = true -> 0 <= r < EC_order.
Proof.
  pose proof (@order_pos _ laws) as Hq.
  unfold Verify, GetXY, BN_mod. cbv zeta.
  set (C := EC_POINT_mul _ _).
  destruct (EC_POINT_get_affine_coordinates_GFp C) as [[cx cy] |] eqn:Hxy.
  - destruct (EC_affine_range _ _ _ Hxy) as [Hcx _].
    rewrite BN_cmp_eq, Z.rem_mod_nonneg by lia.
    intros He. apply Z.eqb_eq in He. subst r. apply Z.mod_pos_bound. assumption.
  - rewrite BN_cmp_eq. unfold BN_CTX_get. rewrite Z.rem_0_l by lia.
    intros He. apply Z.eqb_eq in He. subst r. lia.
Qed.

Lemma inverse_congr a a' :
  a mod EC_order = a' mod EC_order ->
  match BN_mod_inverse a EC_order with Some i => i | None => a end mod EC_order =
  match BN_mod_inverse a' EC_order with Some i => i | None => a' end mod EC_order.
Proof.
  intros Ha. pose proof (@order_pos _ laws) as Hq. unfold BN_mod_inverse.
  assert (Hg : Z.gcd a EC_order = Z.gcd a' EC_order).
  { rewrite (Z.gcd_comm a), (Z.gcd_comm a').
    rewrite <- (Z.gcd_mod a), <- (Z.gcd_mod a') by lia. rewrite Ha. reflexivity. }
  rewrite Hg. destruct (Z.gcd a' EC_order =? 1); [| assumption].
  rewrite <- (Z.invmod_mod_l a), <- (Z.invmod_mod_l a'), Ha. reflexivity.
Qed.

(** X18.  [Verify] sees the digest and s only modulo q: digests that
    are congruent modulo q, and values of s that are congruent modulo q,
    get the same answer. *)
Theorem Verify_sees_digest_and_s_modulo_q pub digest digest' r s s' :
  digest mod EC_order = digest' mod EC_order ->
  s mod EC_order = s' mod EC_order ->
  Verify pub digest r s = Verify pub digest' r s'.
Proof.
  intros He Hs. pose proof (@order_pos _ laws) as Hq.
  unfold Verify, BN_mod_mul, BN_sub, BN_mod. cbv zeta.
  assert (Hh : Z.rem digest EC_order mod EC_order = Z.rem digest' EC_order mod EC_order)
    by (rewrite !rem_mod_eq by lia; exact He).
  apply inverse_congr in Hh.
  set (h := match BN_mod_inverse (Z.rem digest EC_order) EC_order with
            | Some i => i | None => _ end) in *.
  set (h' := match BN_mod_inverse (Z.rem digest' EC_order) EC_order with
             | Some i => i | None => _ end) in *.
  assert (H1 : (s * h) mod EC_order = (s' * h') mod EC_order).
  { rewrite <- (Z.mul_mod_idemp_l s), <- (Z.mul_mod_idemp_r _ h) by lia.
    rewrite Hs, Hh. rewrite Z.mul_mod_idemp_l, Z.mul_mod_idemp_r by lia. reflexivity. }
  assert (H2 : ((EC_order - r) * h) mod EC_order = ((EC_order - r) * h') mod EC_order).
  { rewrite <- (Z.mul_mod_idemp_r _ h), Hh, Z.mul_mod_idemp_r by lia. reflexivity. }
  rewrite H1, H2. reflexivity.
Qed.

Lemma RecoverPublicKey_value digest r s (isNegativeY : bool) C r1 :
  EC_POINT_set_compressed_coordinates_GFp r isNegativeY = Some C ->
  EC_order *' C = O ->
  0 <= r1 < EC_order -> (r1 * r) mod EC_order = 1 ->
  RecoverPublicKey digest r s isNegativeY =
  Some (r1 *' (s *' EC_generator +' -' ((digest mod EC_order) *' C))).
Proof.
  intros Hset HqC Hr1 Hinv.
  pose proof (@order_pos _ laws) as Hq. pose proof EC_order_gt_1 as Hq1.
  unfold RecoverPublicKey.
  replace (if isNegativeY then true else false) with isNegativeY
    by (destruct isNegativeY; reflexivity).
  rewrite Hset. cbv zeta.
  rewrite (BN_mod_inverse_complete r EC_order r1) by assumption.
  cbn [EC_POINT_mul]. do 3 f_equal.
  rewrite <- scalar_opp. apply (scalar_congr EC_order); [exact HqC |].
  unfold BN_sub, BN_mod.
  rewrite <- Zminus_mod_idemp_r, rem_mod_eq by lia.
  replace (EC_order - digest mod EC_order)
    with (- (digest mod EC_order) + 1 * EC_order) by ring.
  apply Z.mod_add. lia.
Qed.

(** X19.  From a signature that [Sign] makes with a nonce whose point is
    finite, [RecoverPublicKey] with the parity of that point's
    y-coordinate returns the signer's public key priv * P, provided r has
    an inverse modulo q. *)
Theorem RecoverPublicKey_recovers_signer priv digest r_in k cx cy r1 :
  EC_POINT_get_affine_coordinates_GFp (k *' EC_generator) = Some (cx, cy) ->
  0 <= r1 < EC_order -> (r1 * cx) mod EC_order = 1 ->
  (let '(r, s) := Sign priv digest r_in k in
   RecoverPublicKey digest r s (Z.odd cy)) = Some (MulP priv).
Proof.
  intros Hxy Hr1 Hinv. pose proof (@order_pos _ laws) as Hq.
  pose proof EC_generator_order as Hord.
  destruct (Sign_finite priv digest r_in k cx cy Hxy) as [-> Hrange].
  assert (Hset : EC_POINT_set_compressed_coordinates_GFp cx (Z.odd cy) =
                 Some (k *' EC_generator)).
  { apply EC_compressed. exists cy. rewrite Z.mod_small by lia. split; [exact Hxy | reflexivity]. }
  assert (HqC : EC_order *' (k *' EC_generator) = O)
    by (rewrite scalar_swap, Hord; apply scalar_infinity).
  rewrite (RecoverPublicKey_value _ _ _ _ _ r1 Hset HqC Hr1 Hinv). f_equal.
  rewrite (scalar_mod EC_order _ _ Hord), scalar_add, !(scalar_mod EC_order _ _ Hord).
  rewrite (scalar_swap _ k), (scalar_mod EC_order _ _ Hord), (scalar_mul k digest).
  rewrite <- EC_add_assoc, EC_add_invert, add_infinity_r.
  rewrite scalar_mul, Z.mul_assoc, <- scalar_mul, (scalar_swap (r1 * cx)).
  rewrite <- (scalar_mod EC_order (r1 * cx) _ Hord), Hinv.
  rewrite MulP_scalar. reflexivity.
Qed.

(** X20.  When r is a multiple of q and decompresses to a point,
    [RecoverPublicKey] does not fail: the inverse is missing, [r1] stays
    0, and the result is the point at infinity. *)
Theorem RecoverPublicKey_infinity_when_r_is_zero_mod_q digest r s (isNegativeY : bool) C :
  r mod EC_order = 0 ->
  EC_POINT_set_compressed_coordinates_GFp r isNegativeY = Some C ->
  RecoverPublicKey digest r s isNegativeY = Some O.
Proof.
  intros Hr Hset. pose proof (@order_pos _ laws) as Hq. pose proof EC_order_gt_1 as Hq1.
  apply (RecoverPublicKey_no_inverse digest r s isNegativeY C Hset).
  unfold BN_mod_inverse.
  assert (Hg : Z.gcd r EC_order = EC_order).
  { rewrite Z.gcd_comm. apply Z.divide_gcd_iff; [lia |].
    apply Z.mod_divide; [lia | exact Hr]. }
  rewrite Hg. destruct (Z.eqb_spec EC_order 1); [lia | reflexivity].
Qed.

(** X21.  [Verify] does not tell a digest from its negative: on a curve
    where negating a point keeps its x-coordinate, and for a public key
    of order dividing q, a pair (r, s) gets the same answer for the
    digest e and for -e (so also for q - e). *)
Theorem Verify_same_for_negated_digest pub digest r s :
  (forall X, EC_POINT_get_affine_coordinates_GFp (-' X) =
             match EC_POINT_get_affine_coordinates_GFp X with
             | Some (x, y) => Some (x, (- y) mod EC_field)
             | None => None
             end) ->
  EC_order *' pub = O ->
  Verify pub (- digest) r s = Verify pub digest r s.
Proof.
  intros Hneg Hpub. pose proof (@order_pos _ laws) as Hq.
  pose proof EC_order_gt_1 as Hq1. pose proof EC_generator_order as Hord.
  unfold Verify, GetXY, BN_mod_mul, BN_sub, BN_mod. cbv zeta.
  rewrite Z.rem_opp_l by lia.
  set (h0 := Z.rem digest EC_order).
  set (h := match BN_mod_inverse h0 EC_order with Some i => i | None => h0 end).
  set (h' := match BN_mod_inverse (- h0) EC_order with Some i => i | None => - h0 end).
  assert (Hh : h' mod EC_order = (- h) mod EC_order).
  { unfold h', h. destruct (BN_mod_inverse h0 EC_order) as [i |] eqn:Hi.
    - destruct (BN_mod_inverse_sound _ _ _ Hq1 Hi) as [Hi1 Hi2].
      rewrite (BN_mod_inverse_complete (- h0) EC_order ((- i) mod EC_order)).
      + apply Z.mod_mod. lia.
      + assumption.
      + apply Z.mod_pos_bound. lia.
      + rewrite Z.mul_mod_idemp_l by lia.
        replace (- i * - h0) with (i * h0) by ring. exact Hi1.
    - assert (Hnone : BN_mod_inverse (- h0) EC_order = None).
      { unfold BN_mod_inverse in *. rewrite Z.gcd_opp_l.
        destruct (Z.gcd h0 EC_order =? 1); [discriminate | reflexivity]. }
      rewrite Hnone. reflexivity. }
  clearbody h h'. cbn [EC_POINT_mul].
  assert (HC : ((s * h') mod EC_order) *' EC_generator +'
               (((EC_order - r) * h') mod EC_order) *' pub =
               -' (((s * h) mod EC_order) *' EC_generator +'
                   (((EC_order - r) * h) mod EC_order) *' pub)).
  { rewrite invert_add, <- !scalar_opp.
    f_equal.
    - apply (scalar_congr EC_order); [exact Hord |].
      rewrite Z.mod_mod by lia.
      rewrite <- Z.mul_mod_idemp_r, Hh, Z.mul_mod_idemp_r by lia.
      rewrite <- (Z.sub_0_l (_ mod _)), Zminus_mod_idemp_r. f_equal. ring.
    - apply (scalar_congr EC_order); [exact Hpub |].
      rewrite Z.mod_mod by lia.
      rewrite <- Z.mul_mod_idemp_r, Hh, Z.mul_mod_idemp_r by lia.
      rewrite <- (Z.sub_0_l (_ mod _)), Zminus_mod_idemp_r. f_equal. ring. }
  rewrite HC, Hneg.
  destruct (EC_POINT_get_affine_coordinates_GFp _) as [[cx cy] |]; reflexivity.
Qed.

End Group.

(** *** Concrete runs of the further properties on the small curve *)

Lemma Sign_computes_r_and_s_witness :
  @Sign Toy.group 3 5 0 2 = (2, (2 * 3 + 2 * 5) mod 11).
Proof.
  apply (@Sign_computes_r_and_s Toy.group ToyFacts.laws 3 5 0 2 2 16).
  vm_compute. reflexivity.
Defined.

Lemma Verify_compares_Cx_mod_q_witness :
  @Verify Toy.group (@MulP Toy.group 3) 5 2 5 = (2 mod 11 =? 2).
Proof.
  apply (@Verify_compares_Cx_mod_q Toy.group ToyFacts.laws (@MulP Toy.group 3) 5 2 5 9 2 16);
    [change (@EC_order Toy.group) with 11; lia | reflexivity | vm_compute; reflexivity].
Defined.

Lemma Verify_accepts_Sign_iff_Cx_below_q_witness :
  (let '(r, s) := @Sign Toy.group 3 5 0 2 in
   @Verify Toy.group (@MulP Toy.group 3) 5 r s) = true <-> 2 < 11.
Proof.
  apply (@Verify_accepts_Sign_iff_Cx_below_q Toy.group ToyFacts.laws 3 5 0 2 9 2 16);
    [change (@EC_order Toy.group) with 11; lia | reflexivity | vm_compute; reflexivity].
Defined.

Lemma Verify_accepts_only_r_below_q_witness :
  0 <= 2 < @EC_order Toy.group.
Proof.
  apply (@Verify_accepts_only_r_below_q Toy.group ToyFacts.laws (@MulP Toy.group 3) 5 2 5).
  vm_compute. reflexivity.
Defined.

Lemma Verify_sees_digest_and_s_modulo_q_witness :
  @Verify Toy.group (@MulP Toy.group 3) 5 2 5 =
  @Verify Toy.group (@MulP Toy.group 3) 16 2 27.
Proof.
  apply (@Verify_sees_digest_and_s_modulo_q Toy.group ToyFacts.laws); reflexivity.
Defined.

Lemma RecoverPublicKey_recovers_signer_witness :
  (let '(r, s) := @Sign Toy.group 3 5 0 2 in
   @RecoverPublicKey Toy.group 5 r s (Z.odd 16)) = Some (@MulP Toy.group 3).
Proof.
  apply (@RecoverPublicKey_recovers_signer Toy.group ToyFacts.laws 3 5 0 2 2 16 6);
    [vm_compute; reflexivity | change (@EC_order Toy.group) with 11; lia | reflexivity].
Defined.

Lemma RecoverPublicKey_infinity_when_r_is_zero_mod_q_witness :
  @RecoverPublicKey Toy.group 5 11 9 false = Some (@EC_infinity Toy.group).
Proof.
  apply (@RecoverPublicKey_infinity_when_r_is_zero_mod_q Toy.group ToyFacts.laws
           5 11 9 false (Toy.handle (Some (11, 4))));
    [reflexivity | vm_compute; reflexivity].
Defined.

Lemma toy_negation_keeps_x (X : fin 11) :
  Toy.coords (Toy.handle (Toy.affine_neg (Toy.coords X))) =
  match Toy.coords X with
  | Some (x, y) => Some (x, (- y) mod 17)
  | None => None
  end.
Proof.
  revert X.
  apply (bool_decide_eq_true_1
           (forall X, Toy.coords (Toy.handle (Toy.affine_neg (Toy.coords X))) =
                      match Toy.coords X with
                      | Some (x, y) => Some (x, (- y) mod 17)
                      | None => None
                      end)).
  vm_compute. reflexivity.
Qed.

Lemma Verify_same_for_negated_digest_witness :
  @Verify Toy.group (@MulP Toy.group 3) (- 5) 2 5 =
  @Verify Toy.group (@MulP Toy.group 3) 5 2 5.
Proof.
  apply (@Verify_same_for_negated_digest Toy.group ToyFacts.laws (@MulP Toy.group 3) 5 2 5);
    [exact toy_negation_keeps_x | vm_compute; reflexivity].
Defined.

End Gost3410_More.

(** ** Part VII.  The curve registry *)

Module Gost3410_Registry_Theory.
Import Gost3410_Registry.

Lemma slot_insert_same (g : list (option GOSTR3410Curve)) ps v :
  length g = eGOSTR3410NumParamSets ->
  slot (<[param_index ps := v]> g) ps = v.
Proof.
  intros Hlen. unfold slot.
  rewrite list_lookup_insert_eq; [reflexivity|].
  rewrite Hlen. unfold eGOSTR3410NumParamSets. destruct ps; cbn; lia.
Qed.

Lemma slot_insert_other (g : list (option GOSTR3410Curve)) ps ps' v :
  ps' <> ps ->
  slot (<[param_index ps := v]> g) ps' = slot g ps'.
Proof.
  intros Hne. unfold slot.
  rewrite list_lookup_insert_ne; [reflexivity|].
  destruct ps, ps'; cbn; congruence.
Qed.

(** X22.  [GetGOSTR3410Curve] on an array of [eGOSTR3410NumParamSets]
    slots never returns a null entry: it returns the curve already stored
    for the parameter set, or the one [CreateGOSTR3410Curve] builds when
    the slot was empty.  The entry returned is the one stored afterwards,
    the slots of the other parameter sets and the size of the array are
    unchanged, and asking again returns the same entry and changes
    nothing. *)
Theorem GetGOSTR3410Curve_caches
    (paramSet : GOSTR3410ParamSet) (g : list (option GOSTR3410Curve)) :
  length g = eGOSTR3410NumParamSets ->
  let g' := fst (GetGOSTR3410Curve paramSet g) in
  let c := snd (GetGOSTR3410Curve paramSet g) in
  c = Some (default (CreateGOSTR3410Curve paramSet) (slot g paramSet)) /\
  slot g' paramSet = c /\
  (forall other, other <> paramSet -> slot g' other = slot g other) /\
  length g' = length g /\
  GetGOSTR3410Curve paramSet g' = (g', c).
Proof.
  intros Hlen. unfold GetGOSTR3410Curve.
  destruct (slot g paramSet) as [c0|] eqn:Hslot; cbn [fst snd default].
  - rewrite !Hslot. split; [reflexivity|]. split; [reflexivity|].
    split; [reflexivity|]. split; reflexivity.
  - rewrite !slot_insert_same by exact Hlen. cbn [default].
    split; [reflexivity|]. split; [reflexivity|].
    split; [intros other Hne; apply slot_insert_other; exact Hne|].
    split; [apply length_insert|]. reflexivity.
Qed.

Lemma GetGOSTR3410Curve_caches_witness :
  length [None; Some (CreateGOSTR3410Curve eGOSTR3410TC26A512)]
    = eGOSTR3410NumParamSets /\
  let g := [None; Some (CreateGOSTR3410Curve eGOSTR3410TC26A512)] in
  let g' := fst (GetGOSTR3410Curve eGOSTR3410CryptoProA g) in
  let c := snd (GetGOSTR3410Curve eGOSTR3410CryptoProA g) in
  c = Some (default (CreateGOSTR3410Curve eGOSTR3410CryptoProA)
              (slot g eGOSTR3410CryptoProA)) /\
  slot g' eGOSTR3410CryptoProA = c /\
  (forall other, other <> eGOSTR3410CryptoProA -> slot g' other = slot g other) /\
  length g' = length g /\
  GetGOSTR3410Curve eGOSTR3410CryptoProA g' = (g', c).
Proof.
  split; [reflexivity|].
  apply (GetGOSTR3410Curve_caches eGOSTR3410CryptoProA
           [None; Some (CreateGOSTR3410Curve eGOSTR3410TC26A512)]).
  reflexivity.
Defined.

(** X23.  Both rows of the table of [CreateGOSTR3410Curve] give a usable
    curve: the key length is 32 bytes for CryptoPro A and 64 bytes for
    tc26-2012-paramSetA-512, and the order q has that many bytes too; the
    coefficients and the coordinates of the generator are reduced modulo
    p, with 0 < q < p; the generator satisfies y^2 = x^3 + a x + b modulo
    p; and the discriminant 4 a^3 + 27 b^2 is not zero modulo p. *)
Theorem CreateGOSTR3410Curve_parameters (paramSet : GOSTR3410ParamSet) :
  let c := CreateGOSTR3410Curve paramSet in
  m_KeyLen c = match paramSet with
               | eGOSTR3410CryptoProA => 32
               | eGOSTR3410TC26A512 => 64
               end /\
  BN_num_bytes (curve_q c) = m_KeyLen c /\
  (0 <= curve_a c < curve_p c) /\
  (0 <= curve_b c < curve_p c) /\
  (0 < curve_q c < curve_p c) /\
  (0 <= curve_x c < curve_p c) /\
  (0 <= curve_y c < curve_p c) /\
  (curve_y c * curve_y c) mod curve_p c
    = (curve_x c * curve_x c * curve_x c + curve_a c * curve_x c + curve_b c)
        mod curve_p c /\
  (4 * curve_a c * curve_a c * curve_a c + 27 * curve_b c * curve_b c)
    mod curve_p c <> 0.
Proof.
  destruct paramSet; vm_compute;
    (split; [reflexivity|]); (split; [reflexivity|]);
    (split; [split; [discriminate | reflexivity]|]);
    (split; [split; [discriminate | reflexivity]|]);
    (split; [split; reflexivity|]);
    (split; [split; [discriminate | reflexivity]|]);
    (split; [split; [discriminate | reflexivity]|]);
    (split; [reflexivity | discriminate]).
Qed.

(** On both registry curves a multiple of q is, taken modulo p, the
    x-coordinate of a point: 7 * q on CryptoPro A and 4 * q on
    tc26-2012-paramSetA-512, with the y given here.  Such an r
    decompresses and has no inverse modulo q. *)
Lemma registry_multiple_of_q_on_curve :
  (let c := CreateGOSTR3410Curve eGOSTR3410CryptoProA in
   let x := (7 * curve_q c) mod curve_p c in
   let y := 0xFE3598F3307FA01AEE6BA2D4C7AF737F2EBDF28D182FD35C6734F88595890E42 in
   0 <= y < curve_p c /\
   (y * y) mod curve_p c = (x * x * x + curve_a c * x + curve_b c) mod curve_p c) /\
  (let c := CreateGOSTR3410Curve eGOSTR3410TC26A512 in
   let x := (4 * curve_q c) mod curve_p c in
   let y := 0x9064724E197FA020A33944D6DD68AC33D6FF09F95A32C817D785BA2946D3094857DC42F7FFB8249429F7BD541DB4A49AF534C47A74D82568003731E73A1DE71A in
   0 <= y < curve_p c /\
   (y * y) mod curve_p c = (x * x * x + curve_a c * x + curve_b c) mod curve_p c).
Proof.
  split; vm_compute; (split; [split; [discriminate | reflexivity] | reflexivity]).
Qed.

End Gost3410_Registry_Theory.
